(** * gobmp: byte-level decoders and the Kafka publisher

    A shallow embedding of
      - [bgpls.NLRI.GetNodeFlags]                 (package bgpls),
      - [base.UnmarshalLinkDescriptorTLV]         (package base),
      - [evpn.UnmarshalEVPNMACIPAdvertisement]    (package evpn),
      - the publisher of package kafka.

    Go values are modelled as the code has them: a [[]byte] is a slice with a
    length and a capacity, unsigned integers are [Z] in their range, a call
    either returns or panics. *)

From Stdlib Require Import ZArith String Ascii List Bool Lia.
From Stdlib.Strings Require Import Byte.
From Stdlib Require DecimalString.
Import ListNotations.
Local Open Scope Z_scope.

(** ** Outcome of a Go call

    A Go function of type [(T, error)] returns a value, returns an error, or
    does not return at all because a run-time panic unwinds it. *)

Inductive outcome (A : Type) : Type :=
| Ok (a : A)
| Err (msg : string)
| Panic (why : string).

Arguments Ok {A} a.
Arguments Err {A} msg.
Arguments Panic {A} why.

Definition bind {A B : Type} (m : outcome A) (k : A -> outcome B) : outcome B :=
  match m with
  | Ok a => k a
  | Err e => Err e
  | Panic w => Panic w
  end.

Notation "x <- m ;; k" := (bind m (fun x => k))
  (at level 61, m at next level, right associativity).
Notation "' pat <- m ;; k" := (bind m (fun pat => k))
  (at level 61, pat pattern, m at next level, right associativity).

(** ** Go byte slices

    A slice is a window on a backing array.  [elems] are the bytes below
    [len]; [spare] are the bytes of the backing array between [len] and
    [cap].  A slice expression [b[lo:hi]] is in range when
    [0 <= lo <= hi <= cap(b)] (the bound is the capacity, not the length); an
    index expression [b[i]] is in range when [0 <= i < len(b)]. *)

Module Slice.

Record t : Type := mk { elems : list byte; spare : list byte }.

Definition backing (b : t) : list byte := elems b ++ spare b.

Definition len (b : t) : Z := Z.of_nat (length (elems b)).

Definition cap (b : t) : Z := Z.of_nat (length (backing b)).

(** A slice that owns its whole backing array, [cap(b) = len(b)]. *)
Definition of_list (l : list byte) : t := mk l [].

Definition out_of_range : string := "slice bounds out of range".
Definition index_out_of_range : string := "index out of range".

(** [b[lo:hi]] *)
Definition sub (b : t) (lo hi : Z) : outcome t :=
  if (0 <=? lo) && (lo <=? hi) && (hi <=? cap b) then
    let rest := skipn (Z.to_nat lo) (backing b) in
    Ok (mk (firstn (Z.to_nat (hi - lo)) rest) (skipn (Z.to_nat (hi - lo)) rest))
  else Panic out_of_range.

(** [b[lo:]], that is [b[lo:len(b)]] *)
Definition from (b : t) (lo : Z) : outcome t := sub b lo (len b).

(** [b[i]] *)
Definition index (b : t) (i : Z) : outcome byte :=
  if (0 <=? i) && (i <? len b) then
    match nth_error (elems b) (Z.to_nat i) with
    | Some x => Ok x
    | None => Panic index_out_of_range
    end
  else Panic index_out_of_range.

(** [make([]byte, n)] *)
Definition make (n : Z) : list byte := repeat x00 (Z.to_nat n).

(** [copy(dst, src)] copies [min(len(dst), len(src))] bytes and leaves the
    rest of [dst] as it was. *)
Definition copy (dst src : list byte) : list byte :=
  let n := Nat.min (length dst) (length src) in
  firstn n src ++ skipn n dst.

End Slice.

(** ** Unsigned integers *)

Definition uint8 (x : byte) : Z := Z.of_N (Byte.to_N x).

(** [binary.BigEndian.Uint16(b)]: [uint16(b[1]) | uint16(b[0])<<8]. *)
Definition Uint16 (b : Slice.t) : outcome Z :=
  b1 <- Slice.index b 1 ;;
  b0 <- Slice.index b 0 ;;
  Ok (Z.lor (uint8 b1) (Z.shiftl (uint8 b0) 8)).

(** ** package bgpls: the NLRI object and its node flags *)

Module bgpls.

(** Modelled from the spec: the declaration of [bgpls.TLV] is not among the
    sources; the spec's TLV is a triple (type:uint16, length:uint16,
    value:bytes), and [GetNodeFlags] reads its [Type] and [Value] fields. *)
Record TLV : Type := mkTLV {
  Type_ : Z;          (* uint16 *)
  Length : Z;         (* uint16 *)
  Value : list byte
}.

(** [type NLRI struct { LS []TLV }] *)
Record NLRI : Type := mkNLRI { LS : list TLV }.

(** [tlv.Value[0]]: an index expression, checked against the length. *)
Definition first_byte (v : list byte) : outcome byte :=
  Slice.index (Slice.of_list v) 0.

(** The [range] loop of [GetNodeFlags] over the TLVs still to visit. *)
Fixpoint node_flags (tlvs : list TLV) : outcome Z :=
  match tlvs with
  | [] => Ok 0
  | tlv :: rest =>
      if negb (Type_ tlv =? 1024) then node_flags rest
      else x <- first_byte (Value tlv) ;; Ok (uint8 x)
  end.

Definition GetNodeFlags (ls : NLRI) : outcome Z := node_flags (LS ls).

Section Marshal.

(** [json.Marshal(&tlv)], which runs the TLV's own [MarshalJSON], is not
    among the sources: the NLRI's [MarshalJSON] is modelled over any such
    function. *)
Variable json_Marshal : TLV -> outcome (list byte).

(** The bytes of the key: the name BGPLSTLV between two quotes (byte 0x22),
    then a colon. *)
Definition key_BGPLSTLV : list byte :=
  [x22] ++ list_byte_of_string "BGPLSTLV" ++ [x22] ++ list_byte_of_string ":".

(** [for i, tlv := range ls.LS { ... }], from index [i] on, [n] being
    [len(ls.LS)]. *)
Fixpoint marshal_range (n i : Z) (tlvs : list TLV) (jsonData : list byte)
    : outcome (list byte) :=
  match tlvs with
  | [] => Ok jsonData
  | tlv :: rest =>
      b <- json_Marshal tlv ;;
      let jsonData := jsonData ++ b in
      let jsonData := if i <? n - 1 then jsonData ++ [x2c] else jsonData in
      marshal_range n (i + 1) rest jsonData
  end.

Definition MarshalJSON (ls : NLRI) : outcome (list byte) :=
  let jsonData : list byte := [] in
  let jsonData := jsonData ++ [x7b] in
  let jsonData := jsonData ++ key_BGPLSTLV in
  let jsonData := jsonData ++ [x5b] in
  jsonData <- marshal_range (Z.of_nat (length (LS ls))) 0 (LS ls) jsonData ;;
  let jsonData := jsonData ++ [x5d] in
  let jsonData := jsonData ++ [x7d] in
  Ok jsonData.

End Marshal.

(** Items put one after the other with a separator between them. *)
Fixpoint join (sep : list byte) (items : list (list byte)) : list byte :=
  match items with
  | [] => []
  | [x] => x
  | x :: rest => x ++ sep ++ join sep rest
  end.

End bgpls.

(** ** package base: Link Descriptor TLVs *)

Module base.

Record LinkDescriptorTLV : Type := mkLinkDescriptorTLV {
  Type_ : Z;          (* uint16 *)
  Length : Z;         (* uint16 *)
  Value : list byte
}.

(** One turn of the loop of [UnmarshalLinkDescriptorTLV]: the TLV read at
    offset [p] and the offset after it. *)
Definition tlv_body (b : Slice.t) (p : Z) : outcome (LinkDescriptorTLV * Z) :=
  s <- Slice.sub b p (p + 2) ;;
  ty <- Uint16 s ;;
  let p := p + 2 in
  s <- Slice.sub b p (p + 2) ;;
  ln <- Uint16 s ;;
  let p := p + 2 in
  let value := Slice.make ln in
  s <- Slice.sub b p (p + ln) ;;
  let value := Slice.copy value (Slice.elems s) in
  Ok (mkLinkDescriptorTLV ty ln value, p + ln).

(** [for p := 0; p < len(b); { ... }].  [fuel] bounds the number of turns;
    [None] means the bound was reached. *)
Fixpoint tlv_loop (fuel : nat) (b : Slice.t) (p : Z)
    (ltlvs : list LinkDescriptorTLV) : option (outcome (list LinkDescriptorTLV)) :=
  match fuel with
  | O => None
  | S fuel' =>
      if p <? Slice.len b then
        match tlv_body b p with
        | Ok (ltlv, p') => tlv_loop fuel' b p' (ltlvs ++ [ltlv])
        | Err e => Some (Err e)
        | Panic w => Some (Panic w)
        end
      else Some (Ok ltlvs)
  end.

(** Every turn moves [p] forward by at least 4, so [len(b) + 1] turns are
    more than the loop can take. *)
Definition UnmarshalLinkDescriptorTLV (b : Slice.t)
    : option (outcome (list LinkDescriptorTLV)) :=
  tlv_loop (S (length (Slice.elems b))) b 0 [].

(** The outcome of a walk, with TLVs put in front of the ones it returns. *)
Definition prepend_tlvs (acc : list LinkDescriptorTLV)
    (r : outcome (list LinkDescriptorTLV)) : outcome (list LinkDescriptorTLV) :=
  match r with
  | Ok tlvs => Ok (acc ++ tlvs)
  | Err e => Err e
  | Panic w => Panic w
  end.

Section MarshalJSON.

(** The decoders of the structured values, [json.Marshal] on what they
    return, and [tools.RawBytesToJSON] are not among the sources: the TLV's
    [MarshalJSON] is modelled over any such functions. *)
Variables LocalRemoteIdentifierTLV MultiTopologyIdentifierTLV : Type.
Variable UnmarshalLocalRemoteIdentifierTLV :
  list byte -> outcome LocalRemoteIdentifierTLV.
Variable json_Marshal_lri : LocalRemoteIdentifierTLV -> outcome (list byte).
Variable UnmarshalMultiTopologyIdentifierTLV :
  list byte -> outcome MultiTopologyIdentifierTLV.
Variable json_Marshal_mit : MultiTopologyIdentifierTLV -> outcome (list byte).
Variable RawBytesToJSON : list byte -> list byte.

(** The bytes of a Go string literal that holds [s] between two quotes
    (byte 0x22) and then [after]. *)
Definition quoted (s after : string) : list byte :=
  [x22] ++ list_byte_of_string s ++ [x22] ++ list_byte_of_string after.

(** [fmt.Sprintf("%d,", n)] for an unsigned [n]. *)
Definition Sprintf_d_comma (n : Z) : list byte :=
  list_byte_of_string
    (DecimalString.NilZero.string_of_int (Z.to_int n) ++ ",").

(** The bytes up to the [switch]: the opening brace, the type and the key
    of the description. *)
Definition json_head (tlv : LinkDescriptorTLV) : list byte :=
  let jsonData : list byte := [] in
  let jsonData := jsonData ++ [x7b] in
  let jsonData := jsonData ++ quoted "Type" ":" in
  let jsonData := jsonData ++ Sprintf_d_comma (Type_ tlv) in
  jsonData ++ quoted "Description" ":".

(** A case of the [switch] that writes a description, a key and the raw
    value. *)
Definition raw_case (jsonData : list byte) (description key : string)
    (tlv : LinkDescriptorTLV) : outcome (list byte) :=
  let jsonData := jsonData ++ quoted description "," in
  let jsonData := jsonData ++ quoted key ":" in
  Ok (jsonData ++ RawBytesToJSON (Value tlv)).

Definition MarshalJSON (tlv : LinkDescriptorTLV) : outcome (list byte) :=
  let jsonData := json_head tlv in
  jsonData <-
    (if Type_ tlv =? 258 then
       let jsonData := jsonData ++ quoted "Local/Remote Identifiers" "," in
       let jsonData := jsonData ++ quoted "identifiersLocalRemote" ":" in
       lri <- UnmarshalLocalRemoteIdentifierTLV (Value tlv) ;;
       b <- json_Marshal_lri lri ;;
       Ok (jsonData ++ b)
     else if Type_ tlv =? 259 then
       raw_case jsonData "IPv4 interface address" "ipv4InterfaceAddress" tlv
     else if Type_ tlv =? 260 then
       raw_case jsonData "IPv4 neighbor address" "ipv4NeighborAddress" tlv
     else if Type_ tlv =? 261 then
       raw_case jsonData "IPv6 interface address" "ipv6InterfaceAddress" tlv
     else if Type_ tlv =? 262 then
       raw_case jsonData "IPv6 neighbor address" "ipv6NeighborAddress" tlv
     else if Type_ tlv =? 263 then
       let jsonData := jsonData ++ quoted "Multi-Topology Identifier" "," in
       let jsonData := jsonData ++ quoted "multiTopologyIdentifier" ":" in
       mit <- UnmarshalMultiTopologyIdentifierTLV (Value tlv) ;;
       b <- json_Marshal_mit mit ;;
       Ok (jsonData ++ b)
     else
       raw_case jsonData "Unknown Link TLV" "Value" tlv) ;;
  Ok (jsonData ++ [x7d]).

End MarshalJSON.

End base.

(** ** package evpn: MAC/IP Advertisement route (route type 2) *)

Module evpn.

Section Unmarshal.

(** The field decoders [base.MakeRD], [MakeESI], [MakeMACAddress] and
    [base.MakeLabel], and the types they build, are not among the sources:
    the route parser is modelled over any such decoders. *)
Variables base_RD evpn_ESI evpn_MACAddress base_Label : Type.
Variable MakeRD : Slice.t -> outcome base_RD.
Variable MakeESI : Slice.t -> outcome evpn_ESI.
Variable MakeMACAddress : Slice.t -> outcome evpn_MACAddress.
Variable MakeLabel : Slice.t -> outcome base_Label.

(** Pointer fields are [None] while nil; a nil [[]byte] is the empty list. *)
Record MACIPAdvertisement : Type := mkMACIPAdvertisement {
  RD : option base_RD;
  ESI : option evpn_ESI;
  EthTag : list byte;
  MACAddrLength : Z;      (* uint8 *)
  MACAddr : option evpn_MACAddress;
  IPAddrLength : Z;       (* uint8 *)
  IPAddr : list byte;
  Label : list base_Label
}.

(** The statements of [UnmarshalEVPNMACIPAdvertisement] before its label
    loop: the route built so far (no label yet) and the offset reached. *)
Definition fixed_part (b : Slice.t) : outcome (MACIPAdvertisement * Z) :=
  let EthTag0 : list byte := [] in          (* t := MACIPAdvertisement{} *)
  let p := 0 in
  s <- Slice.sub b p (p + 8) ;;
  rd <- MakeRD s ;;
  let p := p + 8 in
  s <- Slice.sub b p (p + 10) ;;
  esi <- MakeESI s ;;
  let p := p + 10 in
  s <- Slice.sub b p (p + 4) ;;
  let ethTag := Slice.copy EthTag0 (Slice.elems s) in
  let p := p + 4 in
  x <- Slice.index b p ;;
  let macAddrLength := uint8 x in
  let p := p + 1 in
  let l := macAddrLength / 8 in
  '(macAddr, p) <-
     (if negb (l =? 0) then
        s <- Slice.sub b p (p + l) ;;
        m <- MakeMACAddress s ;;
        Ok (Some m, p + l)
      else Ok (None, p)) ;;
  x <- Slice.index b p ;;
  let ipAddrLength := uint8 x in
  let p := p + 1 in
  let l := ipAddrLength / 8 in
  '(ipAddr, p) <-
     (if negb (ipAddrLength =? 0) then
        let ipAddr := Slice.make l in
        s <- Slice.sub b p (p + l) ;;
        Ok (Slice.copy ipAddr (Slice.elems s), p + l)
      else Ok ([], p)) ;;
  Ok (mkMACIPAdvertisement (Some rd) (Some esi) ethTag macAddrLength macAddr
        ipAddrLength ipAddr [], p).

(** [for i := 0; p < len(b); i++ { l, err := base.MakeLabel(b[p:]) ... p += 3 }].
    [None] means the bound [fuel] on the number of turns was reached. *)
Fixpoint label_loop (fuel : nat) (b : Slice.t) (p : Z) (labels : list base_Label)
    : option (outcome (list base_Label)) :=
  match fuel with
  | O => None
  | S fuel' =>
      if p <? Slice.len b then
        match (s <- Slice.from b p ;; MakeLabel s) with
        | Ok l => label_loop fuel' b (p + 3) (labels ++ [l])
        | Err e => Some (Err e)
        | Panic w => Some (Panic w)
        end
      else Some (Ok labels)
  end.

Definition with_labels (t : MACIPAdvertisement) (labels : list base_Label)
    : MACIPAdvertisement :=
  mkMACIPAdvertisement (RD t) (ESI t) (EthTag t) (MACAddrLength t) (MACAddr t)
    (IPAddrLength t) (IPAddr t) labels.

(** Every turn of the label loop moves [p] forward by 3, so [len(b) + 1]
    turns are more than it can take. *)
Definition UnmarshalEVPNMACIPAdvertisement (b : Slice.t)
    : option (outcome MACIPAdvertisement) :=
  match fixed_part b with
  | Ok (t, p) =>
      match label_loop (S (length (Slice.elems b))) b p [] with
      | Some (Ok labels) => Some (Ok (with_labels t labels))
      | Some (Err e) => Some (Err e)
      | Some (Panic w) => Some (Panic w)
      | None => None
      end
  | Err e => Some (Err e)
  | Panic w => Some (Panic w)
  end.

(** The Ethernet Tag on the wire: the 4 bytes that follow the 8-byte RD and
    the 10-byte ESI. *)
Definition wire_EthTag (b : Slice.t) : list byte :=
  firstn 4 (skipn 18 (Slice.backing b)).

(** An error that one of the field decoders returns on some slice. *)
Definition decoder_error (e : string) : Prop :=
  (exists s, MakeRD s = Err e) \/ (exists s, MakeESI s = Err e) \/
  (exists s, MakeMACAddress s = Err e) \/ (exists s, MakeLabel s = Err e).

(** The offset of the first label: after the 22-byte header, the MAC length
    byte, the MAC bytes, the IP length byte and the IP bytes. *)
Definition labels_offset (macAddrLength ipAddrLength : Z) : Z :=
  24 + macAddrLength / 8 + (if ipAddrLength =? 0 then 0 else ipAddrLength / 8).

(** The fields of the route, each with the bytes it is read from. *)
Definition placed (b : Slice.t)
    (t : MACIPAdvertisement) : Prop :=
  (exists s rd, Slice.sub b 0 8 = Ok s /\ MakeRD s = Ok rd /\ RD t = Some rd) /\
  (exists s esi, Slice.sub b 8 18 = Ok s /\ MakeESI s = Ok esi /\
                 ESI t = Some esi) /\
  (exists x, Slice.index b 22 = Ok x /\ MACAddrLength t = uint8 x) /\
  (if MACAddrLength t / 8 =? 0 then MACAddr t = None
   else exists s m,
       Slice.sub b 23 (23 + MACAddrLength t / 8) = Ok s /\
       MakeMACAddress s = Ok m /\ MACAddr t = Some m) /\
  (exists y, Slice.index b (23 + MACAddrLength t / 8) = Ok y /\
             IPAddrLength t = uint8 y) /\
  (if IPAddrLength t =? 0 then IPAddr t = []
   else IPAddr t =
        firstn (Z.to_nat (IPAddrLength t / 8))
          (skipn (Z.to_nat (24 + MACAddrLength t / 8)) (Slice.backing b)) /\
        Z.of_nat (length (IPAddr t)) = IPAddrLength t / 8).

End Unmarshal.

Arguments RD {_ _ _ _} _.
Arguments ESI {_ _ _ _} _.
Arguments EthTag {_ _ _ _} _.
Arguments MACAddrLength {_ _ _ _} _.
Arguments MACAddr {_ _ _ _} _.
Arguments IPAddrLength {_ _ _ _} _.
Arguments IPAddr {_ _ _ _} _.
Arguments Label {_ _ _ _} _.

End evpn.

(** ** Go's standard library, as far as [validator] calls it *)

Module strings.

Definition len (s : string) : Z := Z.of_nat (String.length s).

(** [s[lo:hi]] *)
Definition slice (s : string) (lo hi : Z) : string :=
  substring (Z.to_nat lo) (Z.to_nat (hi - lo)) s.

(** [s[i] == c]; false when [i] is not an index of [s]. *)
Definition byte_is (s : string) (i : Z) (c : ascii) : bool :=
  match String.get (Z.to_nat i) s with
  | Some x => (0 <=? i) && Ascii.eqb x c
  | None => false
  end.

(** [bytealg.IndexByteString]: the index of the first [c] in [s], or -1. *)
Fixpoint IndexByteString (s : string) (c : ascii) : Z :=
  match s with
  | EmptyString => -1
  | String x r =>
      if Ascii.eqb x c then 0
      else let i := IndexByteString r c in if i <? 0 then -1 else i + 1
  end.

(** [last] of package net: the index of the last [c] in [s], or -1. *)
Fixpoint last (s : string) (c : ascii) : Z :=
  match s with
  | EmptyString => -1
  | String x r =>
      let i := last r c in
      if 0 <=? i then i + 1 else if Ascii.eqb x c then 0 else -1
  end.

End strings.

Module net.

Definition missingPort : string := "missing port in address"%string.
Definition tooManyColons : string := "too many colons in address"%string.

(** [net.SplitHostPort]: [(host, port, err)], with [err = None] for nil. *)
Definition SplitHostPort (hostport : string) : string * string * option string :=
  let addrErr (why : string) := (EmptyString, EmptyString, Some why) in
  let i := strings.last hostport ":" in
  if i <? 0 then addrErr missingPort
  else
    let bracketed :=
      if strings.byte_is hostport 0 "[" then
        let end_ := strings.IndexByteString hostport "]" in
        if end_ <? 0 then inl "missing ']' in address"%string
        else if end_ + 1 =? strings.len hostport then inl missingPort
        else if end_ + 1 =? i then inr (strings.slice hostport 1 end_, 1, end_ + 1)
        else if strings.byte_is hostport (end_ + 1) ":" then inl tooManyColons
        else inl missingPort
      else
        let host := strings.slice hostport 0 i in
        if 0 <=? strings.IndexByteString host ":" then inl tooManyColons
        else inr (host, 0, 0) in
    match bracketed with
    | inl why => addrErr why
    | inr (host, j, k) =>
        let n := strings.len hostport in
        if 0 <=? strings.IndexByteString (strings.slice hostport j n) "[" then
          addrErr "unexpected '[' in address"%string
        else if 0 <=? strings.IndexByteString (strings.slice hostport k n) "]" then
          addrErr "unexpected ']' in address"%string
        else (host, strings.slice hostport (i + 1) n, None)
    end.

End net.

Module strconv.

Definition digit (c : ascii) : option Z :=
  let d := Z.of_nat (nat_of_ascii c) - 48 in
  if (0 <=? d) && (d <=? 9) then Some d else None.

Fixpoint digits (s : string) (n : Z) : option Z :=
  match s with
  | EmptyString => Some n
  | String c r =>
      match digit c with
      | Some d => digits r (n * 10 + d)
      | None => None
      end
  end.

(** [strconv.Atoi] on a 64-bit platform: an optional sign and one or more
    decimal digits, the value within [int]; [None] stands for a non-nil
    error (syntax or range). *)
Definition Atoi (s : string) : option Z :=
  match s with
  | EmptyString => None
  | String c r =>
      let neg := Ascii.eqb c "-" in
      let body := if neg || Ascii.eqb c "+" then r else s in
      match body with
      | EmptyString => None
      | _ =>
          match digits body 0 with
          | Some n =>
              let v := if neg then - n else n in
              if (- 2 ^ 63 <=? v) && (v <? 2 ^ 63) then Some v else None
          | None => None
          end
      end
  end.

End strconv.

(** ** package kafka: the publisher *)

Module kafka.

(** Topic names. *)
Definition peerTopic : string := "gobmp.parsed.peer".
Definition unicastMessageTopic : string := "gobmp.parsed.unicast_prefix".
Definition lsNodeMessageTopic : string := "gobmp.parsed.ls_node".
Definition lsLinkMessageTopic : string := "gobmp.parsed.ls_link".
Definition l3vpnMessageTopic : string := "gobmp.parsed.l3vpn".
Definition lsPrefixMessageTopic : string := "gobmp.parsed.ls_prefix".
Definition lsSRv6SIDMessageTopic : string := "gobmp.parsed.ls_srv6_sid".
Definition evpnMessageTopic : string := "gobmp.parsed.evpn".

Definition topicNames : list string :=
  [ peerTopic; unicastMessageTopic; lsNodeMessageTopic; lsLinkMessageTopic;
    l3vpnMessageTopic; lsPrefixMessageTopic; lsSRv6SIDMessageTopic;
    evpnMessageTopic ].

(** A Go [error]: [None] is nil. *)
Definition error : Type := option string.

(** [sarama.ProducerMessage], the fields the publisher sets. *)
Record ProducerMessage : Type := mkProducerMessage {
  Topic : string;
  Key : list byte;
  Value : list byte
}.

(** The publisher's state, as far as its methods touch it: whether the
    broker connection is open, the messages sent so far on the producer's
    input channel (oldest first), and whether [stopCh] has been closed. *)
Record publisher : Type := mkPublisher {
  broker_open : bool;
  producer_input : list ProducerMessage;
  stopCh_closed : bool
}.

(** [p.producer.Input() <- &sarama.ProducerMessage{...}; return nil].  The
    send is a hand-off to the asynchronous producer, which is taken to
    receive it. *)
Definition produceMessage (p : publisher) (topic : string) (key msg : list byte)
    : publisher * error :=
  let k := key in
  let m := msg in
  (mkPublisher (broker_open p)
     (producer_input p ++ [mkProducerMessage topic k m])
     (stopCh_closed p),
   None).

Section Publish.

(** The message-type constants of package bmp are not among the sources. *)
Variables PeerStateChangeMsg UnicastPrefixMsg LSNodeMsg LSLinkMsg L3VPNMsg
  LSPrefixMsg LSSRv6SIDMsg EVPNMsg : Z.

Definition known_types : list Z :=
  [ PeerStateChangeMsg; UnicastPrefixMsg; LSNodeMsg; LSLinkMsg; L3VPNMsg;
    LSPrefixMsg; LSSRv6SIDMsg; EVPNMsg ].

(** The record kinds of the spec, each with its message-type constant and
    with the topic name the spec's external-interface section gives it. *)
Inductive record_kind : Type :=
| PeerStateChange | UnicastPrefix | LSNode | LSLink
| LSPrefix | LSSRv6SID | L3VPN | EVPN.

Definition msg_type (k : record_kind) : Z :=
  match k with
  | PeerStateChange => PeerStateChangeMsg
  | UnicastPrefix => UnicastPrefixMsg
  | LSNode => LSNodeMsg
  | LSLink => LSLinkMsg
  | LSPrefix => LSPrefixMsg
  | LSSRv6SID => LSSRv6SIDMsg
  | L3VPN => L3VPNMsg
  | EVPN => EVPNMsg
  end.

Definition spec_topic (k : record_kind) : string :=
  match k with
  | PeerStateChange => "parsed.peer"
  | UnicastPrefix => "parsed.unicast_prefix"
  | LSNode => "parsed.ls_node"
  | LSLink => "parsed.ls_link"
  | LSPrefix => "parsed.ls_prefix"
  | LSSRv6SID => "parsed.ls_srv6_sid"
  | L3VPN => "parsed.l3vpn"
  | EVPN => "parsed.evpn"
  end.

(** The [switch t] takes the first case equal to [t]. *)
Definition PublishMessage (p : publisher) (t : Z) (key msg : list byte)
    : publisher * error :=
  if t =? PeerStateChangeMsg then produceMessage p peerTopic key msg
  else if t =? UnicastPrefixMsg then produceMessage p unicastMessageTopic key msg
  else if t =? LSNodeMsg then produceMessage p lsNodeMessageTopic key msg
  else if t =? LSLinkMsg then produceMessage p lsLinkMessageTopic key msg
  else if t =? L3VPNMsg then produceMessage p l3vpnMessageTopic key msg
  else if t =? LSPrefixMsg then produceMessage p lsPrefixMessageTopic key msg
  else if t =? LSSRv6SIDMsg then produceMessage p lsSRv6SIDMessageTopic key msg
  else if t =? EVPNMsg then produceMessage p evpnMessageTopic key msg
  else (p, Some "not implemented"%string).

End Publish.

(** [close(p.stopCh); p.broker.Close()].  Closing a closed channel is a
    run-time panic; the error [Close] may return is dropped. *)
Definition Stop (p : publisher) : outcome publisher :=
  if stopCh_closed p then Panic "close of closed channel"
  else Ok (mkPublisher false (producer_input p) true).

Section Validator.

(** The resolver and the IP parser of package net.  [LookupIP host] is the
    pair [(ip, err)]: [fst] is [None] for a nil slice, [snd] is [None] for a
    nil error.  [ParseIP host] is [None] for nil. *)
Variable IP : Type.
Variable LookupIP : string -> option (list IP) * error.
Variable ParseIP : string -> option IP.

Definition is_nil {A : Type} (x : option A) : bool :=
  match x with None => true | Some _ => false end.

Definition validator (addr : string) : error :=
  let '(host, port, _) := net.SplitHostPort addr in
  if String.eqb host "" || String.eqb port "" then
    Some "host or port cannot be ''"%string
  else
    let '(ip, err) := LookupIP host in
    if (negb (is_nil err) || is_nil ip) && is_nil (ParseIP host) then
      Some "fail to parse host part of address"%string
    else
      match strconv.Atoi port with
      | None => Some "fail to parse port with error"%string
      | Some np =>
          if (np =? 0) || (np >? 65535) then Some "the value of port is invalid"%string
          else None
      end.

End Validator.

(** A resolver that knows the one name [localhost], and an IP parser that
    knows the one literal [::1]; addresses are kept as text. *)
Definition localhost_only (host : string) : option (list string) * error :=
  if String.eqb host "localhost" then (Some ["127.0.0.1"%string], None)
  else (None, Some "no such host"%string).

Definition loopback_literal (host : string) : option string :=
  if String.eqb host "::1" then Some host else None.

(** [sarama.KError] and the three values [ensureTopic] compares with. *)
Definition KError : Type := Z.
Definition ErrNoError : KError := 0.
Definition ErrRequestTimedOut : KError := 7.
Definition ErrTopicAlreadyExists : KError := 36.

(** What [br.CreateTopics(topic)] returns: a non-nil [err], or a response
    whose [TopicErrors] maps topic names to their error codes. *)
Inductive CreateTopicsResult : Type :=
| CallFailed (err : string)
| CreateTopicsResponse (TopicErrors : string -> option KError).

(** The case of the [select] that is taken: a receive from [ticker.C], the
    ticker of period 100 ms, or from [tout.C], the timer set to [timeout]. *)
Inductive selected : Type := tickerC | toutC.

(** One turn of the loop as the broker and the clock decide it: the result
    of the call, and the channel that delivers should the [select] be
    reached. *)
Record turn : Type := mkTurn { reply : CreateTopicsResult; fired : selected }.

(** The errors [ensureTopic] returns. *)
Inductive topic_error : Type :=
| call_error (err : string)               (* [return err] *)
| topic_err (e : KError)                  (* [return e] *)
| timeout_waiting (topicName : string).   (* ["timeout waiting for topic %s"] *)

(** [ensureTopic], over the turns the environment offers: the error
    returned ([None] for nil) and the turns left over.  The outer [None]
    means the function is still waiting when the offered turns end. *)
Fixpoint ensureTopic (topicName : string) (env : list turn)
    : option (option topic_error * list turn) :=
  match env with
  | [] => None
  | tn :: rest =>
      match reply tn with
      | CallFailed err => Some (Some (call_error err), rest)
      | CreateTopicsResponse TopicErrors =>
          let wait :=
            match fired tn with
            | tickerC => ensureTopic topicName rest
            | toutC => Some (Some (timeout_waiting topicName), rest)
            end in
          match TopicErrors topicName with
          | Some e =>
              if (e =? ErrTopicAlreadyExists) || (e =? ErrNoError) then
                Some (None, rest)
              else if negb (e =? ErrRequestTimedOut) then
                Some (Some (topic_err e), rest)
              else wait
          | None => wait
          end
      end
  end.

(** The loop of [NewKafkaPublisher] over the topics:
    [for _, t := range topicNames { if err := ensureTopic(...); err != nil { return nil, err } }]. *)
Fixpoint ensureTopics (topics : list string) (env : list turn)
    : option (option topic_error * list turn) :=
  match topics with
  | [] => Some (None, env)
  | t :: ts =>
      match ensureTopic t env with
      | Some (None, env') => ensureTopics ts env'
      | Some (Some err, env') => Some (Some err, env')
      | None => None
      end
  end.

(** What [br.Connected()] returns, [(ok, err)], and the case the [select]
    takes should it be reached. *)
Record poll : Type := mkPoll {
  connected : bool;
  conn_err : error;
  poll_fired : selected
}.

(** The errors [waitForBrokerConnection] returns. *)
Inductive connect_error : Type :=
| connected_err (err : string)          (* [return err] *)
| timeout_connecting (addr : string).   (* ["timeout waiting for the connection to the broker %s"] *)

(** [waitForBrokerConnection], over the polls the environment offers, for
    the broker at [addr]: the error returned ([None] for nil) and the polls
    left over; the outer [None] means it is still waiting when the polls
    end. *)
Fixpoint waitForBrokerConnection (addr : string) (polls : list poll)
    : option (option connect_error * list poll) :=
  match polls with
  | [] => None
  | pl :: rest =>
      if connected pl then Some (None, rest)
      else
        match conn_err pl with
        | Some err => Some (Some (connected_err err), rest)
        | None =>
            match poll_fired pl with
            | tickerC => waitForBrokerConnection addr rest
            | toutC => Some (Some (timeout_connecting addr), rest)
            end
        end
  end.

(** What [br.Open(config)] returns: nil, [sarama.ErrAlreadyConnected], or
    another error. *)
Inductive open_result : Type :=
| open_nil
| open_ErrAlreadyConnected
| open_err (err : string).

(** The broker side of a start: the result of [br.Open], the polls of
    [br.Connected], the turns of [br.CreateTopics], and the error of
    [sarama.NewAsyncProducer] ([None] for nil). *)
Record world : Type := mkWorld {
  br_open : open_result;
  polls : list poll;
  turns : list turn;
  new_producer : error
}.

(** The errors [NewKafkaPublisher] returns, by the step that fails. *)
Inductive startup_error : Type :=
| invalid_address (err : string)
| broker_open_failed (err : string)
| broker_not_connected (e : connect_error)
| topic_not_ensured (e : topic_error)
| producer_failed (err : string).

Section Startup.

Variable IP : Type.
Variable LookupIP : string -> option (list IP) * error.
Variable ParseIP : string -> option IP.

(** [NewKafkaPublisher]: the publisher, or the error; [None] while a wait
    has not ended within the polls or turns offered.  The goroutine it
    starts, which drains the producer's replies until [stopCh] is closed,
    is not part of the state. *)
Definition NewKafkaPublisher (kafkaSrv : string) (w : world)
    : option (publisher + startup_error) :=
  match validator IP LookupIP ParseIP kafkaSrv with
  | Some err => Some (inr (invalid_address err))
  | None =>
      match br_open w with
      | open_err err => Some (inr (broker_open_failed err))
      | open_nil | open_ErrAlreadyConnected =>
          match waitForBrokerConnection kafkaSrv (polls w) with
          | None => None
          | Some (Some e, _) => Some (inr (broker_not_connected e))
          | Some (None, _) =>
              match ensureTopics topicNames (turns w) with
              | None => None
              | Some (Some e, _) => Some (inr (topic_not_ensured e))
              | Some (None, _) =>
                  match new_producer w with
                  | Some err => Some (inr (producer_failed err))
                  | None => Some (inl (mkPublisher true [] false))
                  end
              end
          end
      end
  end.

End Startup.

(** A start that goes well: the broker is connected at the second poll,
    the first topic is acknowledged after one request timeout, the others at
    once. *)
Definition answer (e : KError) (f : selected) : turn :=
  mkTurn (CreateTopicsResponse (fun _ => Some e)) f.

Definition good_world : world :=
  mkWorld open_nil
    [ mkPoll false None tickerC; mkPoll true None tickerC ]
    ( answer ErrRequestTimedOut tickerC :: answer ErrNoError tickerC ::
      repeat (answer ErrTopicAlreadyExists tickerC) 7 )
    None.

(** How a return of [ensureTopic] and of [waitForBrokerConnection] reads
    in the turns and polls it took. *)

(** A turn after which [ensureTopic] calls [CreateTopics] again: the call
    returned a response with no entry for the topic or with a request
    timeout, and the ticker fired. *)
Definition retried (topicName : string) (tn : turn) : Prop :=
  (exists TopicErrors,
     reply tn = CreateTopicsResponse TopicErrors /\
     (TopicErrors topicName = None \/
      TopicErrors topicName = Some ErrRequestTimedOut)) /\
  fired tn = tickerC.

(** The turn on which [ensureTopic] returns [r]. *)
Definition ends (topicName : string) (tn : turn) (r : option topic_error) : Prop :=
  match r with
  | None =>
      exists TopicErrors,
        reply tn = CreateTopicsResponse TopicErrors /\
        (TopicErrors topicName = Some ErrTopicAlreadyExists \/
         TopicErrors topicName = Some ErrNoError)
  | Some (call_error err) => reply tn = CallFailed err
  | Some (topic_err e) =>
      exists TopicErrors,
        reply tn = CreateTopicsResponse TopicErrors /\
        TopicErrors topicName = Some e /\
        e <> ErrTopicAlreadyExists /\ e <> ErrNoError /\ e <> ErrRequestTimedOut
  | Some (timeout_waiting t) =>
      t = topicName /\ fired tn = toutC /\
      exists TopicErrors,
        reply tn = CreateTopicsResponse TopicErrors /\
        (TopicErrors topicName = None \/
         TopicErrors topicName = Some ErrRequestTimedOut)
  end.

(** A poll after which [waitForBrokerConnection] polls again. *)
Definition waiting (pl : poll) : Prop :=
  connected pl = false /\ conn_err pl = None /\ poll_fired pl = tickerC.

(** The poll on which [waitForBrokerConnection] returns [r]. *)
Definition settles (addr : string) (pl : poll) (r : option connect_error) : Prop :=
  match r with
  | None => connected pl = true
  | Some (connected_err err) => connected pl = false /\ conn_err pl = Some err
  | Some (timeout_connecting a) =>
      a = addr /\ connected pl = false /\ conn_err pl = None /\
      poll_fired pl = toutC
  end.

End kafka.

(** ** Topic provisioning on the clock *)

(** [ensureTopic] with its ticker and its timer.  The clock counts from the
    instant [ensureTopic] creates them.  The environment decides how long
    each [br.CreateTopics] takes and what it returns, and which case a
    [select] takes when both of its channels are ready; the clock decides
    the rest.  A goroutine that waits in a [select] runs again at the
    instant of the send it waits for.  The turns of [kafka.ensureTopic] are
    the turns of these runs with the case of each [select] read off the
    clock ([fired_turns], [on_turns]). *)

Module kafka_time.

(** [time.Duration]: a count of nanoseconds. *)
Definition Duration : Type := Z.
Definition Millisecond : Duration := 1000000.
Definition Second : Duration := 1000 * Millisecond.

(** [topicCreateTimeout = 1 * time.Second]. *)
Definition topicCreateTimeout : Duration := 1 * Second.

(** The period of the ticker of [ensureTopic],
    [time.NewTicker(100 * time.Millisecond)]. *)
Definition ticker_period : Duration := 100 * Millisecond.

(** The clock, the ticker and the timer.  [ticker.C] holds at most one
    tick, and [ticker_C] tells whether it holds one; the ticker sends next
    at [ticker_when]; [tout.C] holds the timer's value from [tout_when] on,
    as [ensureTopic] returns when it receives it. *)
Record timers : Type := mkTimers {
  now : Duration;
  ticker_C : bool;
  ticker_when : Duration;
  tout_when : Duration
}.

(** [ticker := time.NewTicker(100 * time.Millisecond)] and
    [tout := time.NewTimer(timeout)]. *)
Definition NewTimers (timeout : Duration) : timers :=
  mkTimers 0 false ticker_period timeout.

(** The clock moves on by [d] while the goroutine is busy.  The ticker
    sends once per period; a send that finds a tick in [ticker.C] is dropped
    (package time: the ticker drops ticks to make up for slow receivers).  So
    once the ticker has fallen due [ticker.C] holds a tick, and the next send
    is due at the first instant of the ticker's grid after the clock. *)
Definition elapse (d : Duration) (c : timers) : timers :=
  let now' := now c + Z.max 0 d in
  if ticker_when c <=? now' then
    mkTimers now' true
      (ticker_when c + ticker_period * (1 + (now' - ticker_when c) / ticker_period))
      (tout_when c)
  else mkTimers now' (ticker_C c) (ticker_when c) (tout_when c).

(** [select { case <-ticker.C: ... case <-tout.C: ... }]: the case taken,
    and the timers when it is taken.  When one channel can be received from
    it is; when both can, Go chooses one of them at random, and [pick] is
    that choice; when none can, the goroutine waits for the first of the two
    sends, and [pick] decides between two sends due at the same instant. *)
Definition select_ (pick : kafka.selected) (c : timers) : kafka.selected * timers :=
  let tick := mkTimers (now c) false (ticker_when c) (tout_when c) in
  let at_tick :=
    mkTimers (ticker_when c) false (ticker_when c + ticker_period) (tout_when c) in
  let at_tout := mkTimers (tout_when c) false (ticker_when c) (tout_when c) in
  if ticker_C c then
    if tout_when c <=? now c then
      match pick with
      | kafka.tickerC => (kafka.tickerC, tick)
      | kafka.toutC => (kafka.toutC, c)
      end
    else (kafka.tickerC, tick)
  else if tout_when c <=? now c then (kafka.toutC, c)
  else if ticker_when c <? tout_when c then (kafka.tickerC, at_tick)
  else if tout_when c <? ticker_when c then (kafka.toutC, at_tout)
  else
    match pick with
    | kafka.tickerC => (kafka.tickerC, at_tick)
    | kafka.toutC => (kafka.toutC, at_tout)
    end.

(** One turn of the loop as the environment decides it: what
    [br.CreateTopics] returns, how long the call takes, and the case Go
    takes should the [select] find both channels ready. *)
Record turn : Type := mkTurn {
  reply : kafka.CreateTopicsResult;
  took : Duration;
  pick : kafka.selected
}.

(** The loop of [ensureTopic]: the error returned ([None] for nil), the
    instant of the return and the turns left over; the outer [None] means
    the function is still in the loop when the offered turns end. *)
Fixpoint ensureTopic_loop (topicName : string) (c : timers) (env : list turn)
    : option (option kafka.topic_error * Duration * list turn) :=
  match env with
  | [] => None
  | tn :: rest =>
      let c1 := elapse (took tn) c in
      match reply tn with
      | kafka.CallFailed err => Some (Some (kafka.call_error err), now c1, rest)
      | kafka.CreateTopicsResponse TopicErrors =>
          let wait :=
            match select_ (pick tn) c1 with
            | (kafka.tickerC, c2) => ensureTopic_loop topicName c2 rest
            | (kafka.toutC, c2) =>
                Some (Some (kafka.timeout_waiting topicName), now c2, rest)
            end in
          match TopicErrors topicName with
          | Some e =>
              if (e =? kafka.ErrTopicAlreadyExists) || (e =? kafka.ErrNoError) then
                Some (None, now c1, rest)
              else if negb (e =? kafka.ErrRequestTimedOut) then
                Some (Some (kafka.topic_err e), now c1, rest)
              else wait
          | None => wait
          end
      end
  end.

(** [ensureTopic(br, timeout, topicName)]. *)
Definition ensureTopic (timeout : Duration) (topicName : string) (env : list turn)
    : option (option kafka.topic_error * Duration * list turn) :=
  ensureTopic_loop topicName (NewTimers timeout) env.

(** The loop of [NewKafkaPublisher] over the topics, each with timers of
    its own: [ensureTopic(br, topicCreateTimeout, t)]. *)
Fixpoint ensureTopics (topics : list string) (env : list turn)
    : option (option kafka.topic_error * list turn) :=
  match topics with
  | [] => Some (None, env)
  | t :: ts =>
      match ensureTopic topicCreateTimeout t env with
      | Some (None, _, env') => ensureTopics ts env'
      | Some (Some err, _, env') => Some (Some err, env')
      | None => None
      end
  end.

(** The broker side of a start, with the turns of [br.CreateTopics] on
    the clock. *)
Record world : Type := mkWorld {
  br_open : kafka.open_result;
  polls : list kafka.poll;
  turns : list turn;
  new_producer : kafka.error
}.

Section Startup.

Variable IP : Type.
Variable LookupIP : string -> option (list IP) * kafka.error.
Variable ParseIP : string -> option IP.

(** [NewKafkaPublisher], the topics provisioned on the clock. *)
Definition NewKafkaPublisher (kafkaSrv : string) (w : world)
    : option (kafka.publisher + kafka.startup_error) :=
  match kafka.validator IP LookupIP ParseIP kafkaSrv with
  | Some err => Some (inr (kafka.invalid_address err))
  | None =>
      match br_open w with
      | kafka.open_err err => Some (inr (kafka.broker_open_failed err))
      | kafka.open_nil | kafka.open_ErrAlreadyConnected =>
          match kafka.waitForBrokerConnection kafkaSrv (polls w) with
          | None => None
          | Some (Some e, _) => Some (inr (kafka.broker_not_connected e))
          | Some (None, _) =>
              match ensureTopics kafka.topicNames (turns w) with
              | None => None
              | Some (Some e, _) => Some (inr (kafka.topic_not_ensured e))
              | Some (None, _) =>
                  match new_producer w with
                  | Some err => Some (inr (kafka.producer_failed err))
                  | None => Some (inl (kafka.mkPublisher true [] false))
                  end
              end
          end
      end
  end.

End Startup.

(** The case each turn's [select] takes, as the clock decides it: the
    turns of [kafka.ensureTopic] for a run that starts with the timers at
    [c]. *)
Fixpoint fired_turns (c : timers) (env : list turn) : list kafka.turn :=
  match env with
  | [] => []
  | tn :: rest =>
      let '(f, c2) := select_ (pick tn) (elapse (took tn) c) in
      kafka.mkTurn (reply tn) f :: fired_turns c2 rest
  end.

(** The turns of [kafka.ensureTopics] for a run over [topics]: each topic
    has timers of its own, which decide the cases for the turns it takes. *)
Fixpoint fired_by_topic (topics : list string) (env : list turn) : list kafka.turn :=
  match topics with
  | [] => fired_turns (NewTimers topicCreateTimeout) env
  | t :: ts =>
      match ensureTopic topicCreateTimeout t env with
      | Some (_, _, rest) =>
          fired_turns (NewTimers topicCreateTimeout)
            (firstn (length env - length rest) env)
            ++ fired_by_topic ts rest
      | None => fired_turns (NewTimers topicCreateTimeout) env
      end
  end.

(** The world of [kafka.NewKafkaPublisher] that a world on the clock
    amounts to. *)
Definition on_turns (w : world) : kafka.world :=
  kafka.mkWorld (br_open w) (polls w)
    (fired_by_topic kafka.topicNames (turns w)) (new_producer w).

(** A turn in which the broker answers [e] for the topic. *)
Definition answers (topicName : string) (e : kafka.KError) (tn : turn) : Prop :=
  exists TopicErrors,
    reply tn = kafka.CreateTopicsResponse TopicErrors /\
    TopicErrors topicName = Some e.

(** A turn that sends the loop to its [select]: the response has a request
    timeout for the topic, or no entry for it. *)
Definition to_select (topicName : string) (tn : turn) : Prop :=
  exists TopicErrors,
    reply tn = kafka.CreateTopicsResponse TopicErrors /\
    (TopicErrors topicName = Some kafka.ErrRequestTimedOut \/
     TopicErrors topicName = None).

(** A broker that answers every topic with [e], after [d]. *)
Definition answer (e : kafka.KError) (d : Duration) (p : kafka.selected) : turn :=
  mkTurn (kafka.CreateTopicsResponse (fun _ => Some e)) d p.

End kafka_time.

(** ** Wire primitives used to run the route parser on concrete bytes *)

Module wire.

(** Modelled from the spec: [base.MakeRD] and [base.RD] are not among the
    sources.  The spec's DecodeRD takes 8 bytes, the first two being the type
    (0, 1 or 2) and the remaining six the value; it fails on short input and
    when the type is above 2. *)
Record RD : Type := mkRD { rd_type : Z; rd_value : list byte }.

Definition MakeRD (b : Slice.t) : outcome RD :=
  match Slice.elems b with
  | [t0; t1; v0; v1; v2; v3; v4; v5] =>
      let ty := 256 * uint8 t0 + uint8 t1 in
      if ty >? 2 then Err "ErrInvalidField"
      else Ok (mkRD ty [v0; v1; v2; v3; v4; v5])
  | _ => Err "ErrTruncated"
  end.

(** Modelled from the spec: [MakeESI] and [ESI] are not among the sources.
    The spec's DecodeESI takes 10 bytes, one type byte and nine value bytes
    that are stored raw. *)
Record ESI : Type := mkESI { esi_type : Z; esi_value : list byte }.

Definition MakeESI (b : Slice.t) : outcome ESI :=
  match Slice.elems b with
  | ty :: v => if length v =? 9 then Ok (mkESI (uint8 ty) v) else Err "ErrTruncated"
  | [] => Err "ErrTruncated"
  end%nat.

(** Modelled from the spec: [MakeMACAddress] and [MACAddress] are not among
    the sources.  The spec's DecodeMACAddress takes 6 bytes. *)
Definition MACAddress : Type := list byte.

Definition MakeMACAddress (b : Slice.t) : outcome MACAddress :=
  if (length (Slice.elems b) =? 6)%nat then Ok (Slice.elems b)
  else Err "ErrTruncated".

(** Modelled from the spec: [base.MakeLabel] and [base.Label] are not among
    the sources.  The spec's DecodeLabel reads 3 bytes and returns the 20-bit
    label, the 3 experimental bits and the bottom-of-stack bit; it fails on
    short input. *)
Record Label : Type := mkLabel { label_value : Z; label_exp : Z; label_bos : bool }.

Definition MakeLabel (b : Slice.t) : outcome Label :=
  match Slice.elems b with
  | b0 :: b1 :: b2 :: _ =>
      let w := Z.lor (Z.shiftl (uint8 b0) 16) (Z.lor (Z.shiftl (uint8 b1) 8) (uint8 b2)) in
      Ok (mkLabel (Z.shiftr w 4) (Z.land (Z.shiftr w 1) 7) (Z.testbit w 0))
  | _ => Err "ErrTruncated"
  end.

Definition UnmarshalEVPNMACIPAdvertisement : Slice.t ->
    option (outcome (evpn.MACIPAdvertisement RD ESI MACAddress Label)) :=
  evpn.UnmarshalEVPNMACIPAdvertisement RD ESI MACAddress Label
    MakeRD MakeESI MakeMACAddress MakeLabel.

(** Bytes written as numbers. *)
Definition bytes (l : list Z) : list byte :=
  map (fun z => match Byte.of_N (Z.to_N z) with Some x => x | None => x00 end) l.

(** The MAC/IP Advertisement of the spec's scenario 4, with Ethernet Tag 7:
    RD 0:100:1, ESI of 10 zero bytes, Ethernet Tag 00 00 00 07, MAC
    aa:bb:cc:dd:ee:ff (48 bits), IP 10.0.0.5 (32 bits), label 10 with the
    bottom-of-stack bit. *)
Definition mac_ip_body : list byte :=
  bytes [ 0; 0; 0; 100; 0; 0; 0; 1;
          0; 0; 0; 0; 0; 0; 0; 0; 0; 0;
          0; 0; 0; 7;
          48; 170; 187; 204; 221; 238; 255;
          32; 10; 0; 0; 5;
          0; 0; 161 ].

(** What the parser returns on [mac_ip_body]. *)
Definition mac_ip_route : evpn.MACIPAdvertisement RD ESI MACAddress Label :=
  evpn.mkMACIPAdvertisement RD ESI MACAddress Label
    (Some (mkRD 0 (bytes [0; 100; 0; 0; 0; 1])))
    (Some (mkESI 0 (bytes [0; 0; 0; 0; 0; 0; 0; 0; 0])))
    []
    48 (Some (bytes [170; 187; 204; 221; 238; 255]))
    32 (bytes [10; 0; 0; 5])
    [ mkLabel 10 0 true ].

End wire.

(** ** The wire format of a run of TLVs, in the spec's words

    A TLV on the wire is a big-endian 16-bit type, a big-endian 16-bit
    length and exactly [length] value bytes; a run of TLVs is their
    concatenation. *)

Module tlv_wire.

Definition be16 (hi lo : byte) : Z := 256 * uint8 hi + uint8 lo.

Inductive wire_tlvs : list byte -> list base.LinkDescriptorTLV -> Prop :=
| wire_nil : wire_tlvs [] []
| wire_cons (t0 t1 l0 l1 : byte) (v rest : list byte) tlvs :
    Z.of_nat (length v) = be16 l0 l1 ->
    wire_tlvs rest tlvs ->
    wire_tlvs (t0 :: t1 :: l0 :: l1 :: v ++ rest)
      (base.mkLinkDescriptorTLV (be16 t0 t1) (be16 l0 l1) v :: tlvs).

(** [sum(4 + length)] over the TLVs. *)
Definition total_size (tlvs : list base.LinkDescriptorTLV) : Z :=
  fold_right (fun tlv n => 4 + base.Length tlv + n) 0 tlvs.

(** A truncated run: fewer than 4 bytes remain for a header, or a declared
    length exceeds the bytes that remain after its header. *)
Inductive malformed : list byte -> Prop :=
| short_header (l : list byte) :
    (0 < length l < 4)%nat -> malformed l
| short_value (t0 t1 l0 l1 : byte) (rest : list byte) :
    Z.of_nat (length rest) < be16 l0 l1 ->
    malformed (t0 :: t1 :: l0 :: l1 :: rest)
| malformed_later (t0 t1 l0 l1 : byte) (v rest : list byte) :
    Z.of_nat (length v) = be16 l0 l1 ->
    malformed rest ->
    malformed (t0 :: t1 :: l0 :: l1 :: v ++ rest).

End tlv_wire.

(** * Properties *)

(** ** Slices and integers *)

Lemma uint8_range (x : byte) : 0 <= uint8 x < 256.
Proof.
  unfold uint8. pose proof (Byte.to_N_bounded x) as H. lia.
Qed.

Lemma be16_range (hi lo : byte) : 0 <= tlv_wire.be16 hi lo < 65536.
Proof.
  unfold tlv_wire.be16.
  pose proof (uint8_range hi). pose proof (uint8_range lo). lia.
Qed.

(** The [|] and [<<] of [Uint16] add up to the big-endian number. *)
Lemma lor_shiftl_8 (hi lo : Z) :
  0 <= hi -> 0 <= lo < 256 -> Z.lor lo (Z.shiftl hi 8) = 256 * hi + lo.
Proof.
  intros Hhi Hlo.
  rewrite Z.shiftl_mul_pow2 by lia.
  change (2 ^ 8) with 256.
  rewrite <- Z.lxor_lor.
  - rewrite <- Z.add_nocarry_lxor; [lia|].
    apply Z.bits_inj'. intros n Hn.
    rewrite Z.land_spec, Z.bits_0.
    destruct (Z.ltb_spec n 8).
    + replace (hi * 256) with (hi * 2 ^ 8) by reflexivity.
      rewrite Z.mul_pow2_bits_low by lia. apply andb_false_r.
    + replace (Z.testbit lo n) with false; [reflexivity|].
      symmetry. apply Z.bits_above_log2; [lia|].
      destruct (Z.eq_dec lo 0) as [->|]; [simpl; lia|].
      apply Z.log2_lt_pow2; [lia|].
      apply Z.lt_le_trans with (2 ^ 8); [simpl; lia|].
      apply Z.pow_le_mono_r; lia.
  - apply Z.bits_inj'. intros n Hn.
    rewrite Z.land_spec, Z.bits_0.
    destruct (Z.ltb_spec n 8).
    + replace (hi * 256) with (hi * 2 ^ 8) by reflexivity.
      rewrite Z.mul_pow2_bits_low by lia. apply andb_false_r.
    + replace (Z.testbit lo n) with false; [reflexivity|].
      symmetry. apply Z.bits_above_log2; [lia|].
      destruct (Z.eq_dec lo 0) as [->|]; [simpl; lia|].
      apply Z.log2_lt_pow2; [lia|].
      apply Z.lt_le_trans with (2 ^ 8); [simpl; lia|].
      apply Z.pow_le_mono_r; lia.
Qed.

Lemma Uint16_pair (x0 x1 : byte) (sp : list byte) :
  Uint16 (Slice.mk [x0; x1] sp) = Ok (tlv_wire.be16 x0 x1).
Proof.
  unfold Uint16, Slice.index, Slice.len; simpl.
  unfold tlv_wire.be16. f_equal.
  apply lor_shiftl_8; pose proof (uint8_range x0); pose proof (uint8_range x1); lia.
Qed.

Lemma cap_backing (b : Slice.t) : Slice.cap b = Z.of_nat (length (Slice.backing b)).
Proof. reflexivity. Qed.

Lemma len_le_cap (b : Slice.t) : Slice.len b <= Slice.cap b.
Proof.
  unfold Slice.len, Slice.cap, Slice.backing. rewrite length_app. lia.
Qed.

(** A slice expression within the capacity yields the bytes of the backing
    array between its bounds. *)
Lemma sub_in_range (b : Slice.t) (lo hi : Z) :
  0 <= lo <= hi -> hi <= Slice.cap b ->
  Slice.sub b lo hi =
    Ok (Slice.mk (firstn (Z.to_nat (hi - lo)) (skipn (Z.to_nat lo) (Slice.backing b)))
                 (skipn (Z.to_nat (hi - lo)) (skipn (Z.to_nat lo) (Slice.backing b)))).
Proof.
  intros H1 H2. unfold Slice.sub.
  replace (0 <=? lo) with true by (symmetry; apply Z.leb_le; lia).
  replace (lo <=? hi) with true by (symmetry; apply Z.leb_le; lia).
  replace (hi <=? Slice.cap b) with true by (symmetry; apply Z.leb_le; lia).
  reflexivity.
Qed.

Lemma sub_out_of_range (b : Slice.t) (lo hi : Z) :
  Slice.cap b < hi -> Slice.sub b lo hi = Panic Slice.out_of_range.
Proof.
  intros H. unfold Slice.sub.
  replace (hi <=? Slice.cap b) with false by (symmetry; apply Z.leb_gt; lia).
  rewrite andb_false_r. reflexivity.
Qed.

(** ** The TLV walker *)

Section TlvBody.

Variable b : Slice.t.
Variable p : Z.
Hypothesis p_nonneg : 0 <= p.

Let rest := skipn (Z.to_nat p) (Slice.backing b).

Lemma rest_length : Z.of_nat (length rest) = Z.max 0 (Slice.cap b - p).
Proof.
  unfold rest. rewrite length_skipn, cap_backing. lia.
Qed.

(** Fewer than 4 bytes of backing array from [p] on: one of the two header
    slice expressions is out of range. *)
Lemma tlv_body_short_header :
  (length rest < 4)%nat -> base.tlv_body b p = Panic Slice.out_of_range.
Proof.
  intros Hlen. pose proof rest_length as HL.
  unfold base.tlv_body.
  destruct (Z_le_gt_dec (p + 2) (Slice.cap b)) as [Hc|Hc].
  - rewrite (sub_in_range b p (p + 2)) by lia.
    replace (p + 2 - p) with 2 by lia.
    fold rest.
    destruct rest as [|x0 [|x1 tl]] eqn:E; simpl in HL; try lia.
    simpl firstn. simpl skipn. cbn [bind]. rewrite Uint16_pair. cbn [bind].
    rewrite sub_out_of_range; [reflexivity|].
    simpl length in Hlen. lia.
  - rewrite sub_out_of_range by lia. reflexivity.
Qed.

Lemma skipn_rest (k : nat) :
  skipn (Z.to_nat (p + Z.of_nat k)) (Slice.backing b) = skipn k rest.
Proof.
  unfold rest. rewrite skipn_skipn. f_equal. lia.
Qed.

(** The header is there: the outcome turns on the declared length. *)
Lemma tlv_body_header (t0 t1 l0 l1 : byte) (tail : list byte) :
  rest = t0 :: t1 :: l0 :: l1 :: tail ->
  base.tlv_body b p =
    if tlv_wire.be16 l0 l1 <=? Z.of_nat (length tail) then
      Ok (base.mkLinkDescriptorTLV (tlv_wire.be16 t0 t1) (tlv_wire.be16 l0 l1)
            (firstn (Z.to_nat (tlv_wire.be16 l0 l1)) tail),
          p + 2 + 2 + tlv_wire.be16 l0 l1)
    else Panic Slice.out_of_range.
Proof.
  intros E. pose proof rest_length as HL. rewrite E in HL. simpl length in HL.
  pose proof (be16_range l0 l1) as HR.
  unfold base.tlv_body.
  rewrite (sub_in_range b p (p + 2)) by lia.
  replace (p + 2 - p) with 2 by lia. fold rest. rewrite E.
  simpl firstn. simpl skipn. cbn [bind]. rewrite Uint16_pair. cbn [bind].
  rewrite (sub_in_range b (p + 2) (p + 2 + 2)) by lia.
  replace (p + 2 + 2 - (p + 2)) with 2 by lia.
  change (p + 2) with (p + Z.of_nat 2) at 1 2. rewrite skipn_rest, E.
  simpl firstn. simpl skipn. cbn [bind]. rewrite Uint16_pair. cbn [bind].
  destruct (Z.leb_spec (tlv_wire.be16 l0 l1) (Z.of_nat (length tail))) as [Hle|Hgt].
  - rewrite sub_in_range by lia.
    replace (p + 2 + 2 + tlv_wire.be16 l0 l1 - (p + 2 + 2)) with (tlv_wire.be16 l0 l1) by lia.
    replace (p + 2 + 2) with (p + Z.of_nat 4) at 1 2 by lia.
    rewrite skipn_rest, E. simpl skipn. cbn [bind Slice.elems].
    do 2 f_equal. f_equal.
    unfold Slice.copy, Slice.make.
    rewrite repeat_length, length_firstn.
    replace (Nat.min (Z.to_nat (tlv_wire.be16 l0 l1))
               (Nat.min (Z.to_nat (tlv_wire.be16 l0 l1)) (length tail)))
      with (Z.to_nat (tlv_wire.be16 l0 l1)) by lia.
    rewrite firstn_firstn, Nat.min_id.
    rewrite skipn_all2 by (rewrite repeat_length; lia).
    apply app_nil_r.
  - rewrite sub_out_of_range by lia. reflexivity.
Qed.

End TlvBody.

Lemma total_size_nonneg (tlvs : list base.LinkDescriptorTLV) :
  Forall (fun tlv => 0 <= base.Length tlv) tlvs -> 0 <= tlv_wire.total_size tlvs.
Proof.
  induction 1 as [|tlv tlvs H _ IH].
  - unfold tlv_wire.total_size; simpl; lia.
  - change (tlv_wire.total_size (tlv :: tlvs))
      with (4 + base.Length tlv + tlv_wire.total_size tlvs).
    lia.
Qed.

Lemma wire_tlvs_lengths (l : list byte) tlvs :
  tlv_wire.wire_tlvs l tlvs ->
  Forall (fun tlv => 0 <= base.Length tlv) tlvs /\
  tlv_wire.total_size tlvs = Z.of_nat (length l).
Proof.
  induction 1 as [|t0 t1 l0 l1 v rest tlvs Hv _ [IH1 IH2]].
  - split; [constructor | reflexivity].
  - pose proof (be16_range l0 l1) as HR. split.
    + constructor; [cbn [base.Length]; lia | exact IH1].
    + change (tlv_wire.total_size (?[x] :: tlvs))
        with (4 + tlv_wire.be16 l0 l1 + tlv_wire.total_size tlvs).
      rewrite IH2. cbn [length]. rewrite length_app. lia.
Qed.

Lemma firstn_add_split {A : Type} (n m : nat) (l : list A) :
  firstn (n + m) l = firstn n l ++ firstn m (skipn n l).
Proof.
  revert l. induction n as [|n IH]; intros [|x l]; simpl;
    try reflexivity.
  - now rewrite firstn_nil.
  - now rewrite IH.
Qed.

(** What a successful run of the loop from offset [p] has read: the TLVs
    laid out back to back in the backing array from [p] on, up to an offset
    that is at or past the length and within the capacity. *)
Lemma tlv_loop_sound (fuel : nat) (b : Slice.t) :
  forall (p : Z) (acc tlvs : list base.LinkDescriptorTLV),
    0 <= p <= Slice.cap b ->
    base.tlv_loop fuel b p acc = Some (Ok tlvs) ->
    exists new,
      tlvs = acc ++ new /\
      Slice.len b <= p + tlv_wire.total_size new /\
      p + tlv_wire.total_size new <= Slice.cap b /\
      tlv_wire.wire_tlvs
        (firstn (Z.to_nat (tlv_wire.total_size new))
           (skipn (Z.to_nat p) (Slice.backing b))) new.
Proof.
  induction fuel as [|fuel IH]; intros p acc tlvs Hp H; simpl in H; [discriminate|].
  destruct (Z.ltb_spec p (Slice.len b)) as [Hlt|Hge].
  - destruct (skipn (Z.to_nat p) (Slice.backing b))
      as [|t0 [|t1 [|l0 [|l1 tail]]]] eqn:E;
      try (rewrite tlv_body_short_header in H by (try rewrite E; simpl; lia);
           discriminate).
    rewrite (tlv_body_header b p (proj1 Hp) t0 t1 l0 l1 tail E) in H.
    pose proof (be16_range l0 l1) as HR.
    pose proof (rest_length b p (proj1 Hp)) as HL. rewrite E in HL.
    simpl length in HL.
    destruct (Z.leb_spec (tlv_wire.be16 l0 l1) (Z.of_nat (length tail))) as [Hle|Hgt];
      [|discriminate].
    apply IH in H; [|lia].
    destruct H as (new & -> & H1 & H2 & H3).
    pose proof (wire_tlvs_lengths _ _ H3) as [Hnn _].
    pose proof (total_size_nonneg _ Hnn) as Hts.
    eexists (_ :: new). split; [rewrite <- app_assoc; reflexivity|].
    cbn [tlv_wire.total_size fold_right base.Length].
    fold (tlv_wire.total_size new).
    split; [lia|]. split; [lia|].
    replace (Z.to_nat (4 + tlv_wire.be16 l0 l1 + tlv_wire.total_size new))
      with (4 + (Z.to_nat (tlv_wire.be16 l0 l1)
                 + Z.to_nat (tlv_wire.total_size new)))%nat by lia.
    cbn [firstn Nat.add]. rewrite firstn_add_split.
    constructor.
    + rewrite length_firstn. lia.
    + replace (p + 2 + 2 + tlv_wire.be16 l0 l1)
        with (p + Z.of_nat (4 + Z.to_nat (tlv_wire.be16 l0 l1))) in H3 by lia.
      rewrite skipn_rest, E in H3 by lia. exact H3.
  - injection H as <-. exists []. rewrite app_nil_r. simpl.
    split; [reflexivity|]. split; [lia|]. split; [lia|]. constructor.
Qed.

(** The loop never runs out of turns: each one moves [p] at least 4 bytes
    towards [len(b)]. *)
Lemma tlv_loop_returns (fuel : nat) (b : Slice.t) :
  forall (p : Z) (acc : list base.LinkDescriptorTLV),
    0 <= p -> (0 < fuel)%nat -> Slice.len b - p < Z.of_nat fuel ->
    exists r, base.tlv_loop fuel b p acc = Some r.
Proof.
  induction fuel as [|fuel IH]; intros p acc Hp Hpos Hf.
  - lia.
  - simpl. destruct (Z.ltb_spec p (Slice.len b)) as [Hlt|Hge]; [|eauto].
    destruct (skipn (Z.to_nat p) (Slice.backing b))
      as [|t0 [|t1 [|l0 [|l1 tail]]]] eqn:E;
      try (rewrite tlv_body_short_header by (try rewrite E; simpl; lia); eauto).
    rewrite (tlv_body_header b p Hp t0 t1 l0 l1 tail E).
    pose proof (be16_range l0 l1) as HR.
    destruct (tlv_wire.be16 l0 l1 <=? Z.of_nat (length tail)); [|eauto].
    apply IH; lia.
Qed.

Lemma backing_full (b : Slice.t) :
  Slice.cap b = Slice.len b -> Slice.backing b = Slice.elems b.
Proof.
  unfold Slice.cap, Slice.len, Slice.backing. rewrite length_app. intros H.
  destruct (Slice.spare b); [apply app_nil_r | simpl in H; lia].
Qed.

(** On a slice that owns its backing array, a truncated run of TLVs makes
    the loop panic, at the header or the value that is cut short. *)
Lemma tlv_loop_malformed (l : list byte) :
  tlv_wire.malformed l ->
  forall (fuel : nat) (b : Slice.t) (p : Z) (acc : list base.LinkDescriptorTLV),
    0 <= p -> Slice.cap b = Slice.len b ->
    skipn (Z.to_nat p) (Slice.elems b) = l ->
    (length l < fuel)%nat ->
    base.tlv_loop fuel b p acc = Some (Panic Slice.out_of_range).
Proof.
  induction 1 as [l Hl | t0 t1 l0 l1 rest Hv | t0 t1 l0 l1 v rest Hv _ IH];
    intros fuel b p acc Hp Hcap E Hfuel;
    (destruct fuel as [|fuel]; [lia|]);
    pose proof (f_equal (@length byte) E) as HE;
    rewrite length_skipn in HE; simpl length in HE;
    rewrite <- (backing_full b Hcap) in E;
    cbn [base.tlv_loop];
    (replace (p <? Slice.len b) with true
       by (symmetry; apply Z.ltb_lt; unfold Slice.len; lia)).
  - rewrite tlv_body_short_header by (try rewrite E; lia). reflexivity.
  - rewrite (tlv_body_header b p Hp t0 t1 l0 l1 rest E).
    replace (tlv_wire.be16 l0 l1 <=? Z.of_nat (length rest)) with false
      by (symmetry; apply Z.leb_gt; lia).
    reflexivity.
  - rewrite (tlv_body_header b p Hp t0 t1 l0 l1 (v ++ rest) E).
    rewrite length_app in *.
    replace (tlv_wire.be16 l0 l1 <=? Z.of_nat (length v + length rest)) with true
      by (symmetry; apply Z.leb_le; lia).
    cbn [length] in Hfuel. rewrite length_app in Hfuel.
    apply IH; try lia.
    rewrite <- (backing_full b Hcap).
    replace (p + 2 + 2 + tlv_wire.be16 l0 l1)
      with (p + Z.of_nat (4 + length v)) by lia.
    rewrite skipn_rest, E by lia. cbn [skipn Nat.add].
    rewrite skipn_app, skipn_all, Nat.sub_diag. reflexivity.
Qed.

Lemma wire_tlvs_values (l : list byte) tlvs :
  tlv_wire.wire_tlvs l tlvs ->
  Forall (fun tlv => Z.of_nat (length (base.Value tlv)) = base.Length tlv) tlvs.
Proof.
  induction 1; constructor; assumption.
Qed.

(** The walker always returns or panics within its bound on turns. *)
Lemma UnmarshalLinkDescriptorTLV_returns (b : Slice.t) :
  exists r, base.UnmarshalLinkDescriptorTLV b = Some r.
Proof.
  unfold base.UnmarshalLinkDescriptorTLV.
  apply tlv_loop_returns; unfold Slice.len; lia.
Qed.

(** On any slice, a successful walk has read TLVs laid out back to back
    from the start of the backing array, ending at or past the length. *)
Lemma UnmarshalLinkDescriptorTLV_reads (b : Slice.t) tlvs :
  base.UnmarshalLinkDescriptorTLV b = Some (Ok tlvs) ->
  tlv_wire.wire_tlvs
    (firstn (Z.to_nat (tlv_wire.total_size tlvs)) (Slice.backing b)) tlvs /\
  Slice.len b <= tlv_wire.total_size tlvs <= Slice.cap b.
Proof.
  intros H. apply tlv_loop_sound in H.
  - destruct H as (new & E & H1 & H2 & H3). simpl in E. subst new.
    split; [exact H3 | lia].
  - pose proof (len_le_cap b). unfold Slice.len in *. lia.
Qed.

(** The walker has no error return: it succeeds or panics. *)
Lemma tlv_loop_never_errs (fuel : nat) (b : Slice.t) :
  forall (p : Z) (acc : list base.LinkDescriptorTLV) (e : string),
    0 <= p -> base.tlv_loop fuel b p acc <> Some (Err e).
Proof.
  induction fuel as [|fuel IH]; intros p acc e Hp; simpl; [discriminate|].
  destruct (p <? Slice.len b); [|discriminate].
  destruct (skipn (Z.to_nat p) (Slice.backing b))
    as [|t0 [|t1 [|l0 [|l1 tail]]]] eqn:E;
    try (rewrite tlv_body_short_header by (try rewrite E; simpl; lia);
         discriminate).
  rewrite (tlv_body_header b p Hp t0 t1 l0 l1 tail E).
  pose proof (be16_range l0 l1).
  destruct (tlv_wire.be16 l0 l1 <=? Z.of_nat (length tail)); [|discriminate].
  apply IH; lia.
Qed.

(** C1 (as amended).  On every input slice whose capacity equals its length
    and on which the walker succeeds, the returned TLVs are exactly the TLVs
    of the input bytes, one per wire TLV with its wire type, its wire length
    and exactly [length] value bytes, whatever the type; and the sum of
    [4 + length] over them is the input length. *)
Theorem UnmarshalLinkDescriptorTLV_consumes_input (b : Slice.t)
    (tlvs : list base.LinkDescriptorTLV) :
  Slice.cap b = Slice.len b ->
  base.UnmarshalLinkDescriptorTLV b = Some (Ok tlvs) ->
  tlv_wire.wire_tlvs (Slice.elems b) tlvs /\
  Forall (fun tlv => Z.of_nat (length (base.Value tlv)) = base.Length tlv) tlvs /\
  tlv_wire.total_size tlvs = Slice.len b.
Proof.
  intros Hcap H.
  apply UnmarshalLinkDescriptorTLV_reads in H. destruct H as [Hw Hsz].
  assert (Hts : tlv_wire.total_size tlvs = Slice.len b) by lia.
  rewrite Hts, (backing_full b Hcap) in Hw.
  unfold Slice.len in Hw. rewrite Nat2Z.id, firstn_all in Hw.
  split; [exact Hw|]. split; [|exact Hts].
  exact (wire_tlvs_values _ _ Hw).
Qed.

Lemma UnmarshalLinkDescriptorTLV_consumes_input_witness :
  let b := Slice.of_list (wire.bytes [1; 2; 0; 3; 7; 8; 9; 1; 3; 0; 0]) in
  let tlvs := [ base.mkLinkDescriptorTLV 258 3 (wire.bytes [7; 8; 9]);
                base.mkLinkDescriptorTLV 259 0 [] ] in
  tlv_wire.wire_tlvs (Slice.elems b) tlvs /\
  Forall (fun tlv => Z.of_nat (length (base.Value tlv)) = base.Length tlv) tlvs /\
  tlv_wire.total_size tlvs = Slice.len b.
Proof.
  apply UnmarshalLinkDescriptorTLV_consumes_input; reflexivity.
Defined.

(** C1, counterexample.  A slice of length 3 whose backing array goes on
    for 4 more bytes: the slice expressions of the walker are checked
    against the capacity, so it succeeds, returns a TLV whose length and
    value lie outside the input, and [4 + length] is 5, not 3. *)
Lemma UnmarshalLinkDescriptorTLV_reads_past_length :
  let b := Slice.mk (wire.bytes [1; 2; 0]) (wire.bytes [1; 7; 8; 9]) in
  let tlvs := [ base.mkLinkDescriptorTLV 258 1 (wire.bytes [7]) ] in
  base.UnmarshalLinkDescriptorTLV b = Some (Ok tlvs) /\
  tlv_wire.total_size tlvs = 5 /\ Slice.len b = 3.
Proof.
  repeat split.
Qed.

(** C2 (as amended).  The walker has no error result.  On every input slice
    whose capacity equals its length and in which fewer than 4 bytes remain
    for a TLV header, or a TLV's declared length exceeds the remaining
    buffer, the walk panics with an out-of-range slice expression. *)
Theorem UnmarshalLinkDescriptorTLV_truncated_panics (b : Slice.t) :
  Slice.cap b = Slice.len b ->
  tlv_wire.malformed (Slice.elems b) ->
  base.UnmarshalLinkDescriptorTLV b = Some (Panic Slice.out_of_range) /\
  forall (b' : Slice.t) (e : string),
    base.UnmarshalLinkDescriptorTLV b' <> Some (Err e).
Proof.
  intros Hcap Hm. split.
  - apply (tlv_loop_malformed _ Hm); try lia. reflexivity.
  - intros b' e. apply tlv_loop_never_errs. lia.
Qed.

Lemma UnmarshalLinkDescriptorTLV_truncated_panics_witness :
  let b := Slice.of_list (wire.bytes [1; 2; 0; 100; 1; 2; 3; 4; 5; 6; 7; 8; 9; 10]) in
  base.UnmarshalLinkDescriptorTLV b = Some (Panic Slice.out_of_range) /\
  forall (b' : Slice.t) (e : string),
    base.UnmarshalLinkDescriptorTLV b' <> Some (Err e).
Proof.
  apply UnmarshalLinkDescriptorTLV_truncated_panics.
  - reflexivity.
  - apply tlv_wire.short_value. vm_compute. reflexivity.
Defined.

(** C2, counterexample.  One byte is fewer than a TLV header, and a declared
    length of 100 exceeds the 10 bytes that remain: on both inputs the walk
    does not return an error, it panics. *)
Lemma UnmarshalLinkDescriptorTLV_no_decode_error :
  base.UnmarshalLinkDescriptorTLV (Slice.of_list (wire.bytes [1]))
    = Some (Panic Slice.out_of_range) /\
  base.UnmarshalLinkDescriptorTLV
    (Slice.of_list (wire.bytes [1; 2; 0; 100; 1; 2; 3; 4; 5; 6; 7; 8; 9; 10]))
    = Some (Panic Slice.out_of_range).
Proof.
  split; reflexivity.
Qed.

(** ** Node flags *)

Lemma node_flags_skip (pre rest : list bgpls.TLV) :
  (forall t, In t pre -> bgpls.Type_ t <> 1024) ->
  bgpls.node_flags (pre ++ rest) = bgpls.node_flags rest.
Proof.
  induction pre as [|t pre IH]; intros Hpre; [reflexivity|].
  cbn [app bgpls.node_flags].
  destruct (Z.eqb_spec (bgpls.Type_ t) 1024) as [E|_].
  - exfalso. exact (Hpre t (or_introl eq_refl) E).
  - cbn [negb]. apply IH. intros t' Ht'. apply Hpre. now right.
Qed.

(** A first type-1024 TLV with no value byte makes [GetNodeFlags] panic:
    [tlv.Value[0]] is out of range. *)
Lemma GetNodeFlags_empty_value (pre post : list bgpls.TLV) (tlv : bgpls.TLV) :
  (forall t, In t pre -> bgpls.Type_ t <> 1024) ->
  bgpls.Type_ tlv = 1024 -> bgpls.Value tlv = [] ->
  bgpls.GetNodeFlags (bgpls.mkNLRI (pre ++ tlv :: post))
    = Panic Slice.index_out_of_range.
Proof.
  intros Hpre Hty Hv. unfold bgpls.GetNodeFlags. cbn [bgpls.LS].
  rewrite node_flags_skip by assumption.
  cbn [bgpls.node_flags]. rewrite Hty, Hv. reflexivity.
Qed.

(** C9.  [GetNodeFlags] returns 0 when no TLV of the NLRI has type 1024;
    otherwise it returns the first byte of the value of the first TLV of type
    1024, provided that value is not empty, whatever TLVs come before it
    (of other types) and after it (of any type). *)
Theorem GetNodeFlags_first_1024 (pre post : list bgpls.TLV) (n : Z)
    (x : byte) (v : list byte) :
  (forall t, In t pre -> bgpls.Type_ t <> 1024) ->
  bgpls.GetNodeFlags (bgpls.mkNLRI pre) = Ok 0 /\
  bgpls.GetNodeFlags (bgpls.mkNLRI (pre ++ bgpls.mkTLV 1024 n (x :: v) :: post))
    = Ok (uint8 x).
Proof.
  intros Hpre. unfold bgpls.GetNodeFlags. cbn [bgpls.LS]. split.
  - rewrite <- (app_nil_r pre). now rewrite node_flags_skip.
  - rewrite node_flags_skip by assumption. reflexivity.
Qed.

Lemma GetNodeFlags_first_1024_witness :
  let pre := [ bgpls.mkTLV 1026 2 (wire.bytes [9; 9]) ] in
  let post := [ bgpls.mkTLV 1024 1 (wire.bytes [64]); bgpls.mkTLV 1028 0 [] ] in
  bgpls.GetNodeFlags (bgpls.mkNLRI pre) = Ok 0 /\
  bgpls.GetNodeFlags
    (bgpls.mkNLRI (pre ++ bgpls.mkTLV 1024 1 (wire.bytes [128]) :: post))
    = Ok 128.
Proof.
  intros pre post.
  apply (GetNodeFlags_first_1024 pre post 1 (Byte.x80) []).
  intros t [<-|[]]. simpl. lia.
Defined.

(** ** The MAC/IP Advertisement parser *)

Lemma sub_ok_inv (b s : Slice.t) (lo hi : Z) :
  Slice.sub b lo hi = Ok s ->
  0 <= lo <= hi /\ hi <= Slice.cap b /\
  Slice.elems s = firstn (Z.to_nat (hi - lo)) (skipn (Z.to_nat lo) (Slice.backing b)).
Proof.
  unfold Slice.sub.
  destruct (Z.leb_spec 0 lo), (Z.leb_spec lo hi), (Z.leb_spec hi (Slice.cap b));
    cbn [andb]; try discriminate.
  intros [= <-]. cbn [Slice.elems]. repeat split; lia.
Qed.

Lemma sub_not_err (b : Slice.t) (lo hi : Z) (e : string) :
  Slice.sub b lo hi <> Err e.
Proof.
  unfold Slice.sub. destruct (_ && _); discriminate.
Qed.

Lemma index_ok_inv (b : Slice.t) (i : Z) (x : byte) :
  Slice.index b i = Ok x ->
  0 <= i < Slice.len b /\ nth_error (Slice.elems b) (Z.to_nat i) = Some x.
Proof.
  unfold Slice.index.
  destruct (Z.leb_spec 0 i), (Z.ltb_spec i (Slice.len b));
    cbn [andb]; try discriminate.
  destruct (nth_error _ _); [|discriminate].
  intros [= <-]. split; [lia | reflexivity].
Qed.

Lemma index_not_err (b : Slice.t) (i : Z) (e : string) :
  Slice.index b i <> Err e.
Proof.
  unfold Slice.index. destruct (_ && _); [|discriminate].
  destruct (nth_error _ _); discriminate.
Qed.

Lemma copy_into_nil (src : list byte) : Slice.copy [] src = [].
Proof. reflexivity. Qed.

(** Split an equation [bind m k = r] on the outcome of [m]. *)
Ltac bind_inv H x E :=
  match type of H with
  | bind ?m _ = _ =>
      destruct m as [x| |] eqn:E; cbn [bind] in H; try discriminate H
  end.

Section MacIp.

Variables base_RD evpn_ESI evpn_MACAddress base_Label : Type.
Variable MakeRD : Slice.t -> outcome base_RD.
Variable MakeESI : Slice.t -> outcome evpn_ESI.
Variable MakeMACAddress : Slice.t -> outcome evpn_MACAddress.
Variable MakeLabel : Slice.t -> outcome base_Label.

Local Abbreviation fixed_part :=
  (evpn.fixed_part base_RD evpn_ESI evpn_MACAddress base_Label
     MakeRD MakeESI MakeMACAddress).
Local Abbreviation label_loop :=
  (evpn.label_loop base_Label MakeLabel).
Local Abbreviation Unmarshal :=
  (evpn.UnmarshalEVPNMACIPAdvertisement base_RD evpn_ESI evpn_MACAddress
     base_Label MakeRD MakeESI MakeMACAddress MakeLabel).

(** What the statements before the label loop have established when they
    run to their end. *)
Lemma fixed_part_ok (b : Slice.t) t (p : Z) :
  fixed_part b = Ok (t, p) ->
  evpn.EthTag t = [] /\
  22 <= Slice.cap b /\
  24 + evpn.MACAddrLength t / 8 <= Slice.len b /\
  (evpn.IPAddrLength t <> 0 ->
   24 + evpn.MACAddrLength t / 8 + evpn.IPAddrLength t / 8 <= Slice.cap b) /\
  0 <= p.
Proof.
  unfold evpn.fixed_part. intros H.
  bind_inv H s1 E1. bind_inv H rd Erd. bind_inv H s2 E2. bind_inv H esi Eesi.
  bind_inv H s3 E3. bind_inv H x Ex.
  apply sub_ok_inv in E3. destruct E3 as (_ & Hc22 & _).
  pose proof (uint8_range x) as Hrx.
  assert (Hml : 0 <= uint8 x / 8) by (apply Z.div_pos; lia).
  remember (uint8 x / 8) as ml eqn:Eml.
  bind_inv H mp Emac. destruct mp as [macAddr p1].
  assert (Hp1 : p1 = 23 + ml).
  { destruct (Z.eqb_spec ml 0) as [Hz|Hz]; cbn [negb] in Emac.
    - assert (0 + 8 + 10 + 4 + 1 = p1) by congruence. lia.
    - bind_inv Emac s4 E4. bind_inv Emac m Em.
      assert (0 + 8 + 10 + 4 + 1 + ml = p1) by congruence. lia. }
  subst p1. clear Emac.
  bind_inv H y Ey. apply index_ok_inv in Ey. destruct Ey as [Hlen _].
  pose proof (uint8_range y) as Hry.
  bind_inv H ip Eip. destruct ip as [ipAddr p2].
  assert (Hil : 0 <= uint8 y / 8) by (apply Z.div_pos; lia).
  assert (Hp2 : 0 <= p2 /\
                (uint8 y <> 0 -> 24 + ml + uint8 y / 8 <= Slice.cap b)).
  { destruct (Z.eqb_spec (uint8 y) 0) as [Hz|Hz]; cbn [negb] in Eip.
    - assert (23 + ml + 1 = p2) by congruence. lia.
    - bind_inv Eip s5 E5.
      assert (23 + ml + 1 + uint8 y / 8 = p2) by congruence.
      apply sub_ok_inv in E5. lia. }
  clear Eip.
  assert (Ht : t = evpn.mkMACIPAdvertisement _ _ _ _ (Some rd) (Some esi)
                     (Slice.copy [] (Slice.elems s3)) (uint8 x) macAddr
                     (uint8 y) ipAddr []) by congruence.
  assert (Hp : p2 = p) by congruence.
  subst t p2. cbn [evpn.EthTag evpn.MACAddrLength evpn.IPAddrLength].
  rewrite <- Eml.
  repeat split; try lia.
Qed.

(** The label loop returns within its bound on turns. *)
Lemma label_loop_returns (fuel : nat) (b : Slice.t) :
  forall (p : Z) (labels : list base_Label),
    (0 < fuel)%nat -> Slice.len b - p < Z.of_nat fuel ->
    exists r, label_loop fuel b p labels = Some r.
Proof.
  induction fuel as [|fuel IH]; intros p labels Hpos Hf; [lia|].
  cbn [evpn.label_loop].
  destruct (Z.ltb_spec p (Slice.len b)); [|eauto].
  destruct (bind _ _); eauto.
  apply IH; lia.
Qed.

Lemma label_loop_err (fuel : nat) (b : Slice.t) (e : string) :
  forall (p : Z) (labels : list base_Label),
    label_loop fuel b p labels = Some (Err e) ->
    exists s, MakeLabel s = Err e.
Proof.
  induction fuel as [|fuel IH]; intros p labels H; [discriminate|].
  cbn [evpn.label_loop] in H.
  destruct (p <? Slice.len b); [|discriminate].
  destruct (bind _ _) eqn:E.
  - eapply IH; eassumption.
  - injection H as ->. bind_inv E s Es; [eauto|].
    exfalso. eapply sub_not_err. exact Es.
  - discriminate.
Qed.

Lemma fixed_part_err (b : Slice.t) (e : string) :
  fixed_part b = Err e ->
  evpn.decoder_error base_RD evpn_ESI evpn_MACAddress base_Label
    MakeRD MakeESI MakeMACAddress MakeLabel e.
Proof.
  unfold evpn.fixed_part, evpn.decoder_error. intros H.
  bind_inv H s1 E1; [|exfalso; eapply sub_not_err; exact E1].
  bind_inv H rd Erd; [|injection H as ->; eauto].
  bind_inv H s2 E2; [|exfalso; eapply sub_not_err; exact E2].
  bind_inv H esi Eesi; [|injection H as ->; eauto].
  bind_inv H s3 E3; [|exfalso; eapply sub_not_err; exact E3].
  bind_inv H x Ex; [|exfalso; eapply index_not_err; exact Ex].
  bind_inv H mp Emac.
  - destruct mp as [macAddr p1].
    bind_inv H y Ey; [|exfalso; eapply index_not_err; exact Ey].
    bind_inv H ip Eip; [destruct ip; discriminate|].
    destruct (negb (uint8 y =? 0)); [|discriminate].
    bind_inv Eip s5 E5. exfalso; eapply sub_not_err; exact E5.
  - injection H as ->.
    destruct (negb (uint8 x / 8 =? 0)); [|discriminate].
    bind_inv Emac s4 E4; [|exfalso; eapply sub_not_err; exact E4].
    bind_inv Emac m Em. injection Emac as ->. eauto 6.
Qed.

Lemma UnmarshalEVPNMACIPAdvertisement_returns (b : Slice.t) : exists r, Unmarshal b = Some r.
Proof.
  unfold evpn.UnmarshalEVPNMACIPAdvertisement.
  destruct (fixed_part b) as [[t p]| |] eqn:E; eauto.
  apply fixed_part_ok in E.
  destruct (label_loop_returns (S (length (Slice.elems b))) b p [])
    as [r Hr]; [lia | unfold Slice.len; lia |].
  rewrite Hr. destruct r; eauto.
Qed.

Lemma UnmarshalEVPNMACIPAdvertisement_ok_inv (b : Slice.t) t :
  Unmarshal b = Some (Ok t) ->
  exists t0 p, fixed_part b = Ok (t0, p) /\ evpn.EthTag t = evpn.EthTag t0 /\
    evpn.MACAddrLength t = evpn.MACAddrLength t0 /\
    evpn.IPAddrLength t = evpn.IPAddrLength t0.
Proof.
  unfold evpn.UnmarshalEVPNMACIPAdvertisement.
  destruct (fixed_part b) as [[t0 p]| |]; try discriminate.
  destruct (label_loop _ _ _ _) as [[labels| |]|]; try discriminate.
  intros [= <-]. exists t0, p. repeat split.
Qed.

(** C3 (the code departs from the claim).  Whenever the parser returns a
    route, its Ethernet Tag is empty: [copy(t.EthTag, b[p:p+4])] copies into
    a nil slice, so none of the 4 bytes that follow the ESI reaches the
    route, whatever they are. *)
Theorem UnmarshalEVPNMACIPAdvertisement_drops_EthTag (b : Slice.t) t :
  Unmarshal b = Some (Ok t) ->
  evpn.EthTag t = [] /\
  length (evpn.wire_EthTag b) = 4%nat /\
  evpn.EthTag t <> evpn.wire_EthTag b.
Proof.
  intros H. apply UnmarshalEVPNMACIPAdvertisement_ok_inv in H.
  destruct H as (t0 & p & H & -> & _).
  apply fixed_part_ok in H. destruct H as (-> & Hcap & _).
  assert (Hlen : length (evpn.wire_EthTag b) = 4%nat).
  { unfold evpn.wire_EthTag. rewrite length_firstn, length_skipn.
    rewrite cap_backing in Hcap. lia. }
  repeat split; [exact Hlen|].
  intros E. rewrite <- E in Hlen. discriminate.
Qed.

(** C8 (as amended).  The parser checks no length itself.  It always
    returns or panics; on a body whose capacity is under 8 it panics with an
    out-of-range slice expression; whenever it returns a route, the body
    holds the 22-byte header, the MAC length byte, the MAC bytes and the IP
    length byte within its length, and the IP bytes within its capacity, so
    that a shorter body never yields a route; and every error it returns is
    an error of one of its field decoders. *)
Theorem UnmarshalEVPNMACIPAdvertisement_no_length_check (b : Slice.t) :
  (exists r, Unmarshal b = Some r) /\
  (Slice.cap b < 8 -> Unmarshal b = Some (Panic Slice.out_of_range)) /\
  (forall t, Unmarshal b = Some (Ok t) ->
     24 + evpn.MACAddrLength t / 8 <= Slice.len b /\
     (evpn.IPAddrLength t <> 0 ->
      24 + evpn.MACAddrLength t / 8 + evpn.IPAddrLength t / 8 <= Slice.cap b)) /\
  (forall e, Unmarshal b = Some (Err e) ->
     evpn.decoder_error base_RD evpn_ESI evpn_MACAddress base_Label
       MakeRD MakeESI MakeMACAddress MakeLabel e).
Proof.
  split; [apply UnmarshalEVPNMACIPAdvertisement_returns|]. split; [|split].
  - intros Hcap. unfold evpn.UnmarshalEVPNMACIPAdvertisement, evpn.fixed_part.
    rewrite sub_out_of_range by lia. reflexivity.
  - intros t H. apply UnmarshalEVPNMACIPAdvertisement_ok_inv in H.
    destruct H as (t0 & p & H & _ & -> & ->).
    apply fixed_part_ok in H. tauto.
  - intros e. unfold evpn.UnmarshalEVPNMACIPAdvertisement.
    destruct (fixed_part b) as [[t0 p]| |] eqn:E.
    + destruct (label_loop _ _ _ _) as [[labels| |]|] eqn:EL; try discriminate.
      intros [= ->]. apply label_loop_err in EL.
      unfold evpn.decoder_error. tauto.
    + intros [= ->]. exact (fixed_part_err b e E).
    + discriminate.
Qed.

End MacIp.

Lemma UnmarshalEVPNMACIPAdvertisement_drops_EthTag_witness :
  let b := Slice.of_list wire.mac_ip_body in
  wire.UnmarshalEVPNMACIPAdvertisement b = Some (Ok wire.mac_ip_route) /\
  evpn.wire_EthTag b = wire.bytes [0; 0; 0; 7] /\
  evpn.EthTag wire.mac_ip_route = [] /\
  length (evpn.wire_EthTag b) = 4%nat /\
  evpn.EthTag wire.mac_ip_route <> evpn.wire_EthTag b.
Proof.
  intros b. split; [reflexivity|]. split; [reflexivity|].
  apply (UnmarshalEVPNMACIPAdvertisement_drops_EthTag
           wire.RD wire.ESI wire.MACAddress wire.Label
           wire.MakeRD wire.MakeESI wire.MakeMACAddress wire.MakeLabel b).
  reflexivity.
Defined.

(** C8, counterexample.  An empty body, and the body of [wire.mac_ip_body]
    cut after its MAC address (29 of its 37 bytes), are shorter than the
    fields they declare: the parser returns no error on them, it panics. *)
Lemma UnmarshalEVPNMACIPAdvertisement_panics_on_short_body :
  wire.UnmarshalEVPNMACIPAdvertisement (Slice.of_list [])
    = Some (Panic Slice.out_of_range) /\
  wire.UnmarshalEVPNMACIPAdvertisement
    (Slice.of_list (firstn 29 wire.mac_ip_body))
    = Some (Panic Slice.index_out_of_range).
Proof.
  split; reflexivity.
Qed.

(** ** The publisher *)

Section PublishProps.

Variables PeerStateChangeMsg UnicastPrefixMsg LSNodeMsg LSLinkMsg L3VPNMsg
  LSPrefixMsg LSSRv6SIDMsg EVPNMsg : Z.

Local Abbreviation PublishMessage :=
  (kafka.PublishMessage PeerStateChangeMsg UnicastPrefixMsg LSNodeMsg LSLinkMsg
     L3VPNMsg LSPrefixMsg LSSRv6SIDMsg EVPNMsg).
Local Abbreviation known_types :=
  (kafka.known_types PeerStateChangeMsg UnicastPrefixMsg LSNodeMsg LSLinkMsg
     L3VPNMsg LSPrefixMsg LSSRv6SIDMsg EVPNMsg).
Local Abbreviation msg_type :=
  (kafka.msg_type PeerStateChangeMsg UnicastPrefixMsg LSNodeMsg LSLinkMsg
     L3VPNMsg LSPrefixMsg LSSRv6SIDMsg EVPNMsg).

(** Take the cases of the [switch] one after the other. *)
Ltac switch_case :=
  match goal with
  | |- context [if ?a =? ?b then _ else _] =>
      destruct (Z.eqb_spec a b); cbv iota
  end.

(** A known message type is sent, on one of the eight topics, with its key
    and body as they are. *)
Lemma PublishMessage_known (p : kafka.publisher) (t : Z) (key msg : list byte) :
  In t known_types ->
  exists topic,
    In topic kafka.topicNames /\
    PublishMessage p t key msg = kafka.produceMessage p topic key msg.
Proof.
  intros Hin. unfold kafka.PublishMessage.
  repeat (switch_case;
    [eexists; split; [|reflexivity]; unfold kafka.topicNames; simpl; tauto|]).
  exfalso. unfold kafka.known_types in Hin. simpl in Hin.
  repeat (destruct Hin as [Hin|Hin]; [congruence|]). exact Hin.
Qed.

Lemma PublishMessage_unknown (p : kafka.publisher) (t : Z) (key msg : list byte) :
  ~ In t known_types ->
  PublishMessage p t key msg = (p, Some "not implemented"%string).
Proof.
  intros Hin. unfold kafka.PublishMessage.
  repeat (switch_case;
    [exfalso; apply Hin; unfold kafka.known_types; subst t; simpl; tauto|]).
  reflexivity.
Qed.

Lemma known_types_dec (t : Z) : {In t known_types} + {~ In t known_types}.
Proof. apply in_dec, Z.eq_dec. Qed.

(** C10.  [PublishMessage] returns an error exactly when its message type
    is not one of the eight known ones; for each known one it returns nil
    whatever the key and the body, which it hands to the producer unread
    and unchanged. *)
Theorem PublishMessage_error_iff_unknown (p : kafka.publisher) (t : Z)
    (key msg : list byte) :
  (snd (PublishMessage p t key msg) <> None <-> ~ In t known_types) /\
  (In t known_types ->
   forall key' msg',
     snd (PublishMessage p t key' msg') = None /\
     exists topic,
       kafka.producer_input (fst (PublishMessage p t key' msg')) =
       kafka.producer_input p ++ [kafka.mkProducerMessage topic key' msg']).
Proof.
  split.
  - destruct (known_types_dec t) as [Hin|Hout].
    + destruct (PublishMessage_known p t key msg Hin) as (topic & _ & ->).
      cbn [snd kafka.produceMessage]. split; [congruence | tauto].
    + rewrite PublishMessage_unknown by assumption. cbn [snd].
      split; [tauto | discriminate].
  - intros Hin key' msg'.
    destruct (PublishMessage_known p t key' msg' Hin) as (topic & _ & ->).
    split; [reflexivity|]. exists topic. reflexivity.
Qed.

(** C4 (as amended).  The eight message types being distinct constants,
    [PublishMessage] sends a record of each kind, with its key and body, on
    the topic whose name is the spec's topic name behind the prefix
    [gobmp.], and on no other. *)
Theorem PublishMessage_topic (k : kafka.record_kind) (p : kafka.publisher)
    (key msg : list byte) :
  NoDup known_types ->
  PublishMessage p (msg_type k) key msg =
    (kafka.mkPublisher (kafka.broker_open p)
       (kafka.producer_input p ++
          [kafka.mkProducerMessage ("gobmp." ++ kafka.spec_topic k) key msg])
       (kafka.stopCh_closed p),
     None).
Proof.
  unfold kafka.known_types. intros Hnd.
  repeat match goal with
  | H : NoDup (_ :: _) |- _ => apply NoDup_cons_iff in H; destruct H as [? H]
  end.
  cbn [In] in *.
  unfold kafka.PublishMessage.
  destruct k; cbn [kafka.msg_type kafka.spec_topic];
    repeat (switch_case; [try reflexivity; exfalso; intuition congruence|]);
    congruence.
Qed.

End PublishProps.

Lemma PublishMessage_topic_witness :
  let p := kafka.mkPublisher true [] false in
  kafka.PublishMessage 1 2 3 4 5 6 7 8 p (kafka.msg_type 1 2 3 4 5 6 7 8 kafka.EVPN)
    (wire.bytes [1]) (wire.bytes [2; 3]) =
  (kafka.mkPublisher true
     [kafka.mkProducerMessage "gobmp.parsed.evpn" (wire.bytes [1]) (wire.bytes [2; 3])]
     false,
   None).
Proof.
  intros p.
  apply (PublishMessage_topic 1 2 3 4 5 6 7 8 kafka.EVPN p).
  unfold kafka.known_types.
  repeat (apply NoDup_cons; [simpl; lia|]). apply NoDup_nil.
Defined.

(** C4, counterexample.  A peer state change goes out on
    [gobmp.parsed.peer], which is not the name [parsed.peer] of the spec. *)
Lemma PublishMessage_topic_is_prefixed :
  let p := kafka.mkPublisher true [] false in
  map kafka.Topic
    (kafka.producer_input (fst (kafka.PublishMessage 1 2 3 4 5 6 7 8 p 1 [] [])))
    = ["gobmp.parsed.peer"%string] /\
  "gobmp.parsed.peer"%string <> kafka.spec_topic kafka.PeerStateChange.
Proof.
  split; [reflexivity | discriminate].
Qed.

(** C6 (as amended).  [Stop] is not idempotent.  A first call that
    completes leaves the stop channel closed and the broker connection
    closed, and keeps what was sent to the producer; a second call after it
    panics, closing a channel that is closed already. *)
Theorem Stop_twice_panics (p p1 : kafka.publisher) :
  kafka.Stop p = Ok p1 ->
  kafka.stopCh_closed p1 = true /\
  kafka.broker_open p1 = false /\
  kafka.producer_input p1 = kafka.producer_input p /\
  kafka.Stop p1 = Panic "close of closed channel".
Proof.
  unfold kafka.Stop. destruct (kafka.stopCh_closed p); [discriminate|].
  intros [= <-]. repeat split.
Qed.

Lemma Stop_twice_panics_witness :
  let p := kafka.mkPublisher true [] false in
  let p1 := kafka.mkPublisher false [] true in
  kafka.Stop p = Ok p1 /\
  kafka.stopCh_closed p1 = true /\
  kafka.broker_open p1 = false /\
  kafka.producer_input p1 = kafka.producer_input p /\
  kafka.Stop p1 = Panic "close of closed channel".
Proof.
  intros p p1. split; [reflexivity|].
  apply (Stop_twice_panics p p1). reflexivity.
Defined.

(** C6, counterexample.  On a running publisher the first [Stop]
    completes, and the second one does not return the state it was given:
    it panics. *)
Lemma Stop_not_idempotent :
  let p := kafka.mkPublisher true [] false in
  exists p1,
    kafka.Stop p = Ok p1 /\ kafka.Stop p1 <> Ok p1 /\
    kafka.Stop p1 = Panic "close of closed channel".
Proof.
  eexists. split; [reflexivity|]. split; [discriminate | reflexivity].
Qed.

(** ** Topic provisioning on the clock *)

(** The first multiple of 100 ms after the instant [s]. *)
Definition first_tick_after (s : kafka_time.Duration) : kafka_time.Duration :=
  100 * kafka_time.Millisecond * (s / (100 * kafka_time.Millisecond) + 1).

(** The timers of [ensureTopic] when [br.CreateTopics] is called at the
    instant [s]: no tick is waiting in [ticker.C], and the ticker sends next
    at the first multiple of 100 ms after [s]. *)
Definition calling (s timeout : kafka_time.Duration) : kafka_time.timers :=
  kafka_time.mkTimers s false (first_tick_after s) timeout.

Lemma NewTimers_calling (timeout : kafka_time.Duration) :
  kafka_time.NewTimers timeout = calling 0 timeout.
Proof. reflexivity. Qed.

Lemma first_tick_after_gt (s : Z) : s < first_tick_after s.
Proof.
  unfold first_tick_after, kafka_time.Millisecond.
  Z.div_mod_to_equations. lia.
Qed.

Lemma first_tick_after_tick (s : Z) :
  first_tick_after (first_tick_after s) = first_tick_after s + 100 * kafka_time.Millisecond.
Proof.
  unfold first_tick_after, kafka_time.Millisecond.
  Z.div_mod_to_equations. lia.
Qed.

Lemma first_tick_after_count (k s : Z) :
  100 * kafka_time.Millisecond * k <= s ->
  100 * kafka_time.Millisecond * (k + 1) <= first_tick_after s.
Proof.
  unfold first_tick_after, kafka_time.Millisecond.
  intros H. Z.div_mod_to_equations. lia.
Qed.

(** The timers after a call made at [s] that takes [d]. *)
Lemma elapse_calling (s timeout d : Z) :
  kafka_time.elapse d (calling s timeout) =
    if first_tick_after s <=? s + Z.max 0 d then
      kafka_time.mkTimers (s + Z.max 0 d) true (first_tick_after (s + Z.max 0 d)) timeout
    else
      kafka_time.mkTimers (s + Z.max 0 d) false (first_tick_after s) timeout.
Proof.
  unfold kafka_time.elapse, calling.
  cbn [kafka_time.now kafka_time.ticker_when kafka_time.ticker_C kafka_time.tout_when].
  destruct (first_tick_after s <=? s + Z.max 0 d) eqn:E; [|reflexivity].
  apply Z.leb_le in E. f_equal.
  revert E. generalize (s + Z.max 0 d). intros e E.
  unfold first_tick_after, kafka_time.ticker_period, kafka_time.Millisecond in *.
  Z.div_mod_to_equations. lia.
Qed.

(** What the [select] does after a call made at [s] that returned at [e]. *)
Definition at_select (timeout s e : Z) (p : kafka.selected)
    : kafka.selected * kafka_time.Duration :=
  let g := first_tick_after s in
  if Z.max e g <? timeout then (kafka.tickerC, Z.max e g)
  else if (e <? g) && (timeout <? g) then (kafka.toutC, Z.max e timeout)
  else (p, Z.max e g).

Lemma select_calling (s timeout d : Z) (p : kafka.selected) :
  let e := s + Z.max 0 d in
  kafka_time.select_ p (kafka_time.elapse d (calling s timeout)) =
    match at_select timeout s e p with
    | (kafka.tickerC, s') => (kafka.tickerC, calling s' timeout)
    | (kafka.toutC, t) =>
        (kafka.toutC, snd (kafka_time.select_ p (kafka_time.elapse d (calling s timeout))))
    end /\
  kafka_time.now (snd (kafka_time.select_ p (kafka_time.elapse d (calling s timeout))))
    = snd (at_select timeout s e p).
Proof.
  intros e. rewrite elapse_calling. fold e.
  pose proof (first_tick_after_gt s) as Hg.
  pose proof (first_tick_after_tick s) as Hgg.
  unfold at_select, kafka_time.select_, calling.
  cbn [kafka_time.now kafka_time.ticker_when kafka_time.ticker_C kafka_time.tout_when].
  destruct (first_tick_after s <=? e) eqn:E1;
    cbn [kafka_time.now kafka_time.ticker_when kafka_time.ticker_C kafka_time.tout_when].
  - apply Z.leb_le in E1.
    replace (Z.max e (first_tick_after s)) with e by lia.
    destruct (timeout <=? e) eqn:E2.
    + apply Z.leb_le in E2.
      replace (e <? timeout) with false by (symmetry; apply Z.ltb_ge; lia).
      replace (e <? first_tick_after s) with false by (symmetry; apply Z.ltb_ge; lia).
      cbn [andb]. destruct p; cbn [snd kafka_time.now]; split; reflexivity.
    + apply Z.leb_gt in E2.
      replace (e <? timeout) with true by (symmetry; apply Z.ltb_lt; lia).
      cbn [snd kafka_time.now]. split; reflexivity.
  - apply Z.leb_gt in E1.
    replace (Z.max e (first_tick_after s)) with (first_tick_after s) by lia.
    replace (e <? first_tick_after s) with true by (symmetry; apply Z.ltb_lt; lia).
    cbn [andb].
    destruct (timeout <=? e) eqn:E2.
    + apply Z.leb_le in E2.
      replace (first_tick_after s <? timeout) with false by (symmetry; apply Z.ltb_ge; lia).
      replace (timeout <? first_tick_after s) with true by (symmetry; apply Z.ltb_lt; lia).
      cbn [snd kafka_time.now]. split; [reflexivity | lia].
    + apply Z.leb_gt in E2.
      destruct (first_tick_after s <? timeout) eqn:E3.
      * cbn [snd kafka_time.now].
        unfold kafka_time.ticker_period. rewrite <- Hgg. split; reflexivity.
      * apply Z.ltb_ge in E3.
        destruct (timeout <? first_tick_after s) eqn:E4.
        -- apply Z.ltb_lt in E4. cbn [snd kafka_time.now]. split; [reflexivity | lia].
        -- apply Z.ltb_ge in E4.
           destruct p; cbn [snd kafka_time.now].
           ++ unfold kafka_time.ticker_period. rewrite <- Hgg. split; reflexivity.
           ++ split; [reflexivity | lia].
Qed.

(** The loop, call by call: a call made at [s] returns at [e]; an answer
    that is not retried ends the loop at [e]; otherwise the [select] decides
    between the next call and the timeout error. *)
Lemma ensureTopic_loop_calling (topicName : string) (timeout s : Z)
    (tn : kafka_time.turn) (rest : list kafka_time.turn) :
  kafka_time.ensureTopic_loop topicName (calling s timeout) (tn :: rest) =
    let e := s + Z.max 0 (kafka_time.took tn) in
    let wait :=
      match at_select timeout s e (kafka_time.pick tn) with
      | (kafka.tickerC, s') =>
          kafka_time.ensureTopic_loop topicName (calling s' timeout) rest
      | (kafka.toutC, t) => Some (Some (kafka.timeout_waiting topicName), t, rest)
      end in
    match kafka_time.reply tn with
    | kafka.CallFailed err => Some (Some (kafka.call_error err), e, rest)
    | kafka.CreateTopicsResponse TopicErrors =>
        match TopicErrors topicName with
        | Some x =>
            if (x =? kafka.ErrTopicAlreadyExists) || (x =? kafka.ErrNoError) then
              Some (None, e, rest)
            else if negb (x =? kafka.ErrRequestTimedOut) then
              Some (Some (kafka.topic_err x), e, rest)
            else wait
        | None => wait
        end
    end.
Proof.
  cbn [kafka_time.ensureTopic_loop].
  destruct (select_calling s timeout (kafka_time.took tn) (kafka_time.pick tn))
    as [Hsel Hnow].
  assert (Hret : kafka_time.now (kafka_time.elapse (kafka_time.took tn) (calling s timeout))
                 = s + Z.max 0 (kafka_time.took tn)).
  { rewrite elapse_calling.
    destruct (first_tick_after s <=? s + Z.max 0 (kafka_time.took tn)); reflexivity. }
  rewrite Hret.
  assert (Hwait :
    match kafka_time.select_ (kafka_time.pick tn)
            (kafka_time.elapse (kafka_time.took tn) (calling s timeout)) with
    | (kafka.tickerC, c2) => kafka_time.ensureTopic_loop topicName c2 rest
    | (kafka.toutC, c2) =>
        Some (Some (kafka.timeout_waiting topicName), kafka_time.now c2, rest)
    end =
    match at_select timeout s (s + Z.max 0 (kafka_time.took tn)) (kafka_time.pick tn) with
    | (kafka.tickerC, s') =>
        kafka_time.ensureTopic_loop topicName (calling s' timeout) rest
    | (kafka.toutC, t) => Some (Some (kafka.timeout_waiting topicName), t, rest)
    end).
  { cbv zeta in Hsel, Hnow. rewrite Hsel.
    destruct (at_select timeout s (s + Z.max 0 (kafka_time.took tn)) (kafka_time.pick tn))
      as [[|] x]; [reflexivity|].
    cbn [snd] in Hnow. cbn [snd]. rewrite Hnow. reflexivity. }
  cbv zeta.
  destruct (kafka_time.reply tn) as [err | TopicErrors]; [reflexivity|].
  destruct (TopicErrors topicName) as [x|]; [|exact Hwait].
  destruct ((x =? kafka.ErrTopicAlreadyExists) || (x =? kafka.ErrNoError)); [reflexivity|].
  destruct (negb (x =? kafka.ErrRequestTimedOut)); [reflexivity | exact Hwait].
Qed.

Lemma at_select_ticker (timeout s e s' : Z) (p : kafka.selected) :
  at_select timeout s e p = (kafka.tickerC, s') -> s' = Z.max e (first_tick_after s).
Proof.
  unfold at_select.
  destruct (Z.max e (first_tick_after s) <? timeout).
  - intros H. injection H as <-. reflexivity.
  - destruct ((e <? first_tick_after s) && (timeout <? first_tick_after s)).
    + discriminate.
    + intros H. injection H as _ <-. reflexivity.
Qed.

Lemma at_select_tout (timeout s e t : Z) (p : kafka.selected) :
  at_select timeout s e p = (kafka.toutC, t) -> timeout <= t /\ e <= t.
Proof.
  unfold at_select.
  destruct (Z.max e (first_tick_after s) <? timeout) eqn:E1; [discriminate|].
  apply Z.ltb_ge in E1.
  destruct ((e <? first_tick_after s) && (timeout <? first_tick_after s)).
  - intros H. injection H as <-. lia.
  - intros H. injection H as _ <-. lia.
Qed.

(** A run never returns before the ticks its calls needed, nor the timeout
    error before the deadline. *)
Lemma ensureTopic_loop_instants (topicName : string) (timeout : Z)
    (env : list kafka_time.turn) :
  forall (s k : Z) (r : option kafka.topic_error) (t : Z) (rest' : list kafka_time.turn),
    100 * kafka_time.Millisecond * k <= s ->
    kafka_time.ensureTopic_loop topicName (calling s timeout) env = Some (r, t, rest') ->
    exists used,
      env = used ++ rest' /\ used <> [] /\
      100 * kafka_time.Millisecond * (k + Z.of_nat (length used) - 1) <= t /\
      (forall name, r = Some (kafka.timeout_waiting name) ->
         name = topicName /\ timeout <= t).
Proof.
  induction env as [|tn env IH]; intros s k r t rest' Hk H; [discriminate|].
  rewrite ensureTopic_loop_calling in H. cbv zeta in H.
  assert (Hdone : forall r0,
            (forall name, r0 <> Some (kafka.timeout_waiting name)) ->
            Some (r0, s + Z.max 0 (kafka_time.took tn), env) = Some (r, t, rest') ->
            exists used,
              tn :: env = used ++ rest' /\ used <> [] /\
              100 * kafka_time.Millisecond * (k + Z.of_nat (length used) - 1) <= t /\
              (forall name, r = Some (kafka.timeout_waiting name) ->
                 name = topicName /\ timeout <= t)).
  { intros r0 Hr0 E. injection E as <- <- <-.
    exists [tn]. split; [reflexivity|]. split; [discriminate|].
    split; [cbn [length]; lia|]. intros name Hn. destruct (Hr0 name Hn). }
  assert (Hwait :
            match at_select timeout s (s + Z.max 0 (kafka_time.took tn)) (kafka_time.pick tn) with
            | (kafka.tickerC, s') =>
                kafka_time.ensureTopic_loop topicName (calling s' timeout) env
            | (kafka.toutC, t0) => Some (Some (kafka.timeout_waiting topicName), t0, env)
            end = Some (r, t, rest') ->
            exists used,
              tn :: env = used ++ rest' /\ used <> [] /\
              100 * kafka_time.Millisecond * (k + Z.of_nat (length used) - 1) <= t /\
              (forall name, r = Some (kafka.timeout_waiting name) ->
                 name = topicName /\ timeout <= t)).
  { destruct (at_select timeout s (s + Z.max 0 (kafka_time.took tn)) (kafka_time.pick tn))
      as [[|] x] eqn:Esel; intros E.
    - apply at_select_ticker in Esel.
      pose proof (first_tick_after_count k s Hk) as Hg.
      destruct (IH x (k + 1) r t rest') as (used & -> & Hne & Ht & Hto); [lia | exact E |].
      exists (tn :: used). split; [reflexivity|]. split; [discriminate|].
      split; [cbn [length]; lia | exact Hto].
    - apply at_select_tout in Esel. injection E as <- <- <-.
      exists [tn]. split; [reflexivity|]. split; [discriminate|].
      split; [cbn [length]; lia|].
      intros name Hn. injection Hn as <-. split; [reflexivity | lia]. }
  destruct (kafka_time.reply tn) as [err | TopicErrors].
  - apply (Hdone (Some (kafka.call_error err))); [discriminate | exact H].
  - destruct (TopicErrors topicName) as [x|]; [|exact (Hwait H)].
    destruct ((x =? kafka.ErrTopicAlreadyExists) || (x =? kafka.ErrNoError)).
    + apply (Hdone None); [discriminate | exact H].
    + destruct (negb (x =? kafka.ErrRequestTimedOut)).
      * apply (Hdone (Some (kafka.topic_err x))); [discriminate | exact H].
      * exact (Hwait H).
Qed.

(** Calls that return at once and meet a request timeout are made one per
    tick. *)
Lemma ensureTopic_loop_ticks (topicName : string) (timeout : Z)
    (p : kafka.selected) (rest : list kafka_time.turn) (n : nat) :
  forall k : Z,
    100 * kafka_time.Millisecond * (k + Z.of_nat n) < timeout ->
    kafka_time.ensureTopic_loop topicName
      (calling (100 * kafka_time.Millisecond * k) timeout)
      (repeat (kafka_time.answer kafka.ErrRequestTimedOut 0 p) n ++ rest)
    = kafka_time.ensureTopic_loop topicName
        (calling (100 * kafka_time.Millisecond * (k + Z.of_nat n)) timeout) rest.
Proof.
  induction n as [|n IH]; intros k Hk.
  - cbn [repeat app]. do 2 f_equal. lia.
  - cbn [repeat app]. rewrite ensureTopic_loop_calling. cbv zeta.
    cbn [kafka_time.answer kafka_time.reply kafka_time.took kafka_time.pick].
    change (kafka.ErrRequestTimedOut =? kafka.ErrTopicAlreadyExists) with false.
    change (kafka.ErrRequestTimedOut =? kafka.ErrNoError) with false.
    change (kafka.ErrRequestTimedOut =? kafka.ErrRequestTimedOut) with true.
    cbn [orb negb].
    assert (Hg : first_tick_after (100 * kafka_time.Millisecond * k)
                 = 100 * kafka_time.Millisecond * (k + 1)).
    { unfold first_tick_after, kafka_time.Millisecond.
      Z.div_mod_to_equations. lia. }
    unfold at_select. rewrite Hg.
    replace (Z.max (100 * kafka_time.Millisecond * k + Z.max 0 0)
                   (100 * kafka_time.Millisecond * (k + 1)))
      with (100 * kafka_time.Millisecond * (k + 1))
      by (unfold kafka_time.Millisecond; lia).
    replace (100 * kafka_time.Millisecond * (k + 1) <? timeout) with true
      by (symmetry; apply Z.ltb_lt; unfold kafka_time.Millisecond in *; lia).
    rewrite IH by (unfold kafka_time.Millisecond in *; lia).
    do 2 f_equal. lia.
Qed.

Lemma ensureTopics_clock_app (before after : list string) (topicName : string) :
  forall env : list kafka_time.turn,
    kafka_time.ensureTopics (before ++ topicName :: after) env =
      match kafka_time.ensureTopics before env with
      | Some (None, env_t) =>
          match kafka_time.ensureTopic kafka_time.topicCreateTimeout topicName env_t with
          | Some (None, _, env') => kafka_time.ensureTopics after env'
          | Some (Some err, _, env') => Some (Some err, env')
          | None => None
          end
      | other => other
      end.
Proof.
  induction before as [|b before IH]; intros env.
  - reflexivity.
  - cbn [app kafka_time.ensureTopics].
    destruct (kafka_time.ensureTopic kafka_time.topicCreateTimeout b env)
      as [[[[err|] t] env']|]; [reflexivity | apply IH | reflexivity].
Qed.

(** A run on the clock is a run of [kafka.ensureTopic] over the cases the
    clock decides. *)
Lemma ensureTopic_loop_fired (topicName : string) (env : list kafka_time.turn) :
  forall c : kafka_time.timers,
    match kafka_time.ensureTopic_loop topicName c env with
    | Some (r, _, rest') =>
        exists left,
          kafka.ensureTopic topicName (kafka_time.fired_turns c env) = Some (r, left) /\
          length left = length rest'
    | None => kafka.ensureTopic topicName (kafka_time.fired_turns c env) = None
    end.
Proof.
  induction env as [|tn env IH]; intros c; [reflexivity|].
  cbn [kafka_time.ensureTopic_loop kafka_time.fired_turns].
  destruct (kafka_time.select_ (kafka_time.pick tn) (kafka_time.elapse (kafka_time.took tn) c))
    as [f c2] eqn:Esel.
  cbn [kafka.ensureTopic kafka.reply kafka.fired].
  assert (Hlen : forall c', length (kafka_time.fired_turns c' env) = length env).
  { clear. induction env as [|tn env IH]; intros c'; [reflexivity|].
    cbn [kafka_time.fired_turns].
    destruct (kafka_time.select_ (kafka_time.pick tn)
                (kafka_time.elapse (kafka_time.took tn) c')) as [f c2].
    cbn [length]. rewrite IH. reflexivity. }
  assert (Hwait :
    match
      match f with
      | kafka.tickerC => kafka_time.ensureTopic_loop topicName c2 env
      | kafka.toutC => Some (Some (kafka.timeout_waiting topicName), kafka_time.now c2, env)
      end
    with
    | Some (r, _, rest') =>
        exists left,
          match f with
          | kafka.tickerC => kafka.ensureTopic topicName (kafka_time.fired_turns c2 env)
          | kafka.toutC =>
              Some (Some (kafka.timeout_waiting topicName), kafka_time.fired_turns c2 env)
          end = Some (r, left) /\ length left = length rest'
    | None =>
        match f with
        | kafka.tickerC => kafka.ensureTopic topicName (kafka_time.fired_turns c2 env)
        | kafka.toutC =>
            Some (Some (kafka.timeout_waiting topicName), kafka_time.fired_turns c2 env)
        end = None
    end).
  { destruct f; [apply IH|]. eexists. split; [reflexivity | apply Hlen]. }
  destruct (kafka_time.reply tn) as [err | TopicErrors].
  - eexists. split; [reflexivity | apply Hlen].
  - destruct (TopicErrors topicName) as [x|]; [|exact Hwait].
    destruct ((x =? kafka.ErrTopicAlreadyExists) || (x =? kafka.ErrNoError)).
    + eexists. split; [reflexivity | apply Hlen].
    + destruct (negb (x =? kafka.ErrRequestTimedOut)); [|exact Hwait].
      eexists. split; [reflexivity | apply Hlen].
Qed.

Lemma ensureTopic_loop_takes (topicName : string) (env : list kafka_time.turn) :
  forall c r t rest',
    kafka_time.ensureTopic_loop topicName c env = Some (r, t, rest') ->
    (length rest' < length env)%nat.
Proof.
  induction env as [|tn env IH]; intros c r t rest' H; [discriminate|].
  cbn [kafka_time.ensureTopic_loop] in H. cbn [length].
  assert (Hwait :
            match kafka_time.select_ (kafka_time.pick tn)
                    (kafka_time.elapse (kafka_time.took tn) c) with
            | (kafka.tickerC, c2) => kafka_time.ensureTopic_loop topicName c2 env
            | (kafka.toutC, c2) =>
                Some (Some (kafka.timeout_waiting topicName), kafka_time.now c2, env)
            end = Some (r, t, rest') ->
            (length rest' < S (length env))%nat).
  { destruct (kafka_time.select_ (kafka_time.pick tn)
                (kafka_time.elapse (kafka_time.took tn) c)) as [[|] c2]; intros E.
    - apply IH in E. lia.
    - injection E as <- <- <-. lia. }
  destruct (kafka_time.reply tn) as [err | TopicErrors].
  - injection H as <- <- <-. lia.
  - destruct (TopicErrors topicName) as [x|]; [|exact (Hwait H)].
    destruct ((x =? kafka.ErrTopicAlreadyExists) || (x =? kafka.ErrNoError)).
    + injection H as <- <- <-. lia.
    + destruct (negb (x =? kafka.ErrRequestTimedOut)); [|exact (Hwait H)].
      injection H as <- <- <-. lia.
Qed.

(** The turns a run on the clock takes are a run of [kafka.ensureTopic]
    with the same result, whatever follows them. *)
Lemma ensureTopic_loop_fired_taken (topicName : string) (env : list kafka_time.turn) :
  forall c r t rest' more,
    kafka_time.ensureTopic_loop topicName c env = Some (r, t, rest') ->
    kafka.ensureTopic topicName
      (kafka_time.fired_turns c (firstn (length env - length rest') env) ++ more)
    = Some (r, more).
Proof.
  induction env as [|tn env IH]; intros c r t rest' more H; [discriminate|].
  pose proof (ensureTopic_loop_takes topicName (tn :: env) c r t rest' H) as Hlen.
  cbn [length] in Hlen.
  replace (length (tn :: env) - length rest')%nat
    with (S (length env - length rest')) by (cbn [length]; lia).
  cbn [firstn kafka_time.fired_turns].
  cbn [kafka_time.ensureTopic_loop] in H.
  destruct (kafka_time.select_ (kafka_time.pick tn)
              (kafka_time.elapse (kafka_time.took tn) c)) as [f c2].
  cbn [app kafka.ensureTopic kafka.reply kafka.fired].
  assert (Hdone : forall r0,
            Some (r0, kafka_time.now (kafka_time.elapse (kafka_time.took tn) c), env)
              = Some (r, t, rest') ->
            Some (r0, kafka_time.fired_turns c2 (firstn (length env - length rest') env)
                        ++ more) = Some (r, more)).
  { intros r0 E. injection E as <- _ <-. rewrite Nat.sub_diag. reflexivity. }
  assert (Hwait :
            match f with
            | kafka.tickerC => kafka_time.ensureTopic_loop topicName c2 env
            | kafka.toutC =>
                Some (Some (kafka.timeout_waiting topicName), kafka_time.now c2, env)
            end = Some (r, t, rest') ->
            match f with
            | kafka.tickerC =>
                kafka.ensureTopic topicName
                  (kafka_time.fired_turns c2 (firstn (length env - length rest') env)
                     ++ more)
            | kafka.toutC =>
                Some (Some (kafka.timeout_waiting topicName),
                      kafka_time.fired_turns c2 (firstn (length env - length rest') env)
                        ++ more)
            end = Some (r, more)).
  { destruct f; intros E.
    - exact (IH c2 r t rest' more E).
    - injection E as <- _ <-. rewrite Nat.sub_diag. reflexivity. }
  destruct (kafka_time.reply tn) as [err | TopicErrors].
  - exact (Hdone _ H).
  - destruct (TopicErrors topicName) as [x|]; [|exact (Hwait H)].
    destruct ((x =? kafka.ErrTopicAlreadyExists) || (x =? kafka.ErrNoError)).
    + exact (Hdone _ H).
    + destruct (negb (x =? kafka.ErrRequestTimedOut)); [exact (Hdone _ H) | exact (Hwait H)].
Qed.

Lemma ensureTopics_fired (topics : list string) :
  forall env : list kafka_time.turn,
    match kafka_time.ensureTopics topics env with
    | Some (r, _) =>
        exists left,
          kafka.ensureTopics topics (kafka_time.fired_by_topic topics env) = Some (r, left)
    | None => kafka.ensureTopics topics (kafka_time.fired_by_topic topics env) = None
    end.
Proof.
  induction topics as [|topic topics IH]; intros env.
  - eexists. reflexivity.
  - cbn [kafka_time.ensureTopics kafka_time.fired_by_topic kafka.ensureTopics].
    pose proof (ensureTopic_loop_fired topic env
                  (kafka_time.NewTimers kafka_time.topicCreateTimeout)) as Hnone.
    unfold kafka_time.ensureTopic.
    destruct (kafka_time.ensureTopic_loop topic
                (kafka_time.NewTimers kafka_time.topicCreateTimeout) env)
      as [[[r t] rest']|] eqn:E.
    + rewrite (ensureTopic_loop_fired_taken topic env _ r t rest' _ E).
      destruct r as [err|]; [eexists; reflexivity | apply IH].
    + rewrite Hnone. reflexivity.
Qed.

(** A start on the clock is a start of [kafka.NewKafkaPublisher] over the
    cases the clock decides. *)
Lemma NewKafkaPublisher_fired (IP : Type)
    (LookupIP : string -> option (list IP) * kafka.error)
    (ParseIP : string -> option IP) (kafkaSrv : string) (w : kafka_time.world) :
  kafka_time.NewKafkaPublisher IP LookupIP ParseIP kafkaSrv w
  = kafka.NewKafkaPublisher IP LookupIP ParseIP kafkaSrv (kafka_time.on_turns w).
Proof.
  unfold kafka_time.NewKafkaPublisher, kafka.NewKafkaPublisher, kafka_time.on_turns.
  cbn [kafka.br_open kafka.polls kafka.turns kafka.new_producer].
  pose proof (ensureTopics_fired kafka.topicNames (kafka_time.turns w)) as H.
  destruct (kafka_time.ensureTopics kafka.topicNames (kafka_time.turns w))
    as [[r left]|].
  - destruct H as (left' & ->). reflexivity.
  - rewrite H. reflexivity.
Qed.

Section ProvisioningOnTheClock.

Variable IP : Type.
Variable LookupIP : string -> option (list IP) * kafka.error.
Variable ParseIP : string -> option IP.

(** C7 (as amended).  [ensureTopic] makes its first call at the instant 0.
    Take a call made at [s] that returns at [e], and let [g] be the first
    multiple of 100 ms after [s], the next tick of the ticker.
    - An already-exists or no-error answer for the topic ends [ensureTopic]
      with nil at [e].  Any other answer but a request timeout, and an error
      of the call itself, is returned at [e].  No call follows either.
    - After a request timeout, or a response without the topic, the next call
      is made on the tick, at the later of [e] and [g], when that instant is
      before [timeout].  The timeout error is returned, at the later of [e]
      and [timeout], when no tick has come by [e] and [timeout] is before
      [g].  Otherwise a tick is waiting with the deadline passed, or tick
      and deadline fall on one instant: Go's [select] takes either case, so
      a call can still follow the deadline.
    - A run that made [n] calls does not return before [(n - 1) * 100 ms],
      and does not return the timeout error before [timeout].  With calls
      that return at once, a call is made on every tick before [timeout]
      and the timeout error is returned at [timeout].
    - In [NewKafkaPublisher], for every topic of [topicNames], once the
      topics before it are acknowledged: an error of its [ensureTopic], run
      with the deadline of one second, is the error of the start, and its
      nil hands the turns left over to the topics after it. *)
Theorem ensureTopic_on_the_clock
    (timeout s : kafka_time.Duration) (topicName : string)
    (tn : kafka_time.turn) (rest : list kafka_time.turn) :
  let e := s + Z.max 0 (kafka_time.took tn) in
  let g := first_tick_after s in
  let run := kafka_time.ensureTopic_loop topicName (calling s timeout) (tn :: rest) in
  let retry :=
    kafka_time.ensureTopic_loop topicName (calling (Z.max e g) timeout) rest in
  let timed_out (t : kafka_time.Duration) :=
    Some (Some (kafka.timeout_waiting topicName), t, rest) in
  (forall env,
     kafka_time.ensureTopic timeout topicName env
       = kafka_time.ensureTopic_loop topicName (calling 0 timeout) env) /\
  (forall x, kafka_time.answers topicName x tn ->
     (x = kafka.ErrTopicAlreadyExists \/ x = kafka.ErrNoError ->
      run = Some (None, e, rest)) /\
     (x <> kafka.ErrTopicAlreadyExists -> x <> kafka.ErrNoError ->
      x <> kafka.ErrRequestTimedOut ->
      run = Some (Some (kafka.topic_err x), e, rest))) /\
  (forall err, kafka_time.reply tn = kafka.CallFailed err ->
     run = Some (Some (kafka.call_error err), e, rest)) /\
  (kafka_time.to_select topicName tn ->
     (Z.max e g < timeout -> run = retry) /\
     (e < g -> timeout < g -> run = timed_out (Z.max e timeout)) /\
     (timeout <= Z.max e g -> g <= e \/ g = timeout ->
      (kafka_time.pick tn = kafka.tickerC -> run = retry) /\
      (kafka_time.pick tn = kafka.toutC -> run = timed_out (Z.max e g)))) /\
  (forall env r t rest',
     kafka_time.ensureTopic timeout topicName env = Some (r, t, rest') ->
     exists used,
       env = used ++ rest' /\ used <> [] /\
       100 * kafka_time.Millisecond * (Z.of_nat (length used) - 1) <= t /\
       (forall name, r = Some (kafka.timeout_waiting name) ->
          name = topicName /\ timeout <= t)) /\
  (forall (n : nat) rest0,
     100 * kafka_time.Millisecond * Z.of_nat n < timeout
       <= 100 * kafka_time.Millisecond * (Z.of_nat n + 1) ->
     kafka_time.ensureTopic timeout topicName
       (repeat (kafka_time.answer kafka.ErrRequestTimedOut 0 kafka.toutC) (S n) ++ rest0)
     = Some (Some (kafka.timeout_waiting topicName), timeout, rest0)) /\
  (forall (before after : list string) (kafkaSrv : string) (w : kafka_time.world)
          (env_t : list kafka_time.turn),
     kafka.topicNames = before ++ topicName :: after ->
     kafka.validator IP LookupIP ParseIP kafkaSrv = None ->
     (forall err, kafka_time.br_open w <> kafka.open_err err) ->
     (exists left,
        kafka.waitForBrokerConnection kafkaSrv (kafka_time.polls w) = Some (None, left)) ->
     kafka_time.ensureTopics before (kafka_time.turns w) = Some (None, env_t) ->
     forall t rest',
       (forall err,
          kafka_time.ensureTopic (1 * kafka_time.Second) topicName env_t
            = Some (Some err, t, rest') ->
          kafka_time.NewKafkaPublisher IP LookupIP ParseIP kafkaSrv w
            = Some (inr (kafka.topic_not_ensured err))) /\
       (kafka_time.ensureTopic (1 * kafka_time.Second) topicName env_t
          = Some (None, t, rest') ->
        kafka_time.ensureTopics kafka.topicNames (kafka_time.turns w)
          = kafka_time.ensureTopics after rest')).
Proof.
  intros e g run retry timed_out.
  assert (Hrun := ensureTopic_loop_calling topicName timeout s tn rest).
  cbv zeta in Hrun. fold e run in Hrun.
  split; [reflexivity|].
  split; [|split; [|split; [|split; [|split]]]].
  - intros x (m & Hr & Hm). rewrite Hrun, Hr, Hm. split.
    + intros [-> | ->]; reflexivity.
    + intros H1 H2 H3. apply Z.eqb_neq in H1, H2, H3.
      rewrite H1, H2, H3. reflexivity.
  - intros err Hr. rewrite Hrun, Hr. reflexivity.
  - intros (m & Hr & Hm).
    assert (Hsel : run =
              match at_select timeout s e (kafka_time.pick tn) with
              | (kafka.tickerC, s') =>
                  kafka_time.ensureTopic_loop topicName (calling s' timeout) rest
              | (kafka.toutC, t) => Some (Some (kafka.timeout_waiting topicName), t, rest)
              end).
    { rewrite Hrun, Hr. destruct Hm as [-> | ->]; reflexivity. }
    unfold at_select in Hsel. fold g in Hsel.
    split; [|split].
    + intros H. apply Z.ltb_lt in H. rewrite H in Hsel. exact Hsel.
    + intros H1 H2.
      replace (Z.max e g <? timeout) with false in Hsel
        by (symmetry; apply Z.ltb_ge; lia).
      apply Z.ltb_lt in H1, H2. rewrite H1, H2 in Hsel. exact Hsel.
    + intros H1 H2.
      replace (Z.max e g <? timeout) with false in Hsel
        by (symmetry; apply Z.ltb_ge; lia).
      replace ((e <? g) && (timeout <? g)) with false in Hsel.
      2:{ symmetry. apply andb_false_iff.
          destruct H2 as [H2 | H2]; [left | right]; apply Z.ltb_ge; lia. }
      split; intros Hp; rewrite Hp in Hsel; exact Hsel.
  - intros env r t rest' H.
    destruct (ensureTopic_loop_instants topicName timeout env 0 0 r t rest')
      as (used & Henv & Hne & Ht & Hto); [reflexivity | exact H |].
    exists used. split; [exact Henv|]. split; [exact Hne|]. split; [|exact Hto].
    replace (Z.of_nat (length used) - 1) with (0 + Z.of_nat (length used) - 1) by lia.
    exact Ht.
  - intros n rest0 [Hlo Hhi].
    unfold kafka_time.ensureTopic. rewrite NewTimers_calling.
    replace (S n) with (n + 1)%nat by lia.
    rewrite repeat_app, <- app_assoc.
    change (calling 0 timeout) with (calling (100 * kafka_time.Millisecond * 0) timeout).
    rewrite ensureTopic_loop_ticks by (rewrite Z.add_0_l; exact Hlo).
    cbn [repeat app]. rewrite ensureTopic_loop_calling. cbv zeta.
    cbn [kafka_time.answer kafka_time.reply kafka_time.took kafka_time.pick].
    change (kafka.ErrRequestTimedOut =? kafka.ErrTopicAlreadyExists) with false.
    change (kafka.ErrRequestTimedOut =? kafka.ErrNoError) with false.
    change (kafka.ErrRequestTimedOut =? kafka.ErrRequestTimedOut) with true.
    cbn [orb negb].
    assert (Hg : first_tick_after (100 * kafka_time.Millisecond * (0 + Z.of_nat n))
                 = 100 * kafka_time.Millisecond * (Z.of_nat n + 1)).
    { unfold first_tick_after, kafka_time.Millisecond.
      Z.div_mod_to_equations. lia. }
    unfold at_select. rewrite Hg.
    replace (Z.max (100 * kafka_time.Millisecond * (0 + Z.of_nat n) + Z.max 0 0)
                   (100 * kafka_time.Millisecond * (Z.of_nat n + 1)))
      with (100 * kafka_time.Millisecond * (Z.of_nat n + 1))
      by (unfold kafka_time.Millisecond; lia).
    replace (100 * kafka_time.Millisecond * (Z.of_nat n + 1) <? timeout) with false
      by (symmetry; apply Z.ltb_ge; exact Hhi).
    replace (100 * kafka_time.Millisecond * (0 + Z.of_nat n) + Z.max 0 0
               <? 100 * kafka_time.Millisecond * (Z.of_nat n + 1)) with true
      by (symmetry; apply Z.ltb_lt; unfold kafka_time.Millisecond; lia).
    cbn [andb].
    destruct (timeout <? 100 * kafka_time.Millisecond * (Z.of_nat n + 1)) eqn:E.
    + do 3 f_equal. unfold kafka_time.Millisecond in *. lia.
    + apply Z.ltb_ge in E. do 3 f_equal. lia.
  - intros before after kafkaSrv w env_t Hnames Hv Hopen (left & Hconn) Hbefore t rest'.
    assert (Happ := ensureTopics_clock_app before after topicName (kafka_time.turns w)).
    rewrite <- Hnames, Hbefore in Happ.
    change kafka_time.topicCreateTimeout with (1 * kafka_time.Second) in Happ.
    split.
    + intros err H. rewrite H in Happ.
      unfold kafka_time.NewKafkaPublisher. rewrite Hv, Hconn, Happ.
      destruct (kafka_time.br_open w) as [| | oe]; [reflexivity | reflexivity |].
      destruct (Hopen oe eq_refl).
    + intros H. rewrite H in Happ. exact Happ.
Qed.

End ProvisioningOnTheClock.

(** A start in which the third topic is refused: the first two topics are
    acknowledged, the third meets a request timeout at 30 ms, is asked for
    again on the tick at 100 ms, and is then refused. *)
Lemma ensureTopic_on_the_clock_witness :
  let ms := kafka_time.Millisecond in
  let ack := kafka_time.answer kafka.ErrTopicAlreadyExists (30 * ms) kafka.tickerC in
  let slow := kafka_time.answer kafka.ErrRequestTimedOut (30 * ms) kafka.tickerC in
  let refused := kafka_time.answer 29 (30 * ms) kafka.tickerC in
  let w :=
    kafka_time.mkWorld kafka.open_nil [kafka.mkPoll true None kafka.tickerC]
      [ack; ack; slow; refused; ack] None in
  kafka_time.ensureTopic (1 * kafka_time.Second) kafka.lsNodeMessageTopic [slow; refused; ack]
    = kafka_time.ensureTopic_loop kafka.lsNodeMessageTopic
        (calling (100 * ms) (1 * kafka_time.Second)) [refused; ack] /\
  kafka_time.ensureTopic (1 * kafka_time.Second) kafka.lsNodeMessageTopic [slow; refused; ack]
    = Some (Some (kafka.topic_err 29), 130 * ms, [ack]) /\
  kafka_time.NewKafkaPublisher string kafka.localhost_only kafka.loopback_literal
    "localhost:9092" w
    = Some (inr (kafka.topic_not_ensured (kafka.topic_err 29))).
Proof.
  intros ms ack slow refused w.
  destruct (ensureTopic_on_the_clock string kafka.localhost_only kafka.loopback_literal
              (1 * kafka_time.Second) 0 kafka.lsNodeMessageTopic slow [refused; ack])
    as (Hfirst & _ & _ & Hselect & _ & _ & Hstart).
  destruct (ensureTopic_on_the_clock string kafka.localhost_only kafka.loopback_literal
              (1 * kafka_time.Second) (100 * ms) kafka.lsNodeMessageTopic refused [ack])
    as (_ & Hanswer & _).
  assert (Hretry :
            kafka_time.ensureTopic (1 * kafka_time.Second) kafka.lsNodeMessageTopic [slow; refused; ack]
            = kafka_time.ensureTopic_loop kafka.lsNodeMessageTopic
                (calling (100 * ms) (1 * kafka_time.Second)) [refused; ack]).
  { rewrite Hfirst.
    destruct Hselect as (Hbefore & _).
    - eexists. split; [reflexivity | left; reflexivity].
    - apply Hbefore. reflexivity. }
  assert (Hrefused :
            kafka_time.ensureTopic (1 * kafka_time.Second) kafka.lsNodeMessageTopic [slow; refused; ack]
            = Some (Some (kafka.topic_err 29), 130 * ms, [ack])).
  { rewrite Hretry.
    destruct (Hanswer 29) as (_ & Hother).
    - eexists. split; reflexivity.
    - apply Hother; discriminate. }
  split; [exact Hretry|]. split; [exact Hrefused|].
  destruct (Hstart [kafka.peerTopic; kafka.unicastMessageTopic]
              [kafka.lsLinkMessageTopic; kafka.l3vpnMessageTopic;
               kafka.lsPrefixMessageTopic; kafka.lsSRv6SIDMessageTopic;
               kafka.evpnMessageTopic]
              "localhost:9092"%string w [slow; refused; ack])
    with (t := 130 * ms) (rest' := [ack]) as (Habort & _).
  - reflexivity.
  - vm_compute. reflexivity.
  - discriminate.
  - eexists. reflexivity.
  - vm_compute. reflexivity.
  - apply Habort. exact Hrefused.
Defined.

(** C7, counterexample.  The deadline is one second.  The first call
    returns a request timeout after 1.5 s: a tick is waiting in [ticker.C],
    the timer has fired, and the [select] may take the tick.  The topic is
    then asked for again, past the deadline, and acknowledged: [ensureTopic]
    returns nil at 1.52 s, and the start goes on to a running publisher.
    When the [select] takes the timer instead, the same call ends with the
    timeout error. *)
Lemma ensureTopic_retries_after_deadline :
  let ms := kafka_time.Millisecond in
  let late p := kafka_time.answer kafka.ErrRequestTimedOut (1500 * ms) p in
  let ack := kafka_time.answer kafka.ErrNoError (20 * ms) kafka.tickerC in
  let w :=
    kafka_time.mkWorld kafka.open_nil [kafka.mkPoll true None kafka.tickerC]
      (late kafka.tickerC :: repeat ack 8) None in
  kafka_time.topicCreateTimeout = 1000 * ms /\
  kafka_time.ensureTopic kafka_time.topicCreateTimeout kafka.peerTopic
    [late kafka.tickerC; ack]
    = Some (None, 1520 * ms, []) /\
  kafka_time.ensureTopic kafka_time.topicCreateTimeout kafka.peerTopic
    [late kafka.toutC; ack]
    = Some (Some (kafka.timeout_waiting kafka.peerTopic), 1500 * ms, [ack]) /\
  kafka_time.NewKafkaPublisher string kafka.localhost_only kafka.loopback_literal
    "localhost:9092" w
    = Some (inl (kafka.mkPublisher true [] false)).
Proof.
  intros ms late ack w.
  split; [vm_compute; reflexivity|]. split; [vm_compute; reflexivity|].
  split; vm_compute; reflexivity.
Qed.

(** ** The broker-address validator *)

Section ValidatorProps.

Variable IP : Type.
Variable LookupIP : string -> option (list IP) * kafka.error.
Variable ParseIP : string -> option IP.

Local Abbreviation validator := (kafka.validator IP LookupIP ParseIP).

(** The host resolves: [LookupIP] returns a non-nil slice and a nil error. *)
Definition resolves (host : string) : Prop :=
  exists ips, LookupIP host = (Some ips, None).

(** The host is a literal IP: [ParseIP] does not return nil. *)
Definition literal (host : string) : Prop :=
  exists ip, ParseIP host = Some ip.

(** What [validator] accepts: a non-empty host that resolves or is a
    literal IP, and a port that [Atoi] reads as a number other than 0 and
    at most 65535. *)
Lemma validator_accepts_iff (addr : string) :
  validator addr = None <->
  let '(host, port, _) := net.SplitHostPort addr in
  host <> EmptyString /\ port <> EmptyString /\
  (resolves host \/ literal host) /\
  exists np, strconv.Atoi port = Some np /\ np <> 0 /\ np <= 65535.
Proof.
  unfold kafka.validator, resolves, literal.
  destruct (net.SplitHostPort addr) as [[host port] err].
  destruct (String.eqb_spec host EmptyString) as [->|Hh]; cbn [orb].
  { split; [discriminate | tauto]. }
  destruct (String.eqb_spec port EmptyString) as [->|Hp]; cbn [orb].
  { split; [discriminate | tauto]. }
  destruct (LookupIP host) as [ips lerr].
  assert (Hhost :
    (negb (kafka.is_nil lerr) || kafka.is_nil ips) && kafka.is_nil (ParseIP host)
      = false <->
    ((exists ips0, (ips, lerr) = (Some ips0, None)) \/
     (exists ip, ParseIP host = Some ip))).
  { destruct ips as [ips0|], lerr as [e|], (ParseIP host) as [ip|]; cbn;
      split; intros H; try reflexivity; try discriminate; eauto;
      destruct H as [[? H]|[? H]]; discriminate. }
  destruct ((negb (kafka.is_nil lerr) || kafka.is_nil ips)
            && kafka.is_nil (ParseIP host)).
  { split; [discriminate|]. intros (_ & _ & H & _).
    apply Hhost in H. discriminate. }
  assert (Hok := proj1 Hhost eq_refl).
  destruct (strconv.Atoi port) as [np|].
  - destruct (Z.eqb_spec np 0) as [->|Hz]; cbn [orb].
    { split; [discriminate|]. intros (_ & _ & _ & n & [= <-] & Hn & _). lia. }
    destruct (Z.gtb_spec np 65535) as [Hgt|Hle].
    { split; [discriminate|]. intros (_ & _ & _ & n & [= <-] & _ & Hn). lia. }
    split; [|reflexivity]. intros _. repeat split; try assumption.
    exists np. repeat split; [assumption | lia].
  - split; [discriminate|]. intros (_ & _ & _ & n & Hn & _). discriminate.
Qed.

(** C5 (the code departs from the claim).  With a host that resolves, the
    address [localhost:-1] is accepted: [Atoi] reads the port as -1, which
    is neither 0 nor above 65535, the only two values the port check
    refuses. *)
Theorem validator_accepts_negative_port (ips : list IP) :
  LookupIP "localhost" = (Some ips, None) ->
  validator "localhost:-1" = None /\
  strconv.Atoi "-1" = Some (-1).
Proof.
  intros H. split; [|reflexivity].
  apply validator_accepts_iff.
  replace (net.SplitHostPort "localhost:-1")
    with ("localhost"%string, "-1"%string, @None string) by reflexivity.
  repeat split; try discriminate.
  - left. exists ips. exact H.
  - exists (-1). repeat split; [discriminate | lia].
Qed.

(** The two addresses the spec names: [localhost:0] is refused whatever
    the resolver says, and [[::1]:9092] is accepted when [::1] resolves or
    parses as a literal. *)
Lemma validator_named_addresses :
  validator "localhost:0" <> None /\
  (resolves "::1" \/ literal "::1" -> validator "[::1]:9092" = None).
Proof.
  split.
  - intros H. apply validator_accepts_iff in H.
    replace (net.SplitHostPort "localhost:0")
      with ("localhost"%string, "0"%string, @None string) in H by reflexivity.
    destruct H as (_ & _ & _ & np & [= <-] & Hnp & _). lia.
  - intros H. apply validator_accepts_iff.
    replace (net.SplitHostPort "[::1]:9092")
      with ("::1"%string, "9092"%string, @None string) by reflexivity.
    repeat split; try discriminate; [exact H|].
    exists 9092. repeat split; [discriminate | lia].
Qed.

(** Every port that [Atoi] reads as 0 or as a number above 65535 is
    refused; a port read as a negative number is not. *)
Lemma validator_port_range (addr : string) (np : Z) :
  strconv.Atoi (snd (fst (net.SplitHostPort addr))) = Some np ->
  validator addr = None -> np <> 0 /\ np <= 65535.
Proof.
  intros Hnp H. apply validator_accepts_iff in H.
  destruct (net.SplitHostPort addr) as [[host port] err]. cbn [fst snd] in Hnp.
  destruct H as (_ & _ & _ & n & Hn & H). congruence.
Qed.

End ValidatorProps.

Lemma validator_accepts_negative_port_witness :
  kafka.localhost_only "localhost" = (Some ["127.0.0.1"%string], None) /\
  kafka.validator string kafka.localhost_only kafka.loopback_literal
    "localhost:-1" = None /\
  strconv.Atoi "-1" = Some (-1).
Proof.
  split; [reflexivity|].
  apply (validator_accepts_negative_port string kafka.localhost_only
           kafka.loopback_literal ["127.0.0.1"%string]).
  reflexivity.
Defined.

(** * Further properties of the code *)

(** ** The TLV walker on well-formed and on truncated runs *)

Lemma wire_tlvs_count (l : list byte) tlvs :
  tlv_wire.wire_tlvs l tlvs -> (4 * length tlvs <= length l)%nat.
Proof.
  induction 1 as [|t0 t1 l0 l1 v rest tlvs _ _ IH]; cbn [length].
  - lia.
  - rewrite length_app. lia.
Qed.

(** The loop walks over a well-formed run that lies within the length of
    the slice in as many turns as the run has TLVs, and collects them. *)
Lemma tlv_loop_prefix (l : list byte) tlvs :
  tlv_wire.wire_tlvs l tlvs ->
  forall (fuel : nat) (b : Slice.t) (p : Z) (acc : list base.LinkDescriptorTLV)
         (tail : list byte),
    0 <= p ->
    skipn (Z.to_nat p) (Slice.backing b) = l ++ tail ->
    p + Z.of_nat (length l) <= Slice.len b ->
    base.tlv_loop (length tlvs + fuel) b p acc =
    base.tlv_loop fuel b (p + Z.of_nat (length l)) (acc ++ tlvs).
Proof.
  induction 1 as [|t0 t1 l0 l1 v rest tlvs Hv _ IH];
    intros fuel b p acc tail Hp E Hlen.
  - cbn [length Nat.add]. rewrite app_nil_r. f_equal. simpl. lia.
  - cbn [length] in Hlen. rewrite length_app in Hlen.
    cbn [length Nat.add base.tlv_loop].
    replace (p <? Slice.len b) with true by (symmetry; apply Z.ltb_lt; lia).
    assert (E' : skipn (Z.to_nat p) (Slice.backing b)
                 = t0 :: t1 :: l0 :: l1 :: v ++ rest ++ tail).
    { rewrite E. cbn [app]. now rewrite <- app_assoc. }
    rewrite (tlv_body_header b p Hp t0 t1 l0 l1 (v ++ rest ++ tail) E').
    rewrite length_app.
    replace (tlv_wire.be16 l0 l1 <=? Z.of_nat (length v + length (rest ++ tail)))
      with true by (symmetry; apply Z.leb_le; lia).
    rewrite <- Hv, Nat2Z.id, firstn_app, Nat.sub_diag, firstn_all. cbn [firstn].
    rewrite app_nil_r, Hv.
    rewrite (IH fuel b (p + 2 + 2 + tlv_wire.be16 l0 l1) _ tail).
    + cbn [length]. rewrite length_app, <- app_assoc. cbn [app].
      f_equal. lia.
    + lia.
    + replace (p + 2 + 2 + tlv_wire.be16 l0 l1)
        with (p + Z.of_nat (4 + length v)) by lia.
      rewrite skipn_rest, E' by lia. cbn [skipn Nat.add].
      rewrite skipn_app, skipn_all, Nat.sub_diag. reflexivity.
    + lia.
Qed.

(** More turns than needed change nothing. *)
Lemma tlv_loop_more_fuel (fuel k : nat) (b : Slice.t) :
  forall (p : Z) (acc : list base.LinkDescriptorTLV) r,
    base.tlv_loop fuel b p acc = Some r ->
    base.tlv_loop (fuel + k) b p acc = Some r.
Proof.
  induction fuel as [|fuel IH]; intros p acc r H; [discriminate|].
  cbn [Nat.add base.tlv_loop] in *.
  destruct (p <? Slice.len b); [|exact H].
  destruct (base.tlv_body b p) as [[tlv p']| |]; [|exact H|exact H].
  apply IH. exact H.
Qed.

Lemma tlv_loop_complete (b : Slice.t) tlvs :
  tlv_wire.wire_tlvs (Slice.elems b) tlvs ->
  base.UnmarshalLinkDescriptorTLV b = Some (Ok tlvs).
Proof.
  intros H. unfold base.UnmarshalLinkDescriptorTLV.
  pose proof (wire_tlvs_count _ _ H) as Hn.
  replace (S (length (Slice.elems b)))
    with (length tlvs + 1 + (length (Slice.elems b) - length tlvs))%nat by lia.
  apply tlv_loop_more_fuel.
  rewrite (tlv_loop_prefix _ _ H 1%nat b 0 [] (Slice.spare b));
    [| lia | reflexivity | unfold Slice.len; lia].
  cbn [base.tlv_loop app].
  replace (0 + Z.of_nat (length (Slice.elems b)) <? Slice.len b) with false
    by (symmetry; apply Z.ltb_ge; unfold Slice.len; lia).
  reflexivity.
Qed.

(** X1.  Whatever bytes its backing array holds beyond the length, a slice
    whose bytes are a well-formed run of TLVs is walked with success, and the
    walker returns exactly the TLVs of the run. *)
Theorem UnmarshalLinkDescriptorTLV_well_formed (b : Slice.t)
    (tlvs : list base.LinkDescriptorTLV) :
  tlv_wire.wire_tlvs (Slice.elems b) tlvs ->
  base.UnmarshalLinkDescriptorTLV b = Some (Ok tlvs).
Proof.
  exact (tlv_loop_complete b tlvs).
Qed.

Lemma UnmarshalLinkDescriptorTLV_well_formed_witness :
  let b := Slice.mk (wire.bytes [1; 2; 0; 1; 7; 1; 3; 0; 0]) (wire.bytes [9; 9; 9]) in
  base.UnmarshalLinkDescriptorTLV b =
    Some (Ok [ base.mkLinkDescriptorTLV 258 1 (wire.bytes [7]);
               base.mkLinkDescriptorTLV 259 0 [] ]).
Proof.
  apply UnmarshalLinkDescriptorTLV_well_formed.
  apply (tlv_wire.wire_cons x01 x02 x00 x01 [x07]); [reflexivity|].
  apply (tlv_wire.wire_cons x01 x03 x00 x00 []); [reflexivity|].
  constructor.
Defined.

(** Every byte sequence is a well-formed run or a truncated one. *)
Lemma wire_or_malformed (n : nat) :
  forall l : list byte, (length l <= n)%nat ->
    (exists tlvs, tlv_wire.wire_tlvs l tlvs) \/ tlv_wire.malformed l.
Proof.
  induction n as [|n IH]; intros l Hl.
  - destruct l; [|simpl in Hl; lia]. left. exists []. constructor.
  - destruct l as [|t0 [|t1 [|l0 [|l1 rest]]]];
      try (right; apply tlv_wire.short_header; simpl; lia).
    + left. exists []. constructor.
    + pose proof (be16_range l0 l1) as HR.
      destruct (Z_lt_le_dec (Z.of_nat (length rest)) (tlv_wire.be16 l0 l1))
        as [Hshort|Hfits].
      * right. now apply tlv_wire.short_value.
      * rewrite <- (firstn_skipn (Z.to_nat (tlv_wire.be16 l0 l1)) rest).
        assert (Hv : Z.of_nat (length (firstn (Z.to_nat (tlv_wire.be16 l0 l1)) rest))
                     = tlv_wire.be16 l0 l1)
          by (rewrite length_firstn; lia).
        destruct (IH (skipn (Z.to_nat (tlv_wire.be16 l0 l1)) rest)) as [[tlvs H]|H].
        { rewrite length_skipn. simpl in Hl. lia. }
        { left. eexists. apply tlv_wire.wire_cons; eassumption. }
        { right. apply tlv_wire.malformed_later; assumption. }
Qed.

(** X2.  On a slice whose capacity equals its length the walker panics
    exactly when the run is truncated (fewer than 4 bytes left for a header,
    or a declared length beyond the bytes left), and succeeds exactly when it
    is not. *)
Theorem UnmarshalLinkDescriptorTLV_panics_iff_truncated (b : Slice.t) :
  Slice.cap b = Slice.len b ->
  (tlv_wire.malformed (Slice.elems b) <->
   base.UnmarshalLinkDescriptorTLV b = Some (Panic Slice.out_of_range)) /\
  (~ tlv_wire.malformed (Slice.elems b) <->
   exists tlvs, base.UnmarshalLinkDescriptorTLV b = Some (Ok tlvs)).
Proof.
  intros Hcap.
  assert (Hpanic : tlv_wire.malformed (Slice.elems b) ->
                   base.UnmarshalLinkDescriptorTLV b = Some (Panic Slice.out_of_range)).
  { intros Hm. apply (tlv_loop_malformed _ Hm); try lia. reflexivity. }
  destruct (wire_or_malformed _ (Slice.elems b) (le_n _)) as [[tlvs Hw]|Hm].
  - pose proof (tlv_loop_complete b tlvs Hw) as Hok.
    assert (Hnot : ~ tlv_wire.malformed (Slice.elems b)).
    { intros Hm. apply Hpanic in Hm. congruence. }
    split; split; try tauto.
    + intros H. congruence.
    + intros _. eauto.
  - pose proof (Hpanic Hm) as Hp.
    split; split; try tauto.
    intros [tlvs H]. congruence.
Qed.

Lemma UnmarshalLinkDescriptorTLV_panics_iff_truncated_witness :
  let b := Slice.of_list (wire.bytes [1; 2; 0; 1; 7; 1; 3; 0]) in
  (tlv_wire.malformed (Slice.elems b) <->
   base.UnmarshalLinkDescriptorTLV b = Some (Panic Slice.out_of_range)) /\
  (~ tlv_wire.malformed (Slice.elems b) <->
   exists tlvs, base.UnmarshalLinkDescriptorTLV b = Some (Ok tlvs)).
Proof.
  apply UnmarshalLinkDescriptorTLV_panics_iff_truncated. reflexivity.
Defined.

(** The loop sees of the slice only the bytes from [p] on and how many of
    them lie within the length. *)
Lemma tlv_loop_shift (fuel : nat) (b b' : Slice.t) :
  forall (p p' : Z) (acc acc' : list base.LinkDescriptorTLV) r,
    0 <= p -> 0 <= p' ->
    skipn (Z.to_nat p) (Slice.backing b) = skipn (Z.to_nat p') (Slice.backing b') ->
    Slice.len b - p = Slice.len b' - p' ->
    base.tlv_loop fuel b' p' acc' = Some r ->
    base.tlv_loop fuel b p (acc ++ acc') = Some (base.prepend_tlvs acc r).
Proof.
  induction fuel as [|fuel IH]; intros p p' acc acc' r Hp Hp' E Hlen H;
    [discriminate|].
  cbn [base.tlv_loop] in *.
  destruct (Z.ltb_spec p' (Slice.len b')) as [Hlt|Hge].
  - replace (p <? Slice.len b) with true by (symmetry; apply Z.ltb_lt; lia).
    destruct (skipn (Z.to_nat p') (Slice.backing b'))
      as [|t0 [|t1 [|l0 [|l1 tail]]]] eqn:E';
      try (rewrite tlv_body_short_header in H |- *
             by (try rewrite E; try rewrite E'; simpl; lia);
           injection H as <-; reflexivity).
    rewrite (tlv_body_header b' p' Hp' t0 t1 l0 l1 tail E') in H.
    rewrite (tlv_body_header b p Hp t0 t1 l0 l1 tail E).
    pose proof (be16_range l0 l1) as HR.
    destruct (Z.leb_spec (tlv_wire.be16 l0 l1) (Z.of_nat (length tail)));
      [|injection H as <-; reflexivity].
    rewrite <- app_assoc.
    apply (IH _ (p' + 2 + 2 + tlv_wire.be16 l0 l1)); try lia; [|exact H].
    replace (p + 2 + 2 + tlv_wire.be16 l0 l1)
      with (p + Z.of_nat (4 + Z.to_nat (tlv_wire.be16 l0 l1))) by lia.
    replace (p' + 2 + 2 + tlv_wire.be16 l0 l1)
      with (p' + Z.of_nat (4 + Z.to_nat (tlv_wire.be16 l0 l1))) by lia.
    rewrite !skipn_rest by lia. now rewrite E, E'.
  - replace (p <? Slice.len b) with false by (symmetry; apply Z.ltb_ge; lia).
    injection H as <-. reflexivity.
Qed.

(** X3.  Walking a well-formed run followed by any bytes gives the TLVs of
    the run followed by those of the rest; when the walk of the rest panics,
    so does the whole walk, and the TLVs already read are not returned. *)
Theorem UnmarshalLinkDescriptorTLV_app (l1 l2 : list byte)
    (tlvs1 : list base.LinkDescriptorTLV) :
  tlv_wire.wire_tlvs l1 tlvs1 ->
  base.UnmarshalLinkDescriptorTLV (Slice.of_list (l1 ++ l2)) =
    option_map (base.prepend_tlvs tlvs1)
      (base.UnmarshalLinkDescriptorTLV (Slice.of_list l2)).
Proof.
  intros Hw.
  destruct (UnmarshalLinkDescriptorTLV_returns (Slice.of_list l2)) as [r Hr].
  rewrite Hr. cbn [option_map].
  pose proof (wire_tlvs_count _ _ Hw) as Hn.
  unfold base.UnmarshalLinkDescriptorTLV in *. cbn [Slice.of_list Slice.elems] in *.
  rewrite length_app.
  replace (S (length l1 + length l2))
    with (length tlvs1 + (S (length l2) + (length l1 - length tlvs1)))%nat by lia.
  assert (Hskip : skipn (Z.to_nat 0) (Slice.backing (Slice.mk (l1 ++ l2) []))
                  = l1 ++ l2)
    by (cbn; apply app_nil_r).
  assert (Hin : 0 + Z.of_nat (length l1) <= Slice.len (Slice.mk (l1 ++ l2) []))
    by (unfold Slice.len; cbn [Slice.elems]; rewrite length_app; lia).
  rewrite (tlv_loop_prefix _ _ Hw _ _ 0 [] l2 (Z.le_refl 0) Hskip Hin).
  apply tlv_loop_more_fuel.
  rewrite <- (app_nil_r ([] ++ tlvs1)). cbn [app].
  apply (tlv_loop_shift _ _ (Slice.mk l2 []) _ 0 _ []); try lia; [| |exact Hr].
  - unfold Slice.backing. cbn [Slice.elems Slice.spare skipn Z.to_nat].
    rewrite !app_nil_r.
    replace (Z.to_nat (0 + Z.of_nat (length l1))) with (length l1) by lia.
    rewrite skipn_app, skipn_all, Nat.sub_diag. reflexivity.
  - unfold Slice.len. cbn [Slice.elems]. rewrite length_app. lia.
Qed.

Lemma UnmarshalLinkDescriptorTLV_app_witness :
  base.UnmarshalLinkDescriptorTLV
    (Slice.of_list (wire.bytes [1; 2; 0; 1; 7] ++ wire.bytes [1; 3; 0; 5; 1]))
  = option_map (base.prepend_tlvs [base.mkLinkDescriptorTLV 258 1 (wire.bytes [7])])
      (base.UnmarshalLinkDescriptorTLV (Slice.of_list (wire.bytes [1; 3; 0; 5; 1]))).
Proof.
  apply UnmarshalLinkDescriptorTLV_app.
  apply (tlv_wire.wire_cons x01 x02 x00 x01 [x07]); [reflexivity|].
  constructor.
Defined.

Lemma wire_tlvs_fields (l : list byte) tlvs :
  tlv_wire.wire_tlvs l tlvs ->
  Forall (fun tlv => 0 <= base.Type_ tlv < 65536 /\
                     0 <= base.Length tlv < 65536 /\
                     Z.of_nat (length (base.Value tlv)) = base.Length tlv) tlvs.
Proof.
  induction 1 as [|t0 t1 l0 l1 v rest tlvs Hv _ IH]; constructor;
    [|exact IH].
  cbn [base.Type_ base.Length base.Value].
  pose proof (be16_range t0 t1). pose proof (be16_range l0 l1). tauto.
Qed.

(** X4.  On any slice, with spare capacity or not, a successful walk
    returns TLVs that lie back to back from the start of the backing array;
    their sizes add up to at least the length and at most the capacity; each
    has a 16-bit type and length and a value of exactly its length. *)
Theorem UnmarshalLinkDescriptorTLV_reads_backing (b : Slice.t)
    (tlvs : list base.LinkDescriptorTLV) :
  base.UnmarshalLinkDescriptorTLV b = Some (Ok tlvs) ->
  tlv_wire.wire_tlvs
    (firstn (Z.to_nat (tlv_wire.total_size tlvs)) (Slice.backing b)) tlvs /\
  Slice.len b <= tlv_wire.total_size tlvs <= Slice.cap b /\
  Forall (fun tlv => 0 <= base.Type_ tlv < 65536 /\
                     0 <= base.Length tlv < 65536 /\
                     Z.of_nat (length (base.Value tlv)) = base.Length tlv) tlvs.
Proof.
  intros H. apply UnmarshalLinkDescriptorTLV_reads in H. destruct H as [Hw Hsz].
  split; [exact Hw|]. split; [exact Hsz|].
  exact (wire_tlvs_fields _ _ Hw).
Qed.

Lemma UnmarshalLinkDescriptorTLV_reads_backing_witness :
  let b := Slice.mk (wire.bytes [1; 2; 0]) (wire.bytes [1; 7; 8; 9]) in
  let tlvs := [ base.mkLinkDescriptorTLV 258 1 (wire.bytes [7]) ] in
  tlv_wire.wire_tlvs
    (firstn (Z.to_nat (tlv_wire.total_size tlvs)) (Slice.backing b)) tlvs /\
  Slice.len b <= tlv_wire.total_size tlvs <= Slice.cap b /\
  Forall (fun tlv => 0 <= base.Type_ tlv < 65536 /\
                     0 <= base.Length tlv < 65536 /\
                     Z.of_nat (length (base.Value tlv)) = base.Length tlv) tlvs.
Proof.
  apply UnmarshalLinkDescriptorTLV_reads_backing. reflexivity.
Defined.

(** X5.  The walker's loop ends on every slice, TLVs of length 0 included:
    it returns or panics within [len(b) + 1] turns, and a walk that succeeds
    returns at most a quarter of the capacity in TLVs. *)
Theorem UnmarshalLinkDescriptorTLV_terminates (b : Slice.t) :
  exists r,
    base.UnmarshalLinkDescriptorTLV b = Some r /\
    forall tlvs, r = Ok tlvs -> 4 * Z.of_nat (length tlvs) <= Slice.cap b.
Proof.
  destruct (UnmarshalLinkDescriptorTLV_returns b) as [r Hr].
  exists r. split; [exact Hr|].
  intros tlvs ->. apply UnmarshalLinkDescriptorTLV_reads in Hr.
  destruct Hr as [Hw Hsz]. apply wire_tlvs_count in Hw.
  rewrite length_firstn in Hw. rewrite cap_backing. lia.
Qed.

(** ** Node flags: when the call panics *)

Lemma node_flags_outcomes (tlvs : list bgpls.TLV) :
  (forall e, bgpls.node_flags tlvs <> Err e) /\
  (forall z, bgpls.node_flags tlvs = Ok z -> 0 <= z < 256) /\
  (forall w, bgpls.node_flags tlvs = Panic w ->
     w = Slice.index_out_of_range /\
     exists pre tlv post,
       tlvs = pre ++ tlv :: post /\
       (forall t, In t pre -> bgpls.Type_ t <> 1024) /\
       bgpls.Type_ tlv = 1024 /\ bgpls.Value tlv = []).
Proof.
  induction tlvs as [|tlv rest (IH1 & IH2 & IH3)]; cbn [bgpls.node_flags].
  - split; [discriminate|]. split; [|discriminate].
    intros z [= <-]. lia.
  - destruct (Z.eqb_spec (bgpls.Type_ tlv) 1024) as [Hty|Hty]; cbn [negb].
    + destruct (bgpls.Value tlv) as [|x v] eqn:Hv; cbn.
      * split; [discriminate|]. split; [discriminate|].
        intros w [= <-]. split; [reflexivity|].
        exists [], tlv, rest. split; [reflexivity|].
        split; [intros t []|]. split; assumption.
      * split; [discriminate|]. split; [|discriminate].
        intros z [= <-]. apply uint8_range.
    + split; [exact IH1|]. split; [exact IH2|].
      intros w Hw.
      destruct (IH3 w Hw) as (-> & pre & t & post & -> & Hpre & Ht & Hv).
      split; [reflexivity|].
      exists (tlv :: pre), t, post. split; [reflexivity|].
      split; [|split; assumption].
      intros t' [<-|Hin]; [exact Hty | now apply Hpre].
Qed.

(** X6.  [GetNodeFlags] never fails with an error and returns a number
    from 0 to 255, unless the first TLV of type 1024 has an empty value: then,
    and only then, it panics with an index out of range. *)
Theorem GetNodeFlags_panics_iff_empty_value (ls : bgpls.NLRI) :
  (forall e, bgpls.GetNodeFlags ls <> Err e) /\
  (forall z, bgpls.GetNodeFlags ls = Ok z -> 0 <= z < 256) /\
  (bgpls.GetNodeFlags ls = Panic Slice.index_out_of_range <->
   exists pre tlv post,
     bgpls.LS ls = pre ++ tlv :: post /\
     (forall t, In t pre -> bgpls.Type_ t <> 1024) /\
     bgpls.Type_ tlv = 1024 /\ bgpls.Value tlv = []) /\
  (forall w, bgpls.GetNodeFlags ls = Panic w -> w = Slice.index_out_of_range).
Proof.
  unfold bgpls.GetNodeFlags.
  destruct (node_flags_outcomes (bgpls.LS ls)) as (H1 & H2 & H3).
  split; [exact H1|]. split; [exact H2|]. split.
  - split.
    + intros H. apply H3 in H. tauto.
    + intros (pre & tlv & post & E & Hpre & Hty & Hv).
      destruct ls as [tlvs]. cbn [bgpls.LS] in *. subst tlvs.
      exact (GetNodeFlags_empty_value pre post tlv Hpre Hty Hv).
  - intros w H. apply H3 in H. tauto.
Qed.

(** ** The MAC/IP Advertisement parser: where the fields come from *)

Section MacIpFields.

Variables base_RD evpn_ESI evpn_MACAddress base_Label : Type.
Variable MakeRD : Slice.t -> outcome base_RD.
Variable MakeESI : Slice.t -> outcome evpn_ESI.
Variable MakeMACAddress : Slice.t -> outcome evpn_MACAddress.
Variable MakeLabel : Slice.t -> outcome base_Label.

Local Abbreviation fixed_part :=
  (evpn.fixed_part base_RD evpn_ESI evpn_MACAddress base_Label
     MakeRD MakeESI MakeMACAddress).
Local Abbreviation label_loop :=
  (evpn.label_loop base_Label MakeLabel).
Local Abbreviation Unmarshal :=
  (evpn.UnmarshalEVPNMACIPAdvertisement base_RD evpn_ESI evpn_MACAddress
     base_Label MakeRD MakeESI MakeMACAddress MakeLabel).

Local Abbreviation placed :=
  (evpn.placed base_RD evpn_ESI evpn_MACAddress base_Label
     MakeRD MakeESI MakeMACAddress).

Lemma copy_into_made (n : Z) (src : list byte) :
  Z.of_nat (length src) = n ->
  Slice.copy (Slice.make n) src = src.
Proof.
  intros H. unfold Slice.copy, Slice.make. rewrite repeat_length.
  replace (Nat.min (Z.to_nat n) (length src)) with (length src) by lia.
  rewrite firstn_all, skipn_all2 by (rewrite repeat_length; lia).
  apply app_nil_r.
Qed.

Lemma fixed_part_placed (b : Slice.t) t (p : Z) :
  fixed_part b = Ok (t, p) ->
  placed b t /\ evpn.Label t = [] /\
  p = evpn.labels_offset (evpn.MACAddrLength t) (evpn.IPAddrLength t).
Proof.
  unfold evpn.fixed_part, evpn.placed, evpn.labels_offset. intros H.
  bind_inv H s1 E1. bind_inv H rd Erd. bind_inv H s2 E2. bind_inv H esi Eesi.
  bind_inv H s3 E3. bind_inv H x Ex.
  pose proof (uint8_range x) as Hrx.
  assert (Hml : 0 <= uint8 x / 8) by (apply Z.div_pos; lia).
  remember (uint8 x / 8) as ml eqn:Eml.
  bind_inv H mp Emac. destruct mp as [macAddr p1].
  assert (Hmac : p1 = 23 + ml /\
                 if ml =? 0 then macAddr = None
                 else exists s m, Slice.sub b 23 (23 + ml) = Ok s /\
                                  MakeMACAddress s = Ok m /\ macAddr = Some m).
  { destruct (Z.eqb_spec ml 0) as [Hz|Hz]; cbn [negb] in Emac.
    - assert (0 + 8 + 10 + 4 + 1 = p1) by congruence.
      assert (None = macAddr) by congruence. split; [lia | congruence].
    - bind_inv Emac s4 E4. bind_inv Emac m Em.
      assert (0 + 8 + 10 + 4 + 1 + ml = p1) by congruence.
      assert (Some m = macAddr) by congruence.
      change (0 + 8 + 10 + 4 + 1) with 23 in E4.
      split; [lia|]. exists s4, m. repeat split; congruence. }
  destruct Hmac as [-> Hmac]. clear Emac.
  bind_inv H y Ey.
  pose proof (uint8_range y) as Hry.
  assert (Hil : 0 <= uint8 y / 8) by (apply Z.div_pos; lia).
  bind_inv H ip Eip. destruct ip as [ipAddr p2].
  assert (Hip : p2 = 24 + ml + (if uint8 y =? 0 then 0 else uint8 y / 8) /\
                if uint8 y =? 0 then ipAddr = []
                else ipAddr = firstn (Z.to_nat (uint8 y / 8))
                                (skipn (Z.to_nat (24 + ml)) (Slice.backing b)) /\
                     Z.of_nat (length ipAddr) = uint8 y / 8).
  { destruct (Z.eqb_spec (uint8 y) 0) as [Hz|Hz]; cbn [negb] in Eip.
    - assert (23 + ml + 1 = p2) by congruence.
      assert ([] = ipAddr) by congruence. split; [lia | congruence].
    - bind_inv Eip s5 E5.
      assert (23 + ml + 1 + uint8 y / 8 = p2) by congruence.
      assert (Hc : Slice.copy (Slice.make (uint8 y / 8)) (Slice.elems s5) = ipAddr)
        by congruence.
      apply sub_ok_inv in E5. destruct E5 as (_ & Hcap & Hel).
      replace (23 + ml + 1 + uint8 y / 8 - (23 + ml + 1)) with (uint8 y / 8)
        in Hel by lia.
      replace (23 + ml + 1) with (24 + ml) in Hel by lia.
      assert (Hlen5 : Z.of_nat (length (Slice.elems s5)) = uint8 y / 8).
      { rewrite Hel, length_firstn, length_skipn. rewrite cap_backing in Hcap. lia. }
      rewrite copy_into_made in Hc by exact Hlen5. subst ipAddr.
      split; [lia|]. split; [exact Hel | exact Hlen5]. }
  destruct Hip as [-> Hip]. clear Eip.
  assert (Ht : t = evpn.mkMACIPAdvertisement _ _ _ _ (Some rd) (Some esi)
                     (Slice.copy [] (Slice.elems s3)) (uint8 x) macAddr
                     (uint8 y) ipAddr []) by congruence.
  assert (Hp : 24 + ml + (if uint8 y =? 0 then 0 else uint8 y / 8) = p)
    by congruence.
  subst t.
  cbn [evpn.RD evpn.ESI evpn.MACAddrLength evpn.MACAddr evpn.IPAddrLength
       evpn.IPAddr evpn.Label].
  rewrite <- Eml.
  split; [|split; [reflexivity | symmetry; exact Hp]].
  split; [exists s1, rd; auto|].
  split; [exists s2, esi; auto|].
  split; [exists x; auto|].
  split; [exact Hmac|].
  split; [exists y; split; [|reflexivity]|exact Hip].
  replace (23 + ml) with (0 + 8 + 10 + 4 + 1 + ml) by lia.
  destruct (ml =? 0) eqn:Hz; [apply Z.eqb_eq in Hz; subst ml|]; exact Ey.
Qed.

(** The labels a run of the loop adds: one for every 3 bytes, or part of 3
    bytes, between [p] and the length, each decoded from all the bytes of
    the slice from its own offset on. *)
Lemma label_loop_ok (fuel : nat) (b : Slice.t) :
  forall (p : Z) (acc labels : list base_Label),
    label_loop fuel b p acc = Some (Ok labels) ->
    exists new,
      labels = acc ++ new /\
      length new = Z.to_nat ((Slice.len b - p + 2) / 3) /\
      forall (i : nat) (l : base_Label),
        nth_error new i = Some l ->
        exists s, Slice.from b (p + 3 * Z.of_nat i) = Ok s /\ MakeLabel s = Ok l.
Proof.
  induction fuel as [|fuel IH]; intros p acc labels H; [discriminate|].
  cbn [evpn.label_loop] in H.
  destruct (Z.ltb_spec p (Slice.len b)) as [Hlt|Hge].
  - destruct (bind (Slice.from b p) MakeLabel) as [l| |] eqn:E; try discriminate.
    apply IH in H. destruct H as (new & -> & Hn & Hnth).
    exists (l :: new). split; [now rewrite <- app_assoc|]. split.
    + cbn [length]. rewrite Hn.
      replace (Slice.len b - p + 2) with (Slice.len b - (p + 3) + 2 + 1 * 3) by lia.
      rewrite Z.div_add by lia.
      assert (0 <= (Slice.len b - (p + 3) + 2) / 3) by (apply Z.div_pos; lia).
      lia.
    + intros [|i] l' Hl'; cbn [nth_error] in Hl'.
      * injection Hl' as <-. bind_inv E s Es.
        exists s. split; [|exact E].
        replace (p + 3 * Z.of_nat 0) with p by lia. exact Es.
      * destruct (Hnth i l' Hl') as (s & Hs & Hm).
        exists s. split; [|exact Hm].
        replace (p + 3 * Z.of_nat (S i)) with (p + 3 + 3 * Z.of_nat i) by lia.
        exact Hs.
  - injection H as <-. exists []. split; [now rewrite app_nil_r|]. split.
    + cbn [length].
      assert ((Slice.len b - p + 2) / 3 <= 0).
      { apply Z.lt_succ_r. apply Z.div_lt_upper_bound; lia. }
      lia.
    + intros [|i] l Hl; discriminate.
Qed.

(** X7.  A route that the parser returns carries, apart from the Ethernet
    Tag: the RD decoded from bytes 0 to 7 and the ESI from bytes 8 to 17; the
    MAC length of byte 22 and, when it is 8 bits or more, the MAC decoded
    from the next length/8 bytes (nil otherwise); the IP length of the byte
    after the MAC and, when it is not 0, the next length/8 bytes as the IP
    address (empty otherwise). *)
Theorem UnmarshalEVPNMACIPAdvertisement_fields (b : Slice.t) t :
  Unmarshal b = Some (Ok t) -> placed b t.
Proof.
  unfold evpn.UnmarshalEVPNMACIPAdvertisement. intros H.
  destruct (fixed_part b) as [[t0 p]| |] eqn:E; try discriminate.
  destruct (label_loop _ _ _ _) as [[labels| |]|]; try discriminate.
  injection H as <-.
  apply fixed_part_placed in E. destruct E as (E & _).
  exact E.
Qed.

(** X8.  A route that the parser returns has one label for every 3 bytes,
    or part of 3 bytes, of the body after the IP address, in their order;
    the label at offset [p] is what [MakeLabel] returns on all the bytes from
    [p] to the end of the body, not on 3 bytes. *)
Theorem UnmarshalEVPNMACIPAdvertisement_labels (b : Slice.t) t :
  Unmarshal b = Some (Ok t) ->
  let p := evpn.labels_offset (evpn.MACAddrLength t) (evpn.IPAddrLength t) in
  length (evpn.Label t) = Z.to_nat ((Slice.len b - p + 2) / 3) /\
  forall (i : nat) (l : base_Label),
    nth_error (evpn.Label t) i = Some l ->
    exists s,
      Slice.from b (p + 3 * Z.of_nat i) = Ok s /\ MakeLabel s = Ok l /\
      Slice.len s = Slice.len b - (p + 3 * Z.of_nat i).
Proof.
  unfold evpn.UnmarshalEVPNMACIPAdvertisement. intros H.
  destruct (fixed_part b) as [[t0 p0]| |] eqn:E; try discriminate.
  destruct (label_loop _ _ _ _) as [[labels| |]|] eqn:EL; try discriminate.
  injection H as <-.
  pose proof (fixed_part_ok _ _ _ _ MakeRD MakeESI MakeMACAddress b t0 p0 E)
    as (_ & _ & _ & _ & Hp0).
  apply fixed_part_placed in E. destruct E as (_ & _ & ->).
  apply label_loop_ok in EL. destruct EL as (new & -> & Hn & Hnth).
  cbn [app evpn.with_labels evpn.Label evpn.MACAddrLength evpn.IPAddrLength].
  split; [exact Hn|].
  intros i l Hl. destruct (Hnth i l Hl) as (s & Hs & Hm).
  exists s. split; [exact Hs|]. split; [exact Hm|].
  unfold Slice.from in Hs. apply sub_ok_inv in Hs.
  destruct Hs as (Hlo & _ & Hel).
  unfold Slice.len at 1. rewrite Hel, length_firstn, length_skipn.
  pose proof (len_le_cap b) as Hcap. rewrite cap_backing in Hcap. lia.
Qed.

End MacIpFields.

Lemma UnmarshalEVPNMACIPAdvertisement_fields_witness :
  evpn.placed wire.RD wire.ESI wire.MACAddress wire.Label
    wire.MakeRD wire.MakeESI wire.MakeMACAddress
    (Slice.of_list wire.mac_ip_body) wire.mac_ip_route.
Proof.
  apply (UnmarshalEVPNMACIPAdvertisement_fields _ _ _ _ _ _ _ wire.MakeLabel).
  reflexivity.
Defined.

Lemma UnmarshalEVPNMACIPAdvertisement_labels_witness :
  let b := Slice.of_list (wire.mac_ip_body ++ wire.bytes [0; 1; 1]) in
  exists t,
    wire.UnmarshalEVPNMACIPAdvertisement b = Some (Ok t) /\
    let p := evpn.labels_offset (evpn.MACAddrLength t) (evpn.IPAddrLength t) in
    length (evpn.Label t) = Z.to_nat ((Slice.len b - p + 2) / 3) /\
    forall (i : nat) (l : wire.Label),
      nth_error (evpn.Label t) i = Some l ->
      exists s,
        Slice.from b (p + 3 * Z.of_nat i) = Ok s /\ wire.MakeLabel s = Ok l /\
        Slice.len s = Slice.len b - (p + 3 * Z.of_nat i).
Proof.
  intros b. eexists. split; [reflexivity|].
  apply (UnmarshalEVPNMACIPAdvertisement_labels _ _ _ _
           wire.MakeRD wire.MakeESI wire.MakeMACAddress wire.MakeLabel b).
  reflexivity.
Defined.

(** ** Waiting for the broker and for the topics *)

Lemma ensureTopic_inv (topicName : string) (env rest : list kafka.turn)
    (r : option kafka.topic_error) :
  kafka.ensureTopic topicName env = Some (r, rest) <->
  exists pending tn,
    env = pending ++ tn :: rest /\
    Forall (kafka.retried topicName) pending /\
    kafka.ends topicName tn r.
Proof.
  split.
  - revert r rest. induction env as [|tn env IH]; intros r rest H; [discriminate|].
    cbn [kafka.ensureTopic] in H.
    assert (Hwait :
      forall m, kafka.reply tn = kafka.CreateTopicsResponse m ->
        (m topicName = None \/ m topicName = Some kafka.ErrRequestTimedOut) ->
        match kafka.fired tn with
        | kafka.tickerC => kafka.ensureTopic topicName env
        | kafka.toutC => Some (Some (kafka.timeout_waiting topicName), env)
        end = Some (r, rest) ->
        exists pending tn0,
          tn :: env = pending ++ tn0 :: rest /\
          Forall (kafka.retried topicName) pending /\ kafka.ends topicName tn0 r).
    { intros m Hm Hentry Hw. destruct (kafka.fired tn) eqn:Hf.
      - destruct (IH _ _ Hw) as (pending & tn0 & -> & Hp & He).
        exists (tn :: pending), tn0. split; [reflexivity|]. split; [|exact He].
        constructor; [|exact Hp]. split; [eauto | exact Hf].
      - injection Hw as <- <-. exists [], tn. split; [reflexivity|].
        split; [constructor|]. cbn. eauto. }
    destruct (kafka.reply tn) as [err|m] eqn:Hr.
    + injection H as <- <-. exists [], tn. split; [reflexivity|].
      split; [constructor | exact Hr].
    + destruct (m topicName) as [e|] eqn:Hm; [|eapply Hwait; eauto].
      destruct (Z.eqb_spec e kafka.ErrTopicAlreadyExists) as [->|H1]; cbn [orb] in H.
      { injection H as <- <-. exists [], tn. split; [reflexivity|].
        split; [constructor|]. cbn. eauto. }
      destruct (Z.eqb_spec e kafka.ErrNoError) as [->|H2].
      { injection H as <- <-. exists [], tn. split; [reflexivity|].
        split; [constructor|]. cbn. eauto. }
      destruct (Z.eqb_spec e kafka.ErrRequestTimedOut) as [->|H3]; cbn [negb] in H.
      { eapply Hwait; eauto. }
      injection H as <- <-. exists [], tn. split; [reflexivity|].
      split; [constructor|]. cbn. exists m. auto.
  - intros (pending & tn & -> & Hp & He).
    induction Hp as [|tn0 pending [(m & Hr & Hm) Hf] _ IH].
    + cbn [app kafka.ensureTopic].
      destruct r as [[err|e|t]|]; cbn in He.
      * now rewrite He.
      * destruct He as (m & -> & -> & H1 & H2 & H3).
        apply Z.eqb_neq in H1, H2, H3. now rewrite H1, H2, H3.
      * destruct He as (-> & -> & m & -> & [-> | ->]); reflexivity.
      * destruct He as (m & -> & [-> | ->]); reflexivity.
    + cbn [app kafka.ensureTopic]. rewrite Hr, Hf.
      destruct Hm as [-> | ->]; exact IH.
Qed.

Lemma waitForBrokerConnection_inv (addr : string)
    (polls rest : list kafka.poll) (r : option kafka.connect_error) :
  kafka.waitForBrokerConnection addr polls = Some (r, rest) <->
  exists pending pl,
    polls = pending ++ pl :: rest /\
    Forall kafka.waiting pending /\
    kafka.settles addr pl r.
Proof.
  split.
  - revert r rest. induction polls as [|pl polls IH]; intros r rest H;
      [discriminate|].
    cbn [kafka.waitForBrokerConnection] in H.
    destruct (kafka.connected pl) eqn:Hc.
    { injection H as <- <-. exists [], pl. split; [reflexivity|].
      split; [constructor | exact Hc]. }
    destruct (kafka.conn_err pl) as [err|] eqn:He.
    { injection H as <- <-. exists [], pl. split; [reflexivity|].
      split; [constructor | split; assumption]. }
    destruct (kafka.poll_fired pl) eqn:Hf.
    + destruct (IH _ _ H) as (pending & pl0 & -> & Hp & Hs).
      exists (pl :: pending), pl0. split; [reflexivity|]. split; [|exact Hs].
      constructor; [|exact Hp]. repeat split; assumption.
    + injection H as <- <-. exists [], pl. split; [reflexivity|].
      split; [constructor|]. cbn. auto.
  - intros (pending & pl & -> & Hp & Hs).
    induction Hp as [|pl0 pending (Hc & He & Hf) _ IH].
    + cbn [app kafka.waitForBrokerConnection].
      destruct r as [[err|a]|]; cbn in Hs.
      * destruct Hs as [-> ->]. reflexivity.
      * destruct Hs as (-> & -> & -> & ->). reflexivity.
      * rewrite Hs. reflexivity.
    + cbn [app kafka.waitForBrokerConnection]. rewrite Hc, He, Hf. exact IH.
Qed.

(** X9.  [ensureTopic] returns [r] and leaves the turns [rest] exactly when
    the turns before [rest] are a run of retried turns (no entry for the
    topic, or a request timeout, with the ticker firing) and one last turn
    that explains [r]: nil for an already-exists or no-error entry, the
    error of a failed call, the entry's own error when it is any other
    error, the timeout error when the timer fires in place of the ticker.
    In particular it never returns before one call of [CreateTopics]. *)
Theorem ensureTopic_returns_iff (topicName : string) (env rest : list kafka.turn)
    (r : option kafka.topic_error) :
  kafka.ensureTopic topicName env = Some (r, rest) <->
  exists pending tn,
    env = pending ++ tn :: rest /\
    Forall (kafka.retried topicName) pending /\
    kafka.ends topicName tn r.
Proof.
  exact (ensureTopic_inv topicName env rest r).
Qed.

(** X10.  [waitForBrokerConnection] returns [r] and leaves the polls [rest]
    exactly when the polls before [rest] are a run of polls that are not
    connected and carry no error, each followed by a tick, and one last poll
    that explains [r]: nil when it reports the connection, even together
    with an error; the error of a poll that is not connected; the timeout
    error when the timer fires on a poll that is not connected and carries
    no error. *)
Theorem waitForBrokerConnection_returns_iff (addr : string)
    (polls rest : list kafka.poll) (r : option kafka.connect_error) :
  kafka.waitForBrokerConnection addr polls = Some (r, rest) <->
  exists pending pl,
    polls = pending ++ pl :: rest /\
    Forall kafka.waiting pending /\
    kafka.settles addr pl r.
Proof.
  exact (waitForBrokerConnection_inv addr polls rest r).
Qed.

(** The turns a successful provisioning took: one run per topic, in the
    order of the topics, each a run of retried turns closed by a turn that
    acknowledges its topic. *)
Lemma ensureTopics_ok (topics : list string) :
  forall env rest : list kafka.turn,
    kafka.ensureTopics topics env = Some (None, rest) ->
    exists runs,
      env = concat runs ++ rest /\
      Forall2 (fun topic run =>
                 exists pending tn,
                   run = pending ++ [tn] /\
                   Forall (kafka.retried topic) pending /\
                   kafka.ends topic tn None) topics runs.
Proof.
  induction topics as [|topic topics IH]; intros env rest H;
    cbn [kafka.ensureTopics] in H.
  - injection H as <-. exists []. split; [reflexivity | constructor].
  - destruct (kafka.ensureTopic topic env) as [[[err|] env']|] eqn:E;
      try discriminate.
    apply ensureTopic_inv in E. destruct E as (pending & tn & -> & Hp & He).
    apply IH in H. destruct H as (runs & -> & Hruns).
    exists ((pending ++ [tn]) :: runs). split.
    + cbn [concat]. rewrite <- !app_assoc. reflexivity.
    + constructor; [|exact Hruns]. exists pending, tn. auto.
Qed.

Lemma acknowledged_in_runs (topics : list string) (runs : list (list kafka.turn)) :
  Forall2 (fun topic run =>
             exists pending tn,
               run = pending ++ [tn] /\
               Forall (kafka.retried topic) pending /\
               kafka.ends topic tn None) topics runs ->
  forall topic, In topic topics ->
    exists tn, In tn (concat runs) /\ kafka.ends topic tn None.
Proof.
  induction 1 as [|topic0 run topics runs (pending & tn & -> & _ & He) _ IH];
    intros topic Hin; [destruct Hin|].
  cbn [concat]. destruct Hin as [<-|Hin].
  - exists tn. split; [|exact He].
    apply in_or_app. left. apply in_or_app. right. now left.
  - destruct (IH topic Hin) as (tn' & Hin' & He').
    exists tn'. split; [|exact He']. apply in_or_app. now right.
Qed.

Section StartupProps.

Variable IP : Type.
Variable LookupIP : string -> option (list IP) * kafka.error.
Variable ParseIP : string -> option IP.
Variables PeerStateChangeMsg UnicastPrefixMsg LSNodeMsg LSLinkMsg L3VPNMsg
  LSPrefixMsg LSSRv6SIDMsg EVPNMsg : Z.

Local Abbreviation validator := (kafka.validator IP LookupIP ParseIP).
Local Abbreviation NewKafkaPublisher := (kafka.NewKafkaPublisher IP LookupIP ParseIP).
Local Abbreviation PublishMessage :=
  (kafka.PublishMessage PeerStateChangeMsg UnicastPrefixMsg LSNodeMsg LSLinkMsg
     L3VPNMsg LSPrefixMsg LSSRv6SIDMsg EVPNMsg).
Local Abbreviation known_types :=
  (kafka.known_types PeerStateChangeMsg UnicastPrefixMsg LSNodeMsg LSLinkMsg
     L3VPNMsg LSPrefixMsg LSSRv6SIDMsg EVPNMsg).

Lemma NewKafkaPublisher_inv (kafkaSrv : string) (w : kafka.world)
    (p : kafka.publisher) :
  NewKafkaPublisher kafkaSrv w = Some (inl p) ->
  validator kafkaSrv = None /\
  (forall err, kafka.br_open w <> kafka.open_err err) /\
  (exists rest, kafka.waitForBrokerConnection kafkaSrv (kafka.polls w)
                  = Some (None, rest)) /\
  (exists rest, kafka.ensureTopics kafka.topicNames (kafka.turns w)
                  = Some (None, rest)) /\
  kafka.new_producer w = None /\
  p = kafka.mkPublisher true [] false.
Proof.
  unfold kafka.NewKafkaPublisher.
  destruct (validator kafkaSrv); [discriminate|].
  destruct (kafka.waitForBrokerConnection kafkaSrv (kafka.polls w))
    as [[[e|] rest1]|]; try (destruct (kafka.br_open w); discriminate).
  destruct (kafka.ensureTopics kafka.topicNames (kafka.turns w))
    as [[[e|] rest2]|]; try (destruct (kafka.br_open w); discriminate).
  destruct (kafka.new_producer w);
    try (destruct (kafka.br_open w); discriminate).
  intros H. split; [reflexivity|]. split.
  - intros err Herr. rewrite Herr in H. discriminate.
  - split; [eauto|]. split; [eauto|]. split; [reflexivity|].
    destruct (kafka.br_open w); congruence.
Qed.

(** X11.  [NewKafkaPublisher] returns a publisher only for an address that
    [validator] accepts, after a poll of the broker reported the connection
    and after the broker acknowledged each of the eight topics, in the order
    of [topicNames], with an already-exists or no-error answer.  The
    publisher is new: its broker connection is open, nothing has been sent
    and its stop channel is open, so that [Stop] returns on it once and
    panics the second time. *)
Theorem NewKafkaPublisher_ready (kafkaSrv : string) (w : kafka.world)
    (p : kafka.publisher) :
  NewKafkaPublisher kafkaSrv w = Some (inl p) ->
  validator kafkaSrv = None /\
  (exists pending pl rest,
     kafka.polls w = pending ++ pl :: rest /\ kafka.connected pl = true /\
     Forall kafka.waiting pending) /\
  (exists runs rest,
     kafka.turns w = concat runs ++ rest /\
     Forall2 (fun topic run =>
                exists pending tn,
                  run = pending ++ [tn] /\
                  Forall (kafka.retried topic) pending /\
                  kafka.ends topic tn None) kafka.topicNames runs) /\
  p = kafka.mkPublisher true [] false /\
  exists p1, kafka.Stop p = Ok p1 /\
             kafka.Stop p1 = Panic "close of closed channel".
Proof.
  intros H. apply NewKafkaPublisher_inv in H.
  destruct H as (Hv & _ & [rest1 Hw] & [rest2 Ht] & _ & ->).
  split; [exact Hv|]. split; [|split; [|split]].
  - apply waitForBrokerConnection_inv in Hw.
    destruct Hw as (pending & pl & E & Hp & Hs).
    exists pending, pl, rest1. auto.
  - apply ensureTopics_ok in Ht. destruct Ht as (runs & E & Hruns).
    exists runs, rest2. auto.
  - reflexivity.
  - eexists. split; reflexivity.
Qed.

(** X12.  On a publisher that [NewKafkaPublisher] returned, a message of
    any of the eight known types is sent on a topic that the broker
    acknowledged, with an already-exists or no-error answer, during that
    start. *)
Theorem NewKafkaPublisher_topics_acknowledged (kafkaSrv : string)
    (w : kafka.world) (p : kafka.publisher) (t : Z) (key msg : list byte) :
  NewKafkaPublisher kafkaSrv w = Some (inl p) ->
  In t known_types ->
  exists topic tn,
    PublishMessage p t key msg = kafka.produceMessage p topic key msg /\
    In tn (kafka.turns w) /\ kafka.ends topic tn None.
Proof.
  intros H Hin. apply NewKafkaPublisher_inv in H.
  destruct H as (_ & _ & _ & [rest Ht] & _ & _).
  apply ensureTopics_ok in Ht. destruct Ht as (runs & E & Hruns).
  destruct (PublishMessage_known _ _ _ _ _ _ _ _ p t key msg Hin)
    as (topic & Htopic & Hpub).
  destruct (acknowledged_in_runs _ _ Hruns topic Htopic) as (tn & Htn & He).
  exists topic, tn. split; [exact Hpub|]. split; [|exact He].
  rewrite E. apply in_or_app. now left.
Qed.

End StartupProps.

Lemma NewKafkaPublisher_ready_witness :
  let p := kafka.mkPublisher true [] false in
  kafka.validator string kafka.localhost_only kafka.loopback_literal
    "localhost:9092" = None /\
  (exists pending pl rest,
     kafka.polls kafka.good_world = pending ++ pl :: rest /\
     kafka.connected pl = true /\ Forall kafka.waiting pending) /\
  (exists runs rest,
     kafka.turns kafka.good_world = concat runs ++ rest /\
     Forall2 (fun topic run =>
                exists pending tn,
                  run = pending ++ [tn] /\
                  Forall (kafka.retried topic) pending /\
                  kafka.ends topic tn None) kafka.topicNames runs) /\
  p = kafka.mkPublisher true [] false /\
  exists p1, kafka.Stop p = Ok p1 /\
             kafka.Stop p1 = Panic "close of closed channel".
Proof.
  intros p.
  apply (NewKafkaPublisher_ready string kafka.localhost_only
           kafka.loopback_literal "localhost:9092" kafka.good_world p).
  reflexivity.
Defined.

Lemma NewKafkaPublisher_topics_acknowledged_witness :
  let p := kafka.mkPublisher true [] false in
  exists topic tn,
    kafka.PublishMessage 1 2 3 4 5 6 7 8 p 8 (wire.bytes [1]) (wire.bytes [2])
      = kafka.produceMessage p topic (wire.bytes [1]) (wire.bytes [2]) /\
    In tn (kafka.turns kafka.good_world) /\ kafka.ends topic tn None.
Proof.
  intros p.
  apply (NewKafkaPublisher_topics_acknowledged string kafka.localhost_only
           kafka.loopback_literal 1 2 3 4 5 6 7 8
           "localhost:9092" kafka.good_world p 8).
  - reflexivity.
  - unfold kafka.known_types. simpl. tauto.
Defined.

(** ** Publishing keeps what was sent *)

Section PublishFrame.

Variables PeerStateChangeMsg UnicastPrefixMsg LSNodeMsg LSLinkMsg L3VPNMsg
  LSPrefixMsg LSSRv6SIDMsg EVPNMsg : Z.

Local Abbreviation PublishMessage :=
  (kafka.PublishMessage PeerStateChangeMsg UnicastPrefixMsg LSNodeMsg LSLinkMsg
     L3VPNMsg LSPrefixMsg LSSRv6SIDMsg EVPNMsg).
Local Abbreviation known_types :=
  (kafka.known_types PeerStateChangeMsg UnicastPrefixMsg LSNodeMsg LSLinkMsg
     L3VPNMsg LSPrefixMsg LSSRv6SIDMsg EVPNMsg).

(** X13.  [PublishMessage] leaves the broker connection and the stop
    channel as they are and keeps every message sent before, in its place:
    it adds one message at the end for a known message type, carrying the key
    and the body, and nothing for an unknown one. *)
Theorem PublishMessage_frame (p : kafka.publisher) (t : Z) (key msg : list byte) :
  let p' := fst (PublishMessage p t key msg) in
  kafka.broker_open p' = kafka.broker_open p /\
  kafka.stopCh_closed p' = kafka.stopCh_closed p /\
  exists sent,
    kafka.producer_input p' = kafka.producer_input p ++ sent /\
    (In t known_types ->
     exists topic, In topic kafka.topicNames /\
                   sent = [kafka.mkProducerMessage topic key msg]) /\
    (~ In t known_types -> sent = [] /\ p' = p).
Proof.
  destruct (known_types_dec PeerStateChangeMsg UnicastPrefixMsg LSNodeMsg
              LSLinkMsg L3VPNMsg LSPrefixMsg LSSRv6SIDMsg EVPNMsg t) as [Hin|Hout].
  - destruct (PublishMessage_known _ _ _ _ _ _ _ _ p t key msg Hin)
      as (topic & Htopic & ->).
    cbn [fst kafka.produceMessage kafka.broker_open kafka.stopCh_closed
         kafka.producer_input].
    split; [reflexivity|]. split; [reflexivity|].
    exists [kafka.mkProducerMessage topic key msg].
    split; [reflexivity|]. split.
    + intros _. exists topic. split; [exact Htopic | reflexivity].
    + intros Hn. contradiction.
  - rewrite (PublishMessage_unknown _ _ _ _ _ _ _ _ p t key msg Hout).
    cbn [fst]. split; [reflexivity|]. split; [reflexivity|].
    exists []. split; [now rewrite app_nil_r|]. split.
    + intros Hin. contradiction.
    + intros _. split; reflexivity.
Qed.

End PublishFrame.

(** ** The validator and the error of [SplitHostPort] *)

(** When [SplitHostPort] returns an error, the host and the port it returns
    are empty. *)
Lemma SplitHostPort_error (addr : string) :
  snd (net.SplitHostPort addr) <> None ->
  fst (fst (net.SplitHostPort addr)) = EmptyString /\
  snd (fst (net.SplitHostPort addr)) = EmptyString.
Proof.
  unfold net.SplitHostPort.
  repeat match goal with
  | |- context [if ?c then _ else _] => destruct c
  end; cbn; intros H; try (exfalso; apply H; reflexivity); auto.
Qed.

Section ValidatorMore.

Variable IP : Type.
Variable LookupIP : string -> option (list IP) * kafka.error.
Variable ParseIP : string -> option IP.

Local Abbreviation validator := (kafka.validator IP LookupIP ParseIP).

(** X14.  [validator] accepts an address exactly when [SplitHostPort] gives
    a non-empty host and a non-empty port, the host resolves (a non-nil
    result and a nil error of [LookupIP]) or parses as a literal IP, and
    [Atoi] reads the port as a number that is not 0 and not above 65535. *)
Theorem validator_accepts_exactly (addr : string) :
  validator addr = None <->
  let '(host, port, _) := net.SplitHostPort addr in
  host <> EmptyString /\ port <> EmptyString /\
  (resolves IP LookupIP host \/ literal IP ParseIP host) /\
  exists np, strconv.Atoi port = Some np /\ np <> 0 /\ np <= 65535.
Proof.
  exact (validator_accepts_iff IP LookupIP ParseIP addr).
Qed.

(** X15.  [validator] drops the error of [SplitHostPort], and still refuses
    every address on which [SplitHostPort] fails, since the host and the
    port come back empty. *)
Theorem validator_refuses_unsplit (addr : string) :
  snd (net.SplitHostPort addr) <> None -> validator addr <> None.
Proof.
  intros Herr Hok. apply SplitHostPort_error in Herr.
  apply validator_accepts_iff in Hok.
  destruct (net.SplitHostPort addr) as [[host port] err].
  cbn [fst snd] in Herr. tauto.
Qed.

End ValidatorMore.

Lemma validator_refuses_unsplit_witness :
  snd (net.SplitHostPort "localhost") <> None /\
  kafka.validator string kafka.localhost_only kafka.loopback_literal "localhost"
    <> None.
Proof.
  assert (H : snd (net.SplitHostPort "localhost") <> None) by discriminate.
  split; [exact H|].
  exact (validator_refuses_unsplit string kafka.localhost_only
           kafka.loopback_literal "localhost" H).
Defined.

(** ** The JSON of an NLRI *)

Section MarshalProps.

Variable json_Marshal : bgpls.TLV -> outcome (list byte).

Local Abbreviation marshal_range := (bgpls.marshal_range json_Marshal).
Local Abbreviation MarshalJSON := (bgpls.MarshalJSON json_Marshal).

Lemma marshal_range_ok (tlvs : list bgpls.TLV) :
  forall (n i : Z) (acc out : list byte),
    n = i + Z.of_nat (length tlvs) ->
    marshal_range n i tlvs acc = Ok out ->
    exists items,
      Forall2 (fun tlv b => json_Marshal tlv = Ok b) tlvs items /\
      out = acc ++ bgpls.join [x2c] items.
Proof.
  induction tlvs as [|tlv rest IH]; intros n i acc out Hn H;
    cbn [bgpls.marshal_range] in H.
  - injection H as <-. exists []. split; [constructor|].
    cbn. now rewrite app_nil_r.
  - bind_inv H b Eb. cbn [length] in Hn.
    apply IH in H; [|lia]. destruct H as (items & Hitems & ->).
    exists (b :: items). split; [constructor; assumption|].
    destruct rest as [|tlv' rest].
    + destruct items as [|b' items']; [|inversion Hitems].
      replace (i <? n - 1) with false by (symmetry; apply Z.ltb_ge; simpl in *; lia).
      cbn. now rewrite app_nil_r.
    + destruct items as [|b' items']; [inversion Hitems|].
      replace (i <? n - 1) with true
        by (symmetry; apply Z.ltb_lt; cbn [length] in *; lia).
      cbn [bgpls.join]. rewrite <- !app_assoc. reflexivity.
Qed.

Lemma marshal_range_complete (tlvs : list bgpls.TLV) (items : list (list byte)) :
  Forall2 (fun tlv b => json_Marshal tlv = Ok b) tlvs items ->
  forall (n i : Z) (acc : list byte),
    n = i + Z.of_nat (length tlvs) ->
    marshal_range n i tlvs acc = Ok (acc ++ bgpls.join [x2c] items).
Proof.
  induction 1 as [|tlv b rest items Hb Hrest IH]; intros n i acc Hn;
    cbn [bgpls.marshal_range].
  - cbn. now rewrite app_nil_r.
  - rewrite Hb. cbn [bind]. cbn [length] in Hn.
    rewrite IH by lia.
    destruct Hrest as [|tlv' b' rest items _ _].
    + replace (i <? n - 1) with false by (symmetry; apply Z.ltb_ge; simpl in *; lia).
      cbn. now rewrite app_nil_r.
    + replace (i <? n - 1) with true
        by (symmetry; apply Z.ltb_lt; cbn [length] in *; lia).
      cbn [bgpls.join]. rewrite <- !app_assoc. reflexivity.
Qed.

Lemma marshal_range_err (tlvs : list bgpls.TLV) (e : string) :
  forall (n i : Z) (acc : list byte),
    marshal_range n i tlvs acc = Err e ->
    exists pre tlv post,
      tlvs = pre ++ tlv :: post /\
      Forall (fun t => exists b, json_Marshal t = Ok b) pre /\
      json_Marshal tlv = Err e.
Proof.
  induction tlvs as [|tlv rest IH]; intros n i acc H;
    cbn [bgpls.marshal_range] in H; [discriminate|].
  destruct (json_Marshal tlv) as [b|e'|] eqn:Eb; cbn [bind] in H;
    [| |discriminate].
  - apply IH in H. destruct H as (pre & t & post & -> & Hpre & Ht).
    exists (tlv :: pre), t, post. split; [reflexivity|].
    split; [constructor; eauto | exact Ht].
  - injection H as ->. exists [], tlv, rest.
    split; [reflexivity|]. split; [constructor | exact Eb].
Qed.

(** X16.  The NLRI's [MarshalJSON] succeeds exactly when [json.Marshal]
    succeeds on every TLV, and its output is then an opening brace, the key
    BGPLSTLV, an opening bracket, the JSON of the TLVs in their order with
    one comma between two of them and none after the last, a closing bracket
    and a closing brace; an NLRI with no TLV gives an empty array.  When it
    returns an error, it is the error of the first TLV on which
    [json.Marshal] fails. *)
Theorem NLRI_MarshalJSON_layout (ls : bgpls.NLRI) :
  (forall out,
     MarshalJSON ls = Ok out <->
     exists items,
       Forall2 (fun tlv b => json_Marshal tlv = Ok b) (bgpls.LS ls) items /\
       out = [x7b] ++ bgpls.key_BGPLSTLV ++ [x5b] ++
             bgpls.join [x2c] items ++ [x5d; x7d]) /\
  (forall e,
     MarshalJSON ls = Err e ->
     exists pre tlv post,
       bgpls.LS ls = pre ++ tlv :: post /\
       Forall (fun t => exists b, json_Marshal t = Ok b) pre /\
       json_Marshal tlv = Err e).
Proof.
  unfold bgpls.MarshalJSON. split.
  - intros out. split.
    + intros H. bind_inv H body E.
      apply marshal_range_ok in E; [|lia].
      destruct E as (items & Hitems & ->).
      exists items. split; [exact Hitems|].
      injection H as <-. cbn [app]. rewrite <- !app_assoc. reflexivity.
    + intros (items & Hitems & ->).
      rewrite (marshal_range_complete _ _ Hitems) by lia.
      cbn [bind app]. rewrite <- !app_assoc. reflexivity.
  - intros e H.
    destruct (marshal_range _ _ _ _) as [body|e'|] eqn:E; cbn [bind] in H;
      try discriminate.
    injection H as ->. exact (marshal_range_err _ _ _ _ _ E).
Qed.

End MarshalProps.

(** ** The JSON of a Link Descriptor TLV *)

Section LinkMarshalProps.

Variables LocalRemoteIdentifierTLV MultiTopologyIdentifierTLV : Type.
Variable UnmarshalLocalRemoteIdentifierTLV :
  list byte -> outcome LocalRemoteIdentifierTLV.
Variable json_Marshal_lri : LocalRemoteIdentifierTLV -> outcome (list byte).
Variable UnmarshalMultiTopologyIdentifierTLV :
  list byte -> outcome MultiTopologyIdentifierTLV.
Variable json_Marshal_mit : MultiTopologyIdentifierTLV -> outcome (list byte).
Variable RawBytesToJSON : list byte -> list byte.

Local Abbreviation MarshalJSON :=
  (base.MarshalJSON LocalRemoteIdentifierTLV MultiTopologyIdentifierTLV
     UnmarshalLocalRemoteIdentifierTLV json_Marshal_lri
     UnmarshalMultiTopologyIdentifierTLV json_Marshal_mit RawBytesToJSON).
Local Abbreviation raw_case := (base.raw_case RawBytesToJSON).

Lemma raw_case_ok (jsonData : list byte) (description key : string)
    (tlv : base.LinkDescriptorTLV) :
  raw_case jsonData description key tlv =
    Ok (jsonData ++ base.quoted description "," ++ base.quoted key ":" ++
        RawBytesToJSON (base.Value tlv)).
Proof.
  unfold base.raw_case. now rewrite <- !app_assoc.
Qed.

Lemma Ok_inj {A : Type} (a b : A) : Ok a = Ok b -> a = b.
Proof. intros H. congruence. Qed.

(** The closing brace is added to what the [switch] wrote. *)
Lemma closed_ok (r : outcome (list byte)) (out : list byte) :
  (jsonData <- r ;; Ok (jsonData ++ [x7d])) = Ok out ->
  exists written, r = Ok written /\ out = written ++ [x7d].
Proof.
  destruct r as [written|e|w]; cbn [bind]; intros H; try discriminate H.
  exists written. split; [reflexivity|]. symmetry. exact (Ok_inj _ _ H).
Qed.

Lemma closed_err (r : outcome (list byte)) (e : string) :
  (jsonData <- r ;; Ok (jsonData ++ [x7d])) = Err e -> r = Err e.
Proof.
  destruct r as [written|e'|w]; cbn [bind]; intros H; try discriminate H.
  exact H.
Qed.

(** A case that decodes the value and marshals what it decoded. *)
Lemma decoded_case {T : Type} (decode : list byte -> outcome T)
    (marshal : T -> outcome (list byte)) (jsonData v : list byte) :
  let r := (x <- decode v ;; b <- marshal x ;; Ok (jsonData ++ b)) in
  (forall written, r = Ok written -> exists b, written = jsonData ++ b) /\
  (forall e, r = Err e ->
     decode v = Err e \/ exists x, decode v = Ok x /\ marshal x = Err e).
Proof.
  cbv zeta. destruct (decode v) as [x|e'|w]; cbn [bind].
  - destruct (marshal x) as [b|e'|w] eqn:Em; cbn [bind].
    + split; [|discriminate]. intros written H. exists b.
      symmetry. exact (Ok_inj _ _ H).
    + split; [discriminate|]. intros e H. right. exists x.
      split; [reflexivity | congruence].
    + split; discriminate.
  - split; [discriminate|]. intros e H. left. congruence.
  - split; discriminate.
Qed.

(** X17.  The TLV's [MarshalJSON] can fail only for the types 258 and 263,
    and then with the error of the decoder of the value or of
    [json.Marshal] on what it decoded.  For every other type it succeeds;
    every output starts with the opening brace, the type in decimal and the
    key of the description, and ends with the closing brace; a type outside
    258..263 is written as an Unknown Link TLV with [RawBytesToJSON] of its
    value. *)
Theorem LinkDescriptorTLV_MarshalJSON_outcomes (tlv : base.LinkDescriptorTLV) :
  (base.Type_ tlv <> 258 -> base.Type_ tlv <> 263 ->
   exists body, MarshalJSON tlv = Ok (base.json_head tlv ++ body ++ [x7d])) /\
  (forall out, MarshalJSON tlv = Ok out ->
     exists body, out = base.json_head tlv ++ body ++ [x7d]) /\
  (forall e, MarshalJSON tlv = Err e ->
     (base.Type_ tlv = 258 /\
      (UnmarshalLocalRemoteIdentifierTLV (base.Value tlv) = Err e \/
       exists lri, UnmarshalLocalRemoteIdentifierTLV (base.Value tlv) = Ok lri /\
                   json_Marshal_lri lri = Err e)) \/
     (base.Type_ tlv = 263 /\
      (UnmarshalMultiTopologyIdentifierTLV (base.Value tlv) = Err e \/
       exists mit, UnmarshalMultiTopologyIdentifierTLV (base.Value tlv) = Ok mit /\
                   json_Marshal_mit mit = Err e))) /\
  (base.Type_ tlv < 258 \/ 263 < base.Type_ tlv ->
   MarshalJSON tlv =
     Ok (base.json_head tlv ++
         (base.quoted "Unknown Link TLV" "," ++ base.quoted "Value" ":" ++
          RawBytesToJSON (base.Value tlv)) ++ [x7d])).
Proof.
  unfold base.MarshalJSON. cbv zeta.
  set (head := base.json_head tlv).
  assert (Hraw : forall description key,
    (jsonData <- raw_case head description key tlv ;; Ok (jsonData ++ [x7d]))
    = Ok (head ++ (base.quoted description "," ++ base.quoted key ":" ++
                   RawBytesToJSON (base.Value tlv)) ++ [x7d])).
  { intros description key. rewrite raw_case_ok. cbn [bind].
    now rewrite <- !app_assoc. }
  assert (Hrest : forall description key,
    (base.Type_ tlv <> 258 -> base.Type_ tlv <> 263 ->
     exists body,
       (jsonData <- raw_case head description key tlv ;; Ok (jsonData ++ [x7d]))
       = Ok (head ++ body ++ [x7d])) /\
    (forall out,
       (jsonData <- raw_case head description key tlv ;; Ok (jsonData ++ [x7d]))
       = Ok out -> exists body, out = head ++ body ++ [x7d]) /\
    (forall e,
       (jsonData <- raw_case head description key tlv ;; Ok (jsonData ++ [x7d]))
       <> Err e)).
  { intros description key. rewrite Hraw. split; [|split].
    - intros _ _. eexists. reflexivity.
    - intros out H. eexists. symmetry. exact (Ok_inj _ _ H).
    - intros e H. discriminate H. }
  assert (Hdec : forall (T : Type) (decode : list byte -> outcome T)
                        (marshal : T -> outcome (list byte)) (pre : list byte),
    let r := (jsonData <-
                (x <- decode (base.Value tlv) ;; b <- marshal x ;;
                 Ok ((head ++ pre) ++ b)) ;;
              Ok (jsonData ++ [x7d])) in
    (forall out, r = Ok out -> exists body, out = head ++ body ++ [x7d]) /\
    (forall e, r = Err e ->
       decode (base.Value tlv) = Err e \/
       exists x, decode (base.Value tlv) = Ok x /\ marshal x = Err e)).
  { intros T decode marshal pre. cbv zeta.
    destruct (decoded_case decode marshal (head ++ pre) (base.Value tlv))
      as [Hok Herr]. cbv zeta in Hok, Herr.
    split.
    - intros out H. apply closed_ok in H. destruct H as (written & Hw & ->).
      apply Hok in Hw. destruct Hw as [b ->].
      exists (pre ++ b). now rewrite <- !app_assoc.
    - intros e H. apply closed_err in H. exact (Herr e H). }
  destruct (Z.eqb_spec (base.Type_ tlv) 258) as [E258|N258].
  { rewrite <- app_assoc.
    destruct (Hdec _ UnmarshalLocalRemoteIdentifierTLV json_Marshal_lri
                (base.quoted "Local/Remote Identifiers" "," ++
                 base.quoted "identifiersLocalRemote" ":")) as [Hok Herr].
    cbv zeta in Hok, Herr.
    split; [intros N; contradiction|]. split; [exact Hok|].
    split; [|intros [H|H]; lia].
    intros e H. left. split; [exact E258 | exact (Herr e H)]. }
  destruct (Z.eqb_spec (base.Type_ tlv) 259) as [E259|N259].
  { destruct (Hrest "IPv4 interface address"%string "ipv4InterfaceAddress"%string)
      as (H1 & H2 & H3).
    split; [exact H1|]. split; [exact H2|].
    split; [intros e H; destruct (H3 e H) | intros [H|H]; lia]. }
  destruct (Z.eqb_spec (base.Type_ tlv) 260) as [E260|N260].
  { destruct (Hrest "IPv4 neighbor address"%string "ipv4NeighborAddress"%string)
      as (H1 & H2 & H3).
    split; [exact H1|]. split; [exact H2|].
    split; [intros e H; destruct (H3 e H) | intros [H|H]; lia]. }
  destruct (Z.eqb_spec (base.Type_ tlv) 261) as [E261|N261].
  { destruct (Hrest "IPv6 interface address"%string "ipv6InterfaceAddress"%string)
      as (H1 & H2 & H3).
    split; [exact H1|]. split; [exact H2|].
    split; [intros e H; destruct (H3 e H) | intros [H|H]; lia]. }
  destruct (Z.eqb_spec (base.Type_ tlv) 262) as [E262|N262].
  { destruct (Hrest "IPv6 neighbor address"%string "ipv6NeighborAddress"%string)
      as (H1 & H2 & H3).
    split; [exact H1|]. split; [exact H2|].
    split; [intros e H; destruct (H3 e H) | intros [H|H]; lia]. }
  destruct (Z.eqb_spec (base.Type_ tlv) 263) as [E263|N263].
  { rewrite <- app_assoc.
    destruct (Hdec _ UnmarshalMultiTopologyIdentifierTLV json_Marshal_mit
                (base.quoted "Multi-Topology Identifier" "," ++
                 base.quoted "multiTopologyIdentifier" ":")) as [Hok Herr].
    cbv zeta in Hok, Herr.
    split; [intros _ N; contradiction|]. split; [exact Hok|].
    split; [|intros [H|H]; lia].
    intros e H. right. split; [exact E263 | exact (Herr e H)]. }
  destruct (Hrest "Unknown Link TLV"%string "Value"%string) as (H1 & H2 & H3).
  split; [exact H1|]. split; [exact H2|].
  split; [intros e H; destruct (H3 e H)|].
  intros _. exact (Hraw "Unknown Link TLV"%string "Value"%string).
Qed.

End LinkMarshalProps.

(** ** The MAC/IP Advertisement parser: when it returns a route *)

Lemma index_in_range (b : Slice.t) (i : Z) (x : byte) :
  Slice.index b i = Ok x -> 0 <= i < Slice.len b.
Proof.
  intros H. apply index_ok_inv in H. tauto.
Qed.

Section MacIpSucceeds.

Variables base_RD evpn_ESI evpn_MACAddress base_Label : Type.
Variable MakeRD : Slice.t -> outcome base_RD.
Variable MakeESI : Slice.t -> outcome evpn_ESI.
Variable MakeMACAddress : Slice.t -> outcome evpn_MACAddress.
Variable MakeLabel : Slice.t -> outcome base_Label.

Local Abbreviation fixed_part :=
  (evpn.fixed_part base_RD evpn_ESI evpn_MACAddress base_Label
     MakeRD MakeESI MakeMACAddress).
Local Abbreviation label_loop :=
  (evpn.label_loop base_Label MakeLabel).
Local Abbreviation Unmarshal :=
  (evpn.UnmarshalEVPNMACIPAdvertisement base_RD evpn_ESI evpn_MACAddress
     base_Label MakeRD MakeESI MakeMACAddress MakeLabel).

Lemma label_loop_succeeds (b : Slice.t) (fuel : nat) :
  forall (p : Z) (acc : list base_Label),
    0 <= p ->
    (forall (i : nat) (s : Slice.t),
       Slice.from b (p + 3 * Z.of_nat i) = Ok s -> 0 < Slice.len s ->
       exists l, MakeLabel s = Ok l) ->
    (0 < fuel)%nat -> Slice.len b - p < Z.of_nat fuel ->
    exists labels, label_loop fuel b p acc = Some (Ok labels).
Proof.
  induction fuel as [|fuel IH]; intros p acc Hp Hdec Hpos Hfuel; [lia|].
  cbn [evpn.label_loop].
  destruct (Z.ltb_spec p (Slice.len b)) as [Hlt|Hge]; [|eauto].
  pose proof (len_le_cap b) as Hcap.
  unfold Slice.from. rewrite sub_in_range by lia. cbn [bind].
  destruct (Hdec 0%nat _ ltac:(replace (p + 3 * Z.of_nat 0) with p by lia;
                               unfold Slice.from; apply sub_in_range; lia))
    as [l Hl].
  { unfold Slice.len at 1. cbn [Slice.elems].
    rewrite length_firstn, length_skipn. rewrite cap_backing in Hcap. lia. }
  rewrite Hl. apply IH; try lia.
  intros i s Hs Hlen. apply (Hdec (S i) s); [|exact Hlen].
  replace (p + 3 * Z.of_nat (S i)) with (p + 3 + 3 * Z.of_nat i) by lia.
  exact Hs.
Qed.

(** X18.  The parser returns a route on every body that holds the MAC
    length byte at offset 22, the IP length byte after the MAC bytes, and,
    when the IP length is not 0, the IP bytes within its capacity, provided
    its field decoders succeed on the slices they are given: the first 8
    bytes, the next 10, the MAC bytes, and the rest of the body from every
    third offset after the IP address. *)
Theorem UnmarshalEVPNMACIPAdvertisement_succeeds (b : Slice.t) (x y : byte) :
  Slice.index b 22 = Ok x ->
  Slice.index b (23 + uint8 x / 8) = Ok y ->
  (uint8 y <> 0 -> 24 + uint8 x / 8 + uint8 y / 8 <= Slice.cap b) ->
  (forall s, Slice.sub b 0 8 = Ok s -> exists rd, MakeRD s = Ok rd) ->
  (forall s, Slice.sub b 8 18 = Ok s -> exists esi, MakeESI s = Ok esi) ->
  (forall s, Slice.sub b 23 (23 + uint8 x / 8) = Ok s ->
             exists m, MakeMACAddress s = Ok m) ->
  (forall (i : nat) (s : Slice.t),
     Slice.from b (evpn.labels_offset (uint8 x) (uint8 y) + 3 * Z.of_nat i) = Ok s ->
     0 < Slice.len s -> exists l, MakeLabel s = Ok l) ->
  exists t,
    Unmarshal b = Some (Ok t) /\
    evpn.MACAddrLength t = uint8 x /\ evpn.IPAddrLength t = uint8 y.
Proof.
  intros Hx Hy Hip Hrd Hesi Hmac Hlabel.
  pose proof (index_in_range _ _ _ Hx) as Rx.
  pose proof (index_in_range _ _ _ Hy) as Ry.
  pose proof (len_le_cap b) as Hcap.
  pose proof (uint8_range x) as Hrx. pose proof (uint8_range y) as Hry.
  assert (Hml : 0 <= uint8 x / 8) by (apply Z.div_pos; lia).
  assert (Hil : 0 <= uint8 y / 8) by (apply Z.div_pos; lia).
  assert (Hfixed : exists t,
    fixed_part b = Ok (t, evpn.labels_offset (uint8 x) (uint8 y)) /\
    evpn.MACAddrLength t = uint8 x /\ evpn.IPAddrLength t = uint8 y).
  { unfold evpn.fixed_part, evpn.labels_offset. cbv zeta.
    change (0 + 8 + 10 + 4 + 1) with 23. change (0 + 8 + 10 + 4) with 22.
    change (0 + 8 + 10) with 18. change (0 + 8) with 8.
    destruct (Hrd _ (sub_in_range b 0 8 ltac:(lia) ltac:(lia))) as [rd Erd].
    destruct (Hesi _ (sub_in_range b 8 18 ltac:(lia) ltac:(lia))) as [esi Eesi].
    rewrite (sub_in_range b 0 8) by lia. cbn [bind]. rewrite Erd. cbn [bind].
    rewrite (sub_in_range b 8 18) by lia. cbn [bind]. rewrite Eesi. cbn [bind].
    rewrite (sub_in_range b 18 22) by lia. cbn [bind].
    rewrite Hx. cbn [bind].
    assert (Emac : exists macAddr,
      (if negb (uint8 x / 8 =? 0)
       then s <- Slice.sub b 23 (23 + uint8 x / 8) ;;
            m <- MakeMACAddress s ;; Ok (Some m, 23 + uint8 x / 8)
       else Ok (None, 23)) = Ok (macAddr, 23 + uint8 x / 8)).
    { destruct (Z.eqb_spec (uint8 x / 8) 0) as [Hz|Hz]; cbn [negb].
      - exists None. rewrite Hz. reflexivity.
      - destruct (Hmac _ (sub_in_range b 23 (23 + uint8 x / 8)
                            ltac:(lia) ltac:(lia))) as [m Em].
        rewrite sub_in_range by lia. cbn [bind]. rewrite Em. cbn [bind].
        eauto. }
    destruct Emac as [macAddr ->]. cbn [bind].
    rewrite Hy. cbn [bind].
    destruct (Z.eqb_spec (uint8 y) 0) as [Hz|Hz]; cbn [negb].
    - cbn [bind]. eexists.
      split; [apply f_equal; apply f_equal2; [reflexivity | lia]
             | split; reflexivity].
    - rewrite sub_in_range by lia. cbn [bind]. eexists.
      split; [apply f_equal; apply f_equal2; [reflexivity | lia]
             | split; reflexivity]. }
  destruct Hfixed as (t0 & Hfixed & Hm & Hi).
  unfold evpn.UnmarshalEVPNMACIPAdvertisement. rewrite Hfixed.
  destruct (label_loop_succeeds b (S (length (Slice.elems b)))
              (evpn.labels_offset (uint8 x) (uint8 y)) [])
    as [labels ->]; try lia.
  - unfold evpn.labels_offset. destruct (uint8 y =? 0); lia.
  - exact Hlabel.
  - unfold evpn.labels_offset, Slice.len in *. destruct (uint8 y =? 0); lia.
  - eexists. split; [reflexivity|]. split; assumption.
Qed.

End MacIpSucceeds.

Lemma UnmarshalEVPNMACIPAdvertisement_succeeds_witness :
  exists t,
    wire.UnmarshalEVPNMACIPAdvertisement (Slice.of_list wire.mac_ip_body)
      = Some (Ok t) /\
    evpn.MACAddrLength t = 48 /\ evpn.IPAddrLength t = 32.
Proof.
  apply (UnmarshalEVPNMACIPAdvertisement_succeeds
           wire.RD wire.ESI wire.MACAddress wire.Label
           wire.MakeRD wire.MakeESI wire.MakeMACAddress wire.MakeLabel
           (Slice.of_list wire.mac_ip_body) x30 x20).
  - reflexivity.
  - reflexivity.
  - intros _. vm_compute. discriminate.
  - intros s H. vm_compute in H. injection H as <-. eexists. reflexivity.
  - intros s H. vm_compute in H. injection H as <-. eexists. reflexivity.
  - intros s H. vm_compute in H. injection H as <-. eexists. reflexivity.
  - intros [|i] s H Hlen.
    + vm_compute in H. injection H as <-. eexists. reflexivity.
    + exfalso. unfold Slice.from in H. apply sub_ok_inv in H.
      destruct H as (Hlo & _ & Hel).
      unfold Slice.len in Hlen. rewrite Hel, length_firstn in Hlen.
      change (evpn.labels_offset (uint8 x30) (uint8 x20)) with 34 in *.
      change (Slice.len (Slice.of_list wire.mac_ip_body)) with 37 in *.
      lia.
Defined.
